(** * Region-proposal geometry of [rpn.py]

    A shallow embedding of the anchor generation, the box codec and the
    proposal selection of [rpn.py], with the properties stated about them.

    Floating-point numbers are real numbers: [tf.cast (_, tf.float32)]
    is the identity on them, and [.astype(np.int)] is truncation toward
    zero.  The anchors are tensors of 32-bit integers, as they are in the
    program: the reference anchors are truncated when they meet the
    integer shifts, and sums and products of such integers wrap around.
    A tensor of rank one (or a column of shape (n, 1)) is a list of
    numbers, a tensor of shape (n, 4) is a list of rows.  An operation
    that raises in Python (shapes that do not broadcast, an index out of
    range, a threshold that the suppression refuses, the [ValueError] of
    the reference generator) returns [None]. *)

From Stdlib Require Import String Ascii.
From Stdlib Require Import Reals Lra Lia List Bool ZArith Arith Permutation
  Sorted.
Import ListNotations.

Set Warnings "-abstract-large-number".

Local Open Scope R_scope.

(** ** Results of operations that may raise *)

Definition bind {A B : Type} (c : option A) (k : A -> option B) : option B :=
  match c with
  | Some a => k a
  | None => None
  end.

Declare Scope raise_scope.
Delimit Scope raise_scope with raise.
Notation "x <- c ;; k" := (bind c (fun x => k))
  (at level 61, c at next level, right associativity) : raise_scope.
Notation "' p <- c ;; k" := (bind c (fun x => let 'p := x in k))
  (at level 61, p pattern, c at next level, right associativity) : raise_scope.
Local Open Scope raise_scope.

Fixpoint sequence {A : Type} (l : list (option A)) : option (list A) :=
  match l with
  | [] => Some []
  | c :: l' => a <- c ;; r <- sequence l' ;; Some (a :: r)
  end.

(** ** Comparisons of real numbers as booleans *)

Definition Rgeb (x y : R) : bool := if Rge_dec x y then true else false.
Definition Rgtb (x y : R) : bool := if Rgt_dec x y then true else false.
Definition Rltb (x y : R) : bool := if Rlt_dec x y then true else false.

(** [x.astype(np.int)]: the integer part of [x], toward zero. *)
Definition astype_int (x : R) : Z :=
  if Rle_dec 0 x then Int_part x else (- Int_part (- x))%Z.

(** ** Tensors *)

Module Tensor.

(** One row of a tensor of shape (n, 4). *)
Record row4 : Type := Row4 { c0 : R; c1 : R; c2 : R; c3 : R }.

Definition vec : Type := list R.
Definition mat4 : Type := list row4.

Definition zip_with {A B C : Type} (f : A -> B -> C)
    (a : list A) (b : list B) : list C :=
  map (fun p => f (fst p) (snd p)) (combine a b).

(** Elementwise application along the leading axis, with the
    broadcasting rule of NumPy and TensorFlow: equal sizes combine
    pointwise, a size of one is stretched, anything else raises. *)
Definition broadcast2 {A B C : Type} (f : A -> B -> C)
    (a : list A) (b : list B) : option (list C) :=
  if Nat.eqb (length a) (length b) then Some (zip_with f a b)
  else match a, b with
       | [x], _ => Some (map (f x) b)
       | _, [y] => Some (map (fun x => f x y) a)
       | _, _ => None
       end.

Definition ew2 {A B C : Type} (f : A -> B -> C)
    (a : option (list A)) (b : option (list B)) : option (list C) :=
  a' <- a ;; b' <- b ;; broadcast2 f a' b'.

Definition ew1 {A B : Type} (f : A -> B) (a : option (list A))
    : option (list B) :=
  a' <- a ;; Some (map f a').

(** A Python scalar used as an operand. *)
Definition sc {A : Type} (c : A) : option (list A) := Some [c].

(** [tf.split (t, 4, axis=1)] and [tf.unstack (t, axis=1)]. *)
Definition split4 (t : mat4)
    : option vec * option vec * option vec * option vec :=
  (Some (map c0 t), Some (map c1 t), Some (map c2 t), Some (map c3 t)).

(** [tf.concat ([a, b, c, d], axis=1)] of four columns, [tf.stack
    ([a, b, c, d], axis=1)] and [np.column_stack] of four vectors:
    the sizes must agree. *)
Definition concat4 (a b c d : option vec) : option mat4 :=
  a' <- a ;; b' <- b ;; c' <- c ;; d' <- d ;;
  if Nat.eqb (length a') (length b') && Nat.eqb (length a') (length c')
     && Nat.eqb (length a') (length d')
  then Some (map (fun p => Row4 (fst (fst (fst p))) (snd (fst (fst p)))
                                (snd (fst p)) (snd p))
                 (combine (combine (combine a' b') c') d'))
  else None.

(** [tf.boolean_mask (t, mask)]: the entries of [t] whose mask is true,
    in their order; the mask must have the size of [t]. *)
Fixpoint mask_select {A : Type} (t : list A) (m : list bool) : list A :=
  match t, m with
  | x :: t', b :: m' => if b then x :: mask_select t' m' else mask_select t' m'
  | _, _ => []
  end.

Definition boolean_mask {A : Type} (t : list A) (m : option (list bool))
    : option (list A) :=
  m' <- m ;;
  if Nat.eqb (length t) (length m') then Some (mask_select t m') else None.

(** [tf.gather (t, indices)]: an index out of range raises. *)
Definition gather {A : Type} (t : list A) (indices : list nat)
    : option (list A) :=
  sequence (map (fun i => nth_error t i) indices).

End Tensor.
Import Tensor.

Declare Scope tensor_scope.
Delimit Scope tensor_scope with tensor.
Notation "a [+] b" := (ew2 Rplus a b) (at level 50, left associativity) : tensor_scope.
Notation "a [-] b" := (ew2 Rminus a b) (at level 50, left associativity) : tensor_scope.
Notation "a [*] b" := (ew2 Rmult a b) (at level 40, left associativity) : tensor_scope.
Notation "a [/] b" := (ew2 Rdiv a b) (at level 40, left associativity) : tensor_scope.
Local Open Scope tensor_scope.

(** ** The box codec *)

Definition get_width_upright (bboxes : mat4)
    : option vec * option vec * option vec * option vec :=
  let '(x1, y1, x2, y2) := split4 bboxes in
  let width := x2 [-] x1 [+] sc 1 in
  let height := y2 [-] y1 [+] sc 1 in
  let urx := x1 [+] sc 0.5 [*] width in
  let ury := y1 [+] sc 0.5 [*] height in
  (width, height, urx, ury).

Definition change_order (bboxes : mat4) : mat4 :=
  let '(first_min, second_min, first_max, second_max) :=
    (map c0 bboxes, map c1 bboxes, map c2 bboxes, map c3 bboxes) in
  map (fun p => Row4 (fst (fst (fst p))) (snd (fst (fst p)))
                     (snd (fst p)) (snd p))
      (combine (combine (combine second_min first_min) second_max) first_max).

Definition default_variances (variances : option (R * R)) : R * R :=
  match variances with
  | None => (1, 1)
  | Some v => v
  end.

Definition encode (bboxes gt_boxes : mat4) (variances : option (R * R))
    : option mat4 :=
  let '(bboxes_width, bboxes_height, bboxes_urx, bboxes_ury) :=
    get_width_upright bboxes in
  let '(gt_boxes_width, gt_boxes_height, gt_boxes_urx, gt_boxes_ury) :=
    get_width_upright gt_boxes in
  let variances := default_variances variances in
  let targets_dx :=
    (gt_boxes_urx [-] bboxes_urx) [/] (bboxes_width [*] sc (fst variances)) in
  let targets_dy :=
    (gt_boxes_ury [-] bboxes_ury) [/] (bboxes_height [*] sc (fst variances)) in
  let targets_dw :=
    ew1 ln (gt_boxes_width [/] bboxes_width) [/] sc (snd variances) in
  let targets_dh :=
    ew1 ln (gt_boxes_height [/] bboxes_height) [/] sc (snd variances) in
  concat4 targets_dx targets_dy targets_dw targets_dh.

Definition decode (roi deltas : mat4) (variances : option (R * R))
    : option mat4 :=
  let '(roi_width, roi_height, roi_urx, roi_ury) := get_width_upright roi in
  let '(dx, dy, dw, dh) := split4 deltas in
  let variances := default_variances variances in
  let pred_ur_x := dx [*] roi_width [*] sc (fst variances) [+] roi_urx in
  let pred_ur_y := dy [*] roi_height [*] sc (fst variances) [+] roi_ury in
  let pred_w := ew1 exp (dw [*] sc (snd variances)) [*] roi_width in
  let pred_h := ew1 exp (dh [*] sc (snd variances)) [*] roi_height in
  let bbox_x1 := pred_ur_x [-] sc 0.5 [*] pred_w in
  let bbox_y1 := pred_ur_y [-] sc 0.5 [*] pred_h in
  let bbox_x2 := pred_ur_x [+] sc 0.5 [*] pred_w [-] sc 1 in
  let bbox_y2 := pred_ur_y [+] sc 0.5 [*] pred_h [-] sc 1 in
  concat4 bbox_x1 bbox_y1 bbox_x2 bbox_y2.

(** ** Reference anchors *)

(** [np.meshgrid (x, y)] with the default indexing: both grids have one
    row per element of [y] and one column per element of [x]. *)
Definition meshgrid {A B : Type} (x : list A) (y : list B)
    : list (list A) * list (list B) :=
  (map (fun _ => x) y, map (fun yi => map (fun _ => yi) x) y).

(** [g.reshape (-1)]: the rows of [g] one after the other. *)
Definition reshape_flat {A : Type} (g : list (list A)) : list A := concat g.

Definition generate_anchors_reference (base_size : Z)
    (aspect_ratios scales : list R) : option mat4 :=
  let '(scales_grid, aspect_ratios_grid) := meshgrid scales aspect_ratios in
  let base_scales := Some (reshape_flat scales_grid) in
  let base_aspect_ratios := Some (reshape_flat aspect_ratios_grid) in
  let aspect_ratio_sqrts := ew1 sqrt base_aspect_ratios in
  let heights := base_scales [*] aspect_ratio_sqrts [*] sc (IZR base_size) in
  let widths := base_scales [/] aspect_ratio_sqrts [*] sc (IZR base_size) in
  let center_xy := sc 0 in
  anchors <- concat4 (center_xy [-] (widths [-] sc 1) [/] sc 2)
                     (center_xy [-] (heights [-] sc 1) [/] sc 2)
                     (center_xy [+] (widths [-] sc 1) [/] sc 2)
                     (center_xy [+] (heights [-] sc 1) [/] sc 2) ;;
  real_heights <-
    ew1 astype_int (Some (map c3 anchors) [-] Some (map c1 anchors)) ;;
  real_widths <-
    ew1 astype_int (Some (map c2 anchors) [-] Some (map c0 anchors)) ;;
  if existsb (Z.eqb 0) real_widths || existsb (Z.eqb 0) real_heights
  then None
  else Some anchors.

(** ** Tensors of 32-bit integers *)

(** The representative of an integer in the range of int32: sums and
    products of int32 tensors wrap around. *)
Definition wrap32 (z : Z) : Z :=
  ((z + 2147483648) mod 4294967296 - 2147483648)%Z.

Definition in_int32 (z : Z) : bool :=
  (-2147483648 <=? z)%Z && (z <=? 2147483647)%Z.

(** [x.astype(np.int32)]: truncation toward zero. Outside the range of
    int32 NumPy leaves the cast to the machine; the least int32, the
    result of the conversion instruction of x86, is taken there. *)
Definition astype_int32 (x : R) : Z :=
  if in_int32 (astype_int x) then astype_int x else (-2147483648)%Z.

(** One row of an int32 tensor of shape (n, 4). *)
Record irow4 : Type := IRow4 { i0 : Z; i1 : Z; i2 : Z; i3 : Z }.

Definition imat4 : Type := list irow4.

Definition row_to_int32 (r : row4) : irow4 :=
  IRow4 (astype_int32 (c0 r)) (astype_int32 (c1 r))
        (astype_int32 (c2 r)) (astype_int32 (c3 r)).

(** [tf.cast (t, tf.float32)] on one row of integers. *)
Definition row_of_int (r : irow4) : row4 :=
  Row4 (IZR (i0 r)) (IZR (i1 r)) (IZR (i2 r)) (IZR (i3 r)).

Definition irow4_add (a b : irow4) : irow4 :=
  IRow4 (wrap32 (i0 a + i0 b)) (wrap32 (i1 a + i1 b))
        (wrap32 (i2 a + i2 b)) (wrap32 (i3 a + i3 b)).

(** ** Tiling the reference anchors over the feature map *)

(** [tf.range (n) * stride], a tensor of int32. *)
Definition range_times (n : nat) (stride : Z) : list Z :=
  map (fun i => wrap32 (Z.of_nat i * stride)) (seq 0 n).

(** [tf.transpose (tf.stack ([a, b, c, d], axis=0))] of four vectors of
    integers: one row per index; the sizes must agree. *)
Definition stack4 (a b c d : list Z) : option imat4 :=
  if Nat.eqb (length a) (length b) && Nat.eqb (length a) (length c)
     && Nat.eqb (length a) (length d)
  then Some (map (fun p => IRow4 (fst (fst (fst p))) (snd (fst (fst p)))
                                 (snd (fst p)) (snd p))
                 (combine (combine (combine a b) c) d))
  else None.

(** The sum of two int32 tensors of rank three whose rows have four
    entries, broadcasting over the two leading axes. *)
Definition add3 (a b : list imat4) : option (list imat4) :=
  l <- broadcast2 (broadcast2 irow4_add) a b ;; sequence l.

(** The body of [generate_anchors] below its constants. The shifts are
    int32, and in the sum of the NumPy array [anchor_reference] and the
    tensor of the shifts the array is converted to the type of the
    tensor: the reference anchors are truncated to int32 before they are
    added. *)
Definition generate_anchors_scope (anchor_reference : mat4)
    (anchor_stride : Z) (feature_map_shape : nat * nat * nat * nat)
    : option imat4 :=
  let '(_, height, width, _) := feature_map_shape in
  let grid_width := width in
  let grid_height := height in
  let shift_x := range_times grid_width anchor_stride in
  let shift_y := range_times grid_height anchor_stride in
  let '(shift_x, shift_y) := meshgrid shift_x shift_y in
  let shift_x := reshape_flat shift_x in
  let shift_y := reshape_flat shift_y in
  shifts <- stack4 shift_x shift_y shift_x shift_y ;;
  let anchor_reference := map row_to_int32 anchor_reference in
  all_anchors <- add3 [anchor_reference] (map (fun s => [s]) shifts) ;;
  Some (reshape_flat all_anchors).

Definition anchor_base_size : Z := 256.
Definition anchor_ratios : list R := [0.5; 1; 2].
Definition anchor_scales : list R := [0.125; 0.25; 0.5; 1; 2].
Definition anchor_stride : Z := 16.

Definition generate_anchors (feature_map_shape : nat * nat * nat * nat)
    : option imat4 :=
  anchor_reference <-
    generate_anchors_reference anchor_base_size anchor_ratios anchor_scales ;;
  generate_anchors_scope anchor_reference anchor_stride feature_map_shape.

(** ** TensorFlow's ranking and suppression operations

    [tf.nn.top_k] and [tf.image.non_max_suppression] are operations of
    the library; they are written here after their documentation and
    the kernel of the suppression. *)

Module TF.

(** Indices of [v] by decreasing value; among equal values the lower
    index comes first. *)
Fixpoint insert_desc (v : vec) (i : nat) (sorted : list nat) : list nat :=
  match sorted with
  | [] => [i]
  | j :: rest =>
      if Rltb (nth i v 0) (nth j v 0) then j :: insert_desc v i rest
      else i :: sorted
  end.

Definition argsort_desc (v : vec) : list nat :=
  fold_right (insert_desc v) [] (seq 0 (length v)).

(** [tf.nn.top_k (values, k)]: the [k] largest entries, largest first,
    and their indices; it raises when [values] has fewer than [k]
    entries. *)
Definition top_k (values : vec) (k : nat) : option (vec * list nat) :=
  if Nat.leb k (length values)
  then let indices := firstn k (argsort_desc values) in
       Some (map (fun i => nth i values 0) indices, indices)
  else None.

(** The overlap measure of [tf.image.non_max_suppression], on boxes
    given by two opposite corners [(y1, x1, y2, x2)]: areas are plain
    coordinate differences. *)
Definition iou (bi bj : row4) : R :=
  let ymin_i := Rmin (c0 bi) (c2 bi) in
  let xmin_i := Rmin (c1 bi) (c3 bi) in
  let ymax_i := Rmax (c0 bi) (c2 bi) in
  let xmax_i := Rmax (c1 bi) (c3 bi) in
  let ymin_j := Rmin (c0 bj) (c2 bj) in
  let xmin_j := Rmin (c1 bj) (c3 bj) in
  let ymax_j := Rmax (c0 bj) (c2 bj) in
  let xmax_j := Rmax (c1 bj) (c3 bj) in
  let area_i := (ymax_i - ymin_i) * (xmax_i - xmin_i) in
  let area_j := (ymax_j - ymin_j) * (xmax_j - xmin_j) in
  if Rle_dec area_i 0 then 0
  else if Rle_dec area_j 0 then 0
  else
    let intersection_ymin := Rmax ymin_i ymin_j in
    let intersection_xmin := Rmax xmin_i xmin_j in
    let intersection_ymax := Rmin ymax_i ymax_j in
    let intersection_xmax := Rmin xmax_i xmax_j in
    let intersection_area :=
      Rmax (intersection_ymax - intersection_ymin) 0
      * Rmax (intersection_xmax - intersection_xmin) 0 in
    intersection_area / (area_i + area_j - intersection_area).

(** The greedy sweep: candidates in decreasing score; a candidate is
    dropped when its overlap with a box already selected exceeds the
    threshold; the sweep stops at [max_output_size] selections. *)
Fixpoint nms_sweep (boxes : mat4) (max_output_size : nat)
    (iou_threshold : R) (candidates selected : list nat) : list nat :=
  match candidates with
  | [] => selected
  | i :: rest =>
      if Nat.leb max_output_size (length selected) then selected
      else if existsb
                (fun j => Rgtb (iou (nth i boxes (Row4 0 0 0 0))
                                    (nth j boxes (Row4 0 0 0 0)))
                               iou_threshold)
                selected
      then nms_sweep boxes max_output_size iou_threshold rest selected
      else nms_sweep boxes max_output_size iou_threshold rest
             (selected ++ [i])
  end.

(** [tf.image.non_max_suppression (boxes, scores, max_output_size,
    iou_threshold)]: the indices selected, in the order of selection. The
    operation raises when there is not one score per box, and when the
    threshold lies outside [0, 1]. *)
Definition non_max_suppression (boxes : mat4) (scores : vec)
    (max_output_size : nat) (iou_threshold : R) : option (list nat) :=
  if Nat.eqb (length boxes) (length scores)
  then if Rgeb iou_threshold 0 && Rgeb 1 iou_threshold
       then Some (nms_sweep boxes max_output_size iou_threshold
                    (argsort_desc scores) [])
       else None
  else None.

End TF.

(** ** Proposal selection *)

Definition filter_outside_anchors (im_shape : Z * Z) (all_anchors : mat4)
    (rpn_bbox_pred : mat4) (all_scores : vec) : option (mat4 * mat4 * vec) :=
  let '(x_min_anchor, y_min_anchor, x_max_anchor, y_max_anchor) :=
    split4 all_anchors in
  let anchor_filter :=
    ew2 andb
      (ew2 andb (ew2 Rgeb x_min_anchor (sc 0)) (ew2 Rgeb y_min_anchor (sc 0)))
      (ew2 andb (ew2 Rltb x_max_anchor (sc (IZR (snd im_shape))))
                (ew2 Rltb y_max_anchor (sc (IZR (fst im_shape))))) in
  all_anchors <- boolean_mask all_anchors anchor_filter ;;
  rpn_bbox_pred <- boolean_mask rpn_bbox_pred anchor_filter ;;
  all_scores <- boolean_mask all_scores anchor_filter ;;
  Some (all_anchors, rpn_bbox_pred, all_scores).

Definition filter_proposals (all_proposals : mat4) (all_scores : vec)
    : option (vec * mat4) :=
  let '(x_min, y_min, x_max, y_max) := split4 all_proposals in
  let zero_area_filter :=
    ew2 Rgtb (ew2 Rmax (x_max [-] x_min) (sc 0)
              [*] ew2 Rmax (y_max [-] y_min) (sc 0))
             (sc 0) in
  let proposal_filter := zero_area_filter in
  unsorted_scores <- boolean_mask all_scores proposal_filter ;;
  unsorted_proposals <- boolean_mask all_proposals proposal_filter ;;
  Some (unsorted_scores, unsorted_proposals).

(** The candidates in front of the ranking: the anchors inside the image,
    decoded, without the boxes of no area. *)
Definition candidate_proposals (im_shape : Z * Z)
    (all_anchors rpn_bbox_pred : mat4) (all_scores : vec)
    : option (vec * mat4) :=
  '(all_anchors, rpn_bbox_pred, all_scores) <-
    filter_outside_anchors im_shape all_anchors rpn_bbox_pred all_scores ;;
  all_proposals <- decode all_anchors rpn_bbox_pred None ;;
  filter_proposals all_proposals all_scores.

(** The ranking by score in front of the suppression. *)
Definition top_proposals (pre_nms_top_n : nat) (unsorted_scores : vec)
    (unsorted_proposals : mat4) : option (mat4 * vec) :=
  let k := Nat.min pre_nms_top_n (length unsorted_scores) in
  '(values, indices) <- TF.top_k unsorted_scores k ;;
  sorted_top_proposals <- gather unsorted_proposals indices ;;
  let sorted_top_scores := values in
  Some (sorted_top_proposals, sorted_top_scores).

(** The block under [tf.name_scope ('nms')]. *)
Definition nms_scope (post_nms_top_n : nat) (nms_threshold : R)
    (sorted_top_proposals : mat4) (sorted_top_scores : vec)
    : option (mat4 * vec) :=
  let proposals_tf_order := change_order sorted_top_proposals in
  selected_indices <-
    TF.non_max_suppression proposals_tf_order sorted_top_scores
      post_nms_top_n nms_threshold ;;
  nms_proposals_tf_order <- gather proposals_tf_order selected_indices ;;
  let proposals := change_order nms_proposals_tf_order in
  scores <- gather sorted_top_scores selected_indices ;;
  Some (proposals, scores).

(** The part of [build_rpn] from the scores, offsets and anchors to the
    proposals, with its three constants as arguments. *)
Definition generate_proposals (pre_nms_top_n post_nms_top_n : nat)
    (nms_threshold : R) (im_shape : Z * Z) (all_anchors rpn_bbox_pred : mat4)
    (all_scores : vec) : option (mat4 * vec) :=
  '(unsorted_scores, unsorted_proposals) <-
    candidate_proposals im_shape all_anchors rpn_bbox_pred all_scores ;;
  '(sorted_top_proposals, sorted_top_scores) <-
    top_proposals pre_nms_top_n unsorted_scores unsorted_proposals ;;
  nms_scope post_nms_top_n nms_threshold sorted_top_proposals
    sorted_top_scores.

(** [build_rpn] after the network: the shape of the feature map, the
    class probabilities and the box offsets are what the convolutional
    layers deliver. The anchors are int32: the filter compares them as
    integers with zero and with the sides of the image, and
    [get_width_upright] casts them to float32 for the decoding; both
    read an integer as the number it is. *)
Definition build_rpn (im_shape : Z * Z)
    (feature_map_shape : nat * nat * nat * nat)
    (rpn_cls_prob : list (R * R)) (rpn_bbox_pred : mat4)
    : option (mat4 * vec) :=
  all_anchors <- generate_anchors feature_map_shape ;;
  let all_anchors := map row_of_int all_anchors in
  let all_scores := map snd rpn_cls_prob in
  let pre_nms_top_n := 12000%nat in
  let post_nms_top_n := 2000%nat in
  let nms_threshold := 0.7 in
  generate_proposals pre_nms_top_n post_nms_top_n nms_threshold im_shape
    all_anchors rpn_bbox_pred all_scores.

(** ** Notions used in the statements *)

Definition width_of (b : row4) : R := c2 b - c0 b + 1.
Definition height_of (b : row4) : R := c3 b - c1 b + 1.

Definition positive_size (b : row4) : Prop :=
  0 < width_of b /\ 0 < height_of b.

(** The codec on one anchor and one box. *)
Definition encode_row (v : R * R) (a g : row4) : row4 :=
  Row4 ((c0 g + 0.5 * width_of g - (c0 a + 0.5 * width_of a))
        / (width_of a * fst v))
       ((c1 g + 0.5 * height_of g - (c1 a + 0.5 * height_of a))
        / (height_of a * fst v))
       (ln (width_of g / width_of a) / snd v)
       (ln (height_of g / height_of a) / snd v).

Definition decode_row (v : R * R) (a d : row4) : row4 :=
  Row4 (c0 d * width_of a * fst v + (c0 a + 0.5 * width_of a)
        - 0.5 * (exp (c2 d * snd v) * width_of a))
       (c1 d * height_of a * fst v + (c1 a + 0.5 * height_of a)
        - 0.5 * (exp (c3 d * snd v) * height_of a))
       (c0 d * width_of a * fst v + (c0 a + 0.5 * width_of a)
        + 0.5 * (exp (c2 d * snd v) * width_of a) - 1)
       (c1 d * height_of a * fst v + (c1 a + 0.5 * height_of a)
        + 0.5 * (exp (c3 d * snd v) * height_of a) - 1).

(** The permutation of coordinates of [change_order], on one row. *)
Definition swap_xy (r : row4) : row4 := Row4 (c1 r) (c0 r) (c3 r) (c2 r).

(** An anchor inside the image of shape [(height, width)]. *)
Definition inside (im_shape : Z * Z) (a : row4) : bool :=
  (Rgeb (c0 a) 0 && Rgeb (c1 a) 0)
  && (Rltb (c2 a) (IZR (snd im_shape)) && Rltb (c3 a) (IZR (fst im_shape))).

(** A box whose clipped extents have a positive product. *)
Definition positive_area (p : row4) : bool :=
  Rgtb (Rmax (c2 p - c0 p) 0 * Rmax (c3 p - c1 p) 0) 0.

(** In the array [boxes], the box at index [i] overlaps the box at index
    [j] by no more than the threshold. *)
Definition separated (boxes : mat4) (iou_threshold : R) (j i : nat) : Prop :=
  TF.iou (nth i boxes (Row4 0 0 0 0)) (nth j boxes (Row4 0 0 0 0))
  <= iou_threshold.

(** The overlap of two boxes [(x_min, y_min, x_max, y_max)] as the
    suppression measures it. *)
Definition overlap (p q : row4) : R := TF.iou (swap_xy p) (swap_xy q).

(** The overlap of two boxes under the inclusive convention, in which a
    box from [x_min] to [x_max] is [x_max - x_min + 1] wide. *)
Definition intersection_inclusive (p q : row4) : R :=
  Rmax (Rmin (c2 p) (c2 q) - Rmax (c0 p) (c0 q) + 1) 0
  * Rmax (Rmin (c3 p) (c3 q) - Rmax (c1 p) (c1 q) + 1) 0.

Definition iou_inclusive (p q : row4) : R :=
  intersection_inclusive p q
  / (width_of p * height_of p + width_of q * height_of q
     - intersection_inclusive p q).

(** The reference anchor of one aspect ratio and one scale: its height
    is [scale * sqrt ratio * base_size], its width
    [scale / sqrt ratio * base_size], and it is centred at the origin. *)
Definition reference_height (base_size : Z) (ratio scale : R) : R :=
  scale * sqrt ratio * IZR base_size.

Definition reference_width (base_size : Z) (ratio scale : R) : R :=
  scale / sqrt ratio * IZR base_size.

Definition reference_anchor (base_size : Z) (ratio scale : R) : row4 :=
  let width := reference_width base_size ratio scale in
  let height := reference_height base_size ratio scale in
  Row4 (- (width - 1) / 2) (- (height - 1) / 2)
       ((width - 1) / 2) ((height - 1) / 2).

(** The two orders in which the reference anchors of a list of ratios and
    a list of scales can be enumerated: the ratio advancing with every
    row and the scale once per round of ratios, or the scale advancing
    with every row and the ratio once per round of scales. *)
Definition scale_outer_order (base_size : Z) (aspect_ratios scales : list R)
    (anchors : mat4) : Prop :=
  forall k, (k < length aspect_ratios * length scales)%nat ->
    nth k anchors (Row4 0 0 0 0)
    = reference_anchor base_size
        (nth (k mod length aspect_ratios) aspect_ratios 0)
        (nth (k / length aspect_ratios) scales 0).

Definition ratio_outer_order (base_size : Z) (aspect_ratios scales : list R)
    (anchors : mat4) : Prop :=
  forall k, (k < length aspect_ratios * length scales)%nat ->
    nth k anchors (Row4 0 0 0 0)
    = reference_anchor base_size
        (nth (k / length scales) aspect_ratios 0)
        (nth (k mod length scales) scales 0).

(** The shift of the cell in row [y] and column [x] of the grid. *)
Definition shift_of (stride : Z) (y x : nat) : irow4 :=
  IRow4 (wrap32 (Z.of_nat x * stride)) (wrap32 (Z.of_nat y * stride))
        (wrap32 (Z.of_nat x * stride)) (wrap32 (Z.of_nat y * stride)).

(** The reference anchors of all pairs, one round of scales per ratio. *)
Definition reference_rows (base_size : Z) (aspect_ratios scales : list R)
    : mat4 :=
  map (fun p => reference_anchor base_size (fst p) (snd p))
      (list_prod aspect_ratios scales).

(** The test of [generate_anchors_reference] on one pair: a difference of
    opposite corners, which is the width or the height less one, has the
    integer part zero. *)
Definition too_small (base_size : Z) (ratio scale : R) : Prop :=
  astype_int (reference_width base_size ratio scale - 1) = 0%Z
  \/ astype_int (reference_height base_size ratio scale - 1) = 0%Z.

(** The width or the height itself has the integer part zero. *)
Definition casts_to_zero (base_size : Z) (ratio scale : R) : Prop :=
  astype_int (reference_width base_size ratio scale) = 0%Z
  \/ astype_int (reference_height base_size ratio scale) = 0%Z.

(** The shifts of a grid, row after row, and the reference anchors
    translated by each of them in turn. *)
Definition grid_shifts (stride : Z) (height width : nat) : imat4 :=
  map (fun p => IRow4 (snd p) (fst p) (snd p) (fst p))
      (list_prod (range_times height stride) (range_times width stride)).

Definition tiled (anchor_reference : imat4) (shifts : imat4) : imat4 :=
  flat_map (fun s => map (fun a => irow4_add a s) anchor_reference) shifts.

(** The reference anchors of [generate_anchors] as integers: five scales
    for each of the ratios 0.5, 1 and 2. *)
Definition default_reference_int : imat4 :=
  [IRow4 (-22) (-10) 22 10; IRow4 (-44) (-22) 44 22;
   IRow4 (-90) (-44) 90 44; IRow4 (-180) (-90) 180 90;
   IRow4 (-361) (-180) 361 180;
   IRow4 (-15) (-15) 15 15; IRow4 (-31) (-31) 31 31;
   IRow4 (-63) (-63) 63 63; IRow4 (-127) (-127) 127 127;
   IRow4 (-255) (-255) 255 255;
   IRow4 (-10) (-22) 10 22; IRow4 (-22) (-44) 22 44;
   IRow4 (-44) (-90) 44 90; IRow4 (-90) (-180) 90 180;
   IRow4 (-180) (-361) 180 361]%Z.

(** An anchor of integers inside the image of shape [(height, width)]. *)
Definition inside_int (im_shape : Z * Z) (a : irow4) : bool :=
  ((0 <=? i0 a)%Z && (0 <=? i1 a)%Z)
  && ((i2 a <? snd im_shape)%Z && (i3 a <? fst im_shape)%Z).

(** ** An image of 32 by 48 pixels

    Its feature map has two rows and three columns, hence 90 anchors; the
    anchors 65 and 80, the squares from -15 to 15 at the shifts (16, 16)
    and (32, 16), are the two inside the image. *)

Definition small_im_shape : Z * Z := (32%Z, 48%Z).

Definition small_feature_map_shape : nat * nat * nat * nat :=
  (1, 2, 3, 1024)%nat.

Definition small_cls_prob : list (R * R) :=
  repeat (0.5, 0.5) 65 ++ [(0.1, 0.9)] ++ repeat (0.5, 0.5) 14
  ++ [(0.2, 0.8)] ++ repeat (0.5, 0.5) 9.

Definition small_bbox_pred : mat4 :=
  repeat (Row4 0 0 0 0) 80 ++ [Row4 (-0.34375) 0 0 0]
  ++ repeat (Row4 0 0 0 0) 9.

Definition small_mask : list bool :=
  repeat false 65 ++ [true] ++ repeat false 14 ++ [true] ++ repeat false 9.

(** The anchors of the image, as the selection reads them. *)
Definition small_all_anchors : mat4 :=
  map row_of_int
    (tiled default_reference_int (grid_shifts anchor_stride 2 3)).

Definition small_first : row4 := Row4 1 1 31 31.
Definition small_second_anchor : row4 := Row4 17 1 47 31.
Definition small_second : row4 := Row4 6.34375 1 36.34375 31.

(** ** Notions used in the further properties *)

(** The area of a box given by two opposite corners, as the suppression
    computes it. *)
Definition corner_area (b : row4) : R :=
  (Rmax (c0 b) (c2 b) - Rmin (c0 b) (c2 b))
  * (Rmax (c1 b) (c3 b) - Rmin (c1 b) (c3 b)).

(** The entry of index [i] of [v] is at least the entry of index [j]. *)
Definition by_score (v : vec) (i j : nat) : Prop := nth i v 0 >= nth j v 0.

(** ** The names under which [main] restores the variables

    A name is a list of characters, a variable is known by the name of
    its operation, and the dictionary [to_restore] lists its keys in the
    order in which they were first set. *)

Definition str : Type := list ascii.

Definition lit (s : string) : str := list_ascii_of_string s.
Arguments lit s%_string.

Fixpoint str_eqb (a b : str) : bool :=
  match a, b with
  | [], [] => true
  | x :: a', y :: b' => Ascii.eqb x y && str_eqb a' b'
  | _, _ => false
  end.

(** [name.rsplit('/', 1)] unpacked into two names: what stands in front
    of the last ['/'] and what stands behind it. A name without ['/']
    splits into one part only, and the unpacking raises. *)
Fixpoint rsplit_slash (s : str) : option (str * str) :=
  match s with
  | [] => None
  | c :: s' =>
      match rsplit_slash s' with
      | Some (a, b) => Some (c :: a, b)
      | None => if Ascii.eqb c "/"%char then Some ([], s') else None
      end
  end.

Definition dict : Type := list (str * str).

(** [d[k] = v]. *)
Definition dict_set (k v : str) (d : dict) : dict :=
  if existsb (fun e => str_eqb (fst e) k) d
  then map (fun e => if str_eqb (fst e) k then (k, v) else e) d
  else d ++ [(k, v)].

Definition restore_pretrained (to_restore : dict)
    (pretrained_vars : list str) : dict :=
  fold_left
    (fun d name => dict_set (lit "truncated_base_network/" ++ name) name d)
    pretrained_vars to_restore.

Definition restore_rpn_var (to_restore : dict) (name : str) : option dict :=
  '(var_name, weight_name) <- rsplit_slash name ;;
  if str_eqb weight_name (lit "bias")
  then Some (dict_set (lit "fasterrcnn/" ++ var_name ++ lit "/b") name
               to_restore)
  else if str_eqb weight_name (lit "kernel")
  then Some (dict_set (lit "fasterrcnn/" ++ var_name ++ lit "/w") name
               to_restore)
  else Some to_restore.

Fixpoint restore_rpn (to_restore : dict) (rpn_vars : list str)
    : option dict :=
  match rpn_vars with
  | [] => Some to_restore
  | name :: rest =>
      d <- restore_rpn_var to_restore name ;; restore_rpn d rest
  end.

(** The dictionary [to_restore] of [main], from the names of the
    variables of the two collections. *)
Definition restore_mapping (pretrained_vars rpn_vars : list str)
    : option dict :=
  restore_rpn (restore_pretrained [] pretrained_vars) rpn_vars.

(** The entry of one variable of the scope [rpn]: a bias and a kernel
    have one, no other variable has. *)
Definition rpn_entry (name : str) : list (str * str) :=
  match rsplit_slash name with
  | Some (var_name, weight_name) =>
      if str_eqb weight_name (lit "bias")
      then [(lit "fasterrcnn/" ++ var_name ++ lit "/b", name)]
      else if str_eqb weight_name (lit "kernel")
      then [(lit "fasterrcnn/" ++ var_name ++ lit "/w", name)]
      else []
  | None => []
  end.

(** * Properties *)

(** ** Elementwise operations on columns read off one list *)

Section Columns.

Context {I A B C : Type}.
Variable f : A -> B -> C.

Lemma zip_with_map (g : I -> A) (h : I -> B) (L : list I) :
  zip_with f (map g L) (map h L) = map (fun p => f (g p) (h p)) L.
Proof.
  unfold zip_with. induction L as [|p L IH]; simpl; [reflexivity|].
  now rewrite IH.
Qed.

Lemma zip_with_length (a : list A) (b : list B) :
  length a = length b -> length (zip_with f a b) = length a.
Proof.
  intros E. unfold zip_with. rewrite length_map, length_combine. lia.
Qed.

Lemma broadcast2_same_length (a : list A) (b : list B) :
  length a = length b -> broadcast2 f a b = Some (zip_with f a b).
Proof.
  intros E. unfold broadcast2. now rewrite E, Nat.eqb_refl.
Qed.

Lemma ew2_map_map (g : I -> A) (h : I -> B) (L : list I) :
  ew2 f (Some (map g L)) (Some (map h L))
  = Some (map (fun p => f (g p) (h p)) L).
Proof.
  unfold ew2; simpl. rewrite broadcast2_same_length.
  - now rewrite zip_with_map.
  - now rewrite !length_map.
Qed.

Lemma ew2_map_sc (g : I -> A) (c : B) (L : list I) :
  ew2 f (Some (map g L)) (sc c) = Some (map (fun p => f (g p) c) L).
Proof.
  unfold ew2, sc, broadcast2; simpl.
  destruct L as [|p [|q L]]; simpl; try reflexivity.
  now rewrite map_map.
Qed.

Lemma ew2_sc_map (c : A) (h : I -> B) (L : list I) :
  ew2 f (sc c) (Some (map h L)) = Some (map (fun p => f c (h p)) L).
Proof.
  unfold ew2, sc, broadcast2; simpl.
  destruct L as [|p [|q L]]; simpl; try reflexivity.
  now rewrite map_map.
Qed.

End Columns.

Lemma ew1_map {I A B : Type} (f : A -> B) (g : I -> A) (L : list I) :
  ew1 f (Some (map g L)) = Some (map (fun p => f (g p)) L).
Proof. unfold ew1; simpl. now rewrite map_map. Qed.

Lemma concat4_map {I : Type} (a b c d : I -> R) (L : list I) :
  concat4 (Some (map a L)) (Some (map b L)) (Some (map c L)) (Some (map d L))
  = Some (map (fun p => Row4 (a p) (b p) (c p) (d p)) L).
Proof.
  unfold concat4; simpl. rewrite !length_map, Nat.eqb_refl; simpl.
  f_equal. induction L as [|p L IH]; simpl; [reflexivity|].
  now rewrite IH.
Qed.

Lemma map_on_fst {A B C : Type} (f : A -> C) (a : list A) (b : list B) :
  length a = length b -> map f a = map (fun p => f (fst p)) (combine a b).
Proof.
  revert b; induction a as [|x a IH]; intros [|y b] E; simpl in *;
    try discriminate; [reflexivity|].
  f_equal. apply IH. lia.
Qed.

Lemma map_on_snd {A B C : Type} (f : B -> C) (a : list A) (b : list B) :
  length a = length b -> map f b = map (fun p => f (snd p)) (combine a b).
Proof.
  revert b; induction a as [|x a IH]; intros [|y b] E; simpl in *;
    try discriminate; [reflexivity|].
  f_equal. apply IH. lia.
Qed.

Ltac columns :=
  repeat first
    [ rewrite ew2_map_map | rewrite ew2_map_sc | rewrite ew2_sc_map
    | rewrite ew1_map | rewrite concat4_map ].

(** ** The codec, row by row *)

Lemma encode_rows (bboxes gt_boxes : mat4) (variances : option (R * R)) :
  length bboxes = length gt_boxes ->
  encode bboxes gt_boxes variances
  = Some (zip_with (encode_row (default_variances variances))
            bboxes gt_boxes).
Proof.
  intros E. unfold encode, get_width_upright, split4, zip_with.
  rewrite (map_on_fst c0 bboxes gt_boxes E), (map_on_fst c1 bboxes gt_boxes E),
    (map_on_fst c2 bboxes gt_boxes E), (map_on_fst c3 bboxes gt_boxes E),
    (map_on_snd c0 bboxes gt_boxes E), (map_on_snd c1 bboxes gt_boxes E),
    (map_on_snd c2 bboxes gt_boxes E), (map_on_snd c3 bboxes gt_boxes E).
  cbv zeta. columns. reflexivity.
Qed.

Lemma decode_rows (roi deltas : mat4) (variances : option (R * R)) :
  length roi = length deltas ->
  decode roi deltas variances
  = Some (zip_with (decode_row (default_variances variances)) roi deltas).
Proof.
  intros E. unfold decode, get_width_upright, split4, zip_with.
  rewrite (map_on_fst c0 roi deltas E), (map_on_fst c1 roi deltas E),
    (map_on_fst c2 roi deltas E), (map_on_fst c3 roi deltas E),
    (map_on_snd c0 roi deltas E), (map_on_snd c1 roi deltas E),
    (map_on_snd c2 roi deltas E), (map_on_snd c3 roi deltas E).
  cbv zeta. columns. reflexivity.
Qed.

Lemma decode_row_zero (a : row4) :
  decode_row (1, 1) a (Row4 0 0 0 0) = a.
Proof.
  destruct a as [x1 y1 x2 y2]. unfold decode_row, width_of, height_of; simpl.
  rewrite !Rmult_0_l, exp_0. f_equal; lra.
Qed.

Lemma decode_encode_row (v0 v1 : R) (a g : row4) :
  positive_size a -> positive_size g -> v0 <> 0 -> v1 <> 0 ->
  decode_row (v0, v1) a (encode_row (v0, v1) a g) = g.
Proof.
  intros [Hw Hh] [Gw Gh] V0 V1.
  destruct a as [x1 y1 x2 y2], g as [u1 w1 u2 w2].
  unfold decode_row, encode_row, width_of, height_of in *; simpl in *.
  set (aw := x2 - x1 + 1) in *. set (ah := y2 - y1 + 1) in *.
  set (gw := u2 - u1 + 1) in *. set (gh := w2 - w1 + 1) in *.
  assert (Ew : exp (ln (gw / aw) / v1 * v1) * aw = gw).
  { replace (ln (gw / aw) / v1 * v1) with (ln (gw / aw)) by (field; lra).
    rewrite exp_ln by (apply Rdiv_lt_0_compat; lra). field; lra. }
  assert (Eh : exp (ln (gh / ah) / v1 * v1) * ah = gh).
  { replace (ln (gh / ah) / v1 * v1) with (ln (gh / ah)) by (field; lra).
    rewrite exp_ln by (apply Rdiv_lt_0_compat; lra). field; lra. }
  rewrite Ew, Eh.
  assert (Ex : (u1 + 0.5 * gw - (x1 + 0.5 * aw)) / (aw * v0) * aw * v0
               = u1 + 0.5 * gw - (x1 + 0.5 * aw)) by (field; lra).
  assert (Ey : (w1 + 0.5 * gh - (y1 + 0.5 * ah)) / (ah * v0) * ah * v0
               = w1 + 0.5 * gh - (y1 + 0.5 * ah)) by (field; lra).
  rewrite Ex, Ey. subst aw ah gw gh. f_equal; lra.
Qed.

Lemma zip_with_ext_in {A B C : Type} (f g : A -> B -> C)
    (a : list A) (b : list B) :
  (forall x y, In (x, y) (combine a b) -> f x y = g x y) ->
  zip_with f a b = zip_with g a b.
Proof.
  intros H. unfold zip_with. apply map_ext_in. intros [x y] I. now apply H.
Qed.

Lemma zip_with_snd {A B : Type} (a : list A) (b : list B) :
  length a = length b -> zip_with (fun _ y => y) a b = b.
Proof.
  intros E. unfold zip_with. symmetry.
  rewrite <- (map_id b) at 1. exact (map_on_snd (fun y => y) a b E).
Qed.

Lemma zip_with_zip_with_left {A B C : Type} (f : A -> B -> C)
    (g : A -> C -> B) (a : list A) (b : list B) :
  zip_with g a (zip_with f a b) = zip_with (fun x y => g x (f x y)) a b.
Proof.
  unfold zip_with. revert b; induction a as [|x a IH]; intros [|y b]; simpl;
    try reflexivity.
  now rewrite IH.
Qed.

(** ** The permutation of coordinates *)

Lemma change_order_map (b : mat4) : change_order b = map swap_xy b.
Proof.
  unfold change_order. induction b as [|r b IH]; simpl; [reflexivity|].
  now rewrite IH.
Qed.

Lemma swap_xy_involutive (r : row4) : swap_xy (swap_xy r) = r.
Proof. now destruct r. Qed.

Lemma change_order_length (b : mat4) : length (change_order b) = length b.
Proof. now rewrite change_order_map, length_map. Qed.

Lemma sequence_map_Some {A B : Type} (f : A -> B) (l : list (option A)) :
  sequence (map (option_map f) l) = option_map (map f) (sequence l).
Proof.
  induction l as [|[a|] l IH]; simpl; try reflexivity.
  rewrite IH. now destruct (sequence l).
Qed.

Lemma gather_map {A B : Type} (f : A -> B) (t : list A) (idx : list nat) :
  gather (map f t) idx = option_map (map f) (gather t idx).
Proof.
  unfold gather. rewrite <- sequence_map_Some, map_map. f_equal.
  apply map_ext. intros i. now rewrite nth_error_map.
Qed.

Lemma sequence_Some_In {A : Type} (l : list (option A)) (r : list A) :
  sequence l = Some r -> forall x, In x r -> In (Some x) l.
Proof.
  revert r; induction l as [|[a|] l IH]; simpl; intros r E x I.
  - injection E as <-. destruct I.
  - destruct (sequence l) as [r'|]; [|discriminate]. simpl in E.
    injection E as <-. destruct I as [<-|I]; [now left|right; eauto].
  - discriminate.
Qed.

Lemma sequence_length {A : Type} (l : list (option A)) (r : list A) :
  sequence l = Some r -> length r = length l.
Proof.
  revert r; induction l as [|[a|] l IH]; simpl; intros r E.
  - now injection E as <-.
  - destruct (sequence l) as [r'|]; [|discriminate]. simpl in E.
    injection E as <-. simpl. f_equal. now apply IH.
  - discriminate.
Qed.

Lemma gather_In {A : Type} (t : list A) (idx : list nat) (r : list A) :
  gather t idx = Some r -> forall x, In x r -> In x t.
Proof.
  unfold gather. intros E x I.
  pose proof (sequence_Some_In _ _ E x I) as J.
  apply in_map_iff in J as (i & Hi & _). eapply nth_error_In; eauto.
Qed.

Lemma gather_length {A : Type} (t : list A) (idx : list nat) (r : list A) :
  gather t idx = Some r -> length r = length idx.
Proof.
  unfold gather. intros E. apply sequence_length in E.
  now rewrite length_map in E.
Qed.

Lemma threshold_check (t : R) :
  Rgeb t 0 && Rgeb 1 t = true <-> 0 <= t <= 1.
Proof.
  unfold Rgeb. destruct (Rge_dec t 0), (Rge_dec 1 t); simpl; split;
    intros H; try discriminate; try reflexivity; lra.
Qed.

Lemma nms_scope_threshold (post_nms_top_n : nat) (nms_threshold : R)
    (sorted_top_proposals : mat4) (sorted_top_scores : vec)
    (result : mat4 * vec) :
  nms_scope post_nms_top_n nms_threshold sorted_top_proposals
    sorted_top_scores = Some result ->
  0 <= nms_threshold <= 1.
Proof.
  unfold nms_scope, TF.non_max_suppression. intros H.
  destruct (Nat.eqb _ _); [|discriminate].
  destruct (Rgeb nms_threshold 0 && Rgeb 1 nms_threshold) eqn:T;
    [|discriminate].
  now apply threshold_check.
Qed.

Lemma nms_scope_gather (post_nms_top_n : nat) (nms_threshold : R)
    (sorted_top_proposals : mat4) (sorted_top_scores : vec) :
  nms_scope post_nms_top_n nms_threshold sorted_top_proposals
    sorted_top_scores
  = (selected_indices <-
       TF.non_max_suppression (change_order sorted_top_proposals)
         sorted_top_scores post_nms_top_n nms_threshold ;;
     proposals <- gather sorted_top_proposals selected_indices ;;
     scores <- gather sorted_top_scores selected_indices ;;
     Some (proposals, scores)).
Proof.
  unfold nms_scope.
  destruct (TF.non_max_suppression _ _ _ _) as [sel|]; simpl; [|reflexivity].
  rewrite (change_order_map sorted_top_proposals), gather_map.
  destruct (gather sorted_top_proposals sel) as [p|]; simpl; [|reflexivity].
  rewrite change_order_map, map_map.
  rewrite (map_ext _ (fun r => r) swap_xy_involutive), map_id.
  reflexivity.
Qed.

(** ** Decoding and encoding *)

(** C9. Decoding the all-zero offsets, with the default variances, gives
    back the anchors: for every array [A] of boxes,
    [decode (A, Z) = A] where [Z] has one zero row per row of [A]. *)
Theorem decode_zero_deltas (A : mat4) :
  decode A (map (fun _ => Row4 0 0 0 0) A) None = Some A.
Proof.
  rewrite decode_rows by (symmetry; apply length_map).
  apply f_equal. simpl. unfold zip_with.
  induction A as [|a A IH]; simpl; [reflexivity|].
  now rewrite decode_row_zero, IH.
Qed.

(** C1, as amended. For anchors [A] and boxes [B] with as many rows, all
    of positive inclusive width and height, and variances that are both
    different from zero, [encode] returns offsets from which [decode]
    returns [B]. *)
Theorem decode_encode (A B : mat4) (variances : option (R * R)) :
  length A = length B ->
  Forall positive_size A ->
  Forall positive_size B ->
  fst (default_variances variances) <> 0 ->
  snd (default_variances variances) <> 0 ->
  exists D,
    encode A B variances = Some D /\ decode A D variances = Some B.
Proof.
  intros E PA PB V0 V1.
  exists (zip_with (encode_row (default_variances variances)) A B).
  split; [now apply encode_rows|].
  rewrite decode_rows by (now rewrite zip_with_length).
  apply f_equal. rewrite zip_with_zip_with_left.
  rewrite <- (zip_with_snd A B E) at 2.
  apply zip_with_ext_in. intros a g I.
  destruct (default_variances variances) as [v0 v1]; simpl in *.
  apply decode_encode_row; try assumption.
  - rewrite Forall_forall in PA. apply PA. eapply in_combine_l; eauto.
  - rewrite Forall_forall in PB. apply PB. eapply in_combine_r; eauto.
Qed.

Lemma decode_encode_witness :
  exists D,
    encode [Row4 0 0 9 9] [Row4 2 3 5 7] (Some (0.1, 0.2)) = Some D
    /\ decode [Row4 0 0 9 9] D (Some (0.1, 0.2)) = Some [Row4 2 3 5 7].
Proof.
  apply (decode_encode [Row4 0 0 9 9] [Row4 2 3 5 7] (Some (0.1, 0.2)));
    try reflexivity;
    try (repeat constructor; unfold width_of, height_of; simpl; lra);
    simpl; lra.
Defined.

(** The centre that [decode] computes does not depend on the offsets when
    the first variance is zero. *)
Lemma decode_zero_variance_centre (a d r : row4) (v1 : R) :
  decode [a] [d] (Some (0, v1)) = Some [r] ->
  c0 r + c2 r = c0 a + c2 a.
Proof.
  rewrite decode_rows by reflexivity. unfold zip_with; simpl.
  intros H. injection H as <-.
  unfold decode_row, width_of; simpl. lra.
Qed.

(** C1 as stated fails for a variance of zero: from the anchor
    [(0, 0, 0, 0)] no offsets at all decode to the box [(1, 1, 1, 1)]
    under the variances [(0, 1)], so the round trip cannot return it. *)
Lemma decode_encode_zero_variance :
  ~ (exists D,
       encode [Row4 0 0 0 0] [Row4 1 1 1 1] (Some (0, 1)) = Some D
       /\ decode [Row4 0 0 0 0] D (Some (0, 1)) = Some [Row4 1 1 1 1]).
Proof.
  intros (D & HE & HD).
  rewrite encode_rows in HE by reflexivity.
  injection HE as <-. unfold zip_with in HD. cbn [combine map fst snd] in HD.
  apply decode_zero_variance_centre in HD. simpl in HD. lra.
Qed.

(** ** [change_order] and the suppression block *)

(** C10. [change_order] is an involution, and a result of the block that
    applies it in front of and behind the suppression consists of rows of
    the sorted array it was given, in the order
    [(x_min, y_min, x_max, y_max)]: the rows at the selected indices. *)
Theorem change_order_involutive (b : mat4) (post_nms_top_n : nat)
    (nms_threshold : R) (sorted_top_proposals : mat4)
    (sorted_top_scores : vec) (proposals : mat4) (scores : vec) :
  nms_scope post_nms_top_n nms_threshold sorted_top_proposals
    sorted_top_scores = Some (proposals, scores) ->
  change_order (change_order b) = b
  /\ (exists selected_indices,
        TF.non_max_suppression (change_order sorted_top_proposals)
          sorted_top_scores post_nms_top_n nms_threshold
        = Some selected_indices
        /\ gather sorted_top_proposals selected_indices = Some proposals
        /\ gather sorted_top_scores selected_indices = Some scores)
  /\ (forall p, In p proposals -> In p sorted_top_proposals).
Proof.
  intros H. split.
  { rewrite !change_order_map, map_map.
    rewrite (map_ext _ (fun r => r) swap_xy_involutive). apply map_id. }
  rewrite nms_scope_gather in H.
  destruct (TF.non_max_suppression _ _ _ _) as [sel|]; [|discriminate].
  simpl in H.
  destruct (gather sorted_top_proposals sel) as [p|] eqn:Gp; [|discriminate].
  simpl in H.
  destruct (gather sorted_top_scores sel) as [s|] eqn:Gs; [|discriminate].
  simpl in H. injection H as <- <-.
  split.
  - exists sel. repeat split; assumption.
  - intros q I. eapply gather_In; eauto.
Qed.

Lemma change_order_involutive_witness :
  nms_scope 2000 0.7 [Row4 1 2 3 4] [0.9] = Some ([Row4 1 2 3 4], [0.9])
  /\ change_order (change_order [Row4 5 6 7 8]) = [Row4 5 6 7 8].
Proof.
  assert (H : nms_scope 2000 0.7 [Row4 1 2 3 4] [0.9]
              = Some ([Row4 1 2 3 4], [0.9])).
  { unfold nms_scope, TF.non_max_suppression.
    cbn [change_order map combine length Nat.eqb fst snd].
    rewrite (proj2 (threshold_check 0.7)) by lra. reflexivity. }
  split; [exact H|].
  exact (proj1 (change_order_involutive [Row4 5 6 7 8] 2000 0.7
                  [Row4 1 2 3 4] [0.9] [Row4 1 2 3 4] [0.9] H)).
Defined.

(** ** Boolean comparisons *)

Lemma Rgeb_true (x y : R) : Rgeb x y = true <-> x >= y.
Proof. unfold Rgeb. destruct (Rge_dec x y); split; intros; try lra; easy. Qed.

Lemma Rgtb_true (x y : R) : Rgtb x y = true <-> x > y.
Proof. unfold Rgtb. destruct (Rgt_dec x y); split; intros; try lra; easy. Qed.

Lemma Rltb_true (x y : R) : Rltb x y = true <-> x < y.
Proof. unfold Rltb. destruct (Rlt_dec x y); split; intros; try lra; easy. Qed.

Lemma Rgeb_false (x y : R) : Rgeb x y = false <-> x < y.
Proof. unfold Rgeb. destruct (Rge_dec x y); split; intros; try lra; easy. Qed.

Lemma Rgtb_false (x y : R) : Rgtb x y = false <-> x <= y.
Proof. unfold Rgtb. destruct (Rgt_dec x y); split; intros; try lra; easy. Qed.

Lemma Rltb_false (x y : R) : Rltb x y = false <-> x >= y.
Proof. unfold Rltb. destruct (Rlt_dec x y); split; intros; try lra; easy. Qed.

Lemma inside_spec (im_shape : Z * Z) (a : row4) :
  inside im_shape a = true
  <-> 0 <= c0 a /\ 0 <= c1 a
      /\ c2 a < IZR (snd im_shape) /\ c3 a < IZR (fst im_shape).
Proof.
  unfold inside. rewrite !andb_true_iff, !Rgeb_true, !Rltb_true.
  intuition lra.
Qed.

(** ** Selection by a mask *)

Lemma mask_select_map_filter {A : Type} (f : A -> bool) (t : list A) :
  mask_select t (map f t) = filter f t.
Proof.
  induction t as [|x t IH]; simpl; [reflexivity|].
  rewrite IH. reflexivity.
Qed.

Lemma mask_select_combine {A B : Type} (a : list A) (b : list B)
    (m : list bool) :
  length a = length b ->
  combine (mask_select a m) (mask_select b m) = mask_select (combine a b) m.
Proof.
  revert b m; induction a as [|x a IH]; intros [|y b] [|k m] E; simpl in *;
    try discriminate; try reflexivity.
  destruct k; simpl; rewrite IH by lia; reflexivity.
Qed.

Lemma mask_select_length {A B : Type} (a : list A) (b : list B)
    (m : list bool) :
  length a = length b ->
  length (mask_select a m) = length (mask_select b m).
Proof.
  revert b m; induction a as [|x a IH]; intros [|y b] [|k m] E; simpl in *;
    try discriminate; try reflexivity.
  destruct k; simpl; rewrite (IH b m) by lia; reflexivity.
Qed.

Lemma mask_select_length_le {A : Type} (a : list A) (m : list bool) :
  (length (mask_select a m) <= length a)%nat.
Proof.
  revert m; induction a as [|x a IH]; intros [|k m]; simpl; try lia.
  destruct k; simpl; specialize (IH m); lia.
Qed.

Lemma boolean_mask_map {A B : Type} (f : A -> bool) (a : list A)
    (t : list B) :
  length t = length a ->
  boolean_mask t (Some (map f a)) = Some (mask_select t (map f a)).
Proof.
  intros E. unfold boolean_mask; simpl.
  now rewrite length_map, E, Nat.eqb_refl.
Qed.

Lemma anchor_filter_mask (im_shape : Z * Z) (all_anchors : mat4) :
  ew2 andb
    (ew2 andb (ew2 Rgeb (Some (map c0 all_anchors)) (sc 0))
              (ew2 Rgeb (Some (map c1 all_anchors)) (sc 0)))
    (ew2 andb (ew2 Rltb (Some (map c2 all_anchors)) (sc (IZR (snd im_shape))))
              (ew2 Rltb (Some (map c3 all_anchors)) (sc (IZR (fst im_shape)))))
  = Some (map (inside im_shape) all_anchors).
Proof. columns. reflexivity. Qed.

Lemma filter_outside_anchors_masks (im_shape : Z * Z)
    (all_anchors rpn_bbox_pred : mat4) (all_scores : vec) :
  length rpn_bbox_pred = length all_anchors ->
  length all_scores = length all_anchors ->
  filter_outside_anchors im_shape all_anchors rpn_bbox_pred all_scores
  = Some (mask_select all_anchors (map (inside im_shape) all_anchors),
          mask_select rpn_bbox_pred (map (inside im_shape) all_anchors),
          mask_select all_scores (map (inside im_shape) all_anchors)).
Proof.
  intros Ep Es. unfold filter_outside_anchors, split4.
  rewrite anchor_filter_mask.
  rewrite !boolean_mask_map by assumption || reflexivity.
  reflexivity.
Qed.

(** C6. When the offsets and the scores have one row per anchor, the
    boundary filter returns the anchors inside the image, each with
    [0 <= x_min], [0 <= y_min], [x_max < image_width] and
    [y_max < image_height]; anchors, offsets and scores are selected by
    one and the same mask, in their original order, so that the rows kept
    stay paired as they were. *)
Theorem filter_outside_anchors_inside (im_shape : Z * Z)
    (all_anchors rpn_bbox_pred : mat4) (all_scores : vec) :
  length rpn_bbox_pred = length all_anchors ->
  length all_scores = length all_anchors ->
  exists anchors' pred' scores',
    filter_outside_anchors im_shape all_anchors rpn_bbox_pred all_scores
    = Some (anchors', pred', scores')
    /\ Forall (fun a => 0 <= c0 a /\ 0 <= c1 a
                        /\ c2 a < IZR (snd im_shape)
                        /\ c3 a < IZR (fst im_shape)) anchors'
    /\ (exists mask,
          length mask = length all_anchors
          /\ anchors' = mask_select all_anchors mask
          /\ pred' = mask_select rpn_bbox_pred mask
          /\ scores' = mask_select all_scores mask)
    /\ anchors' = filter (inside im_shape) all_anchors
    /\ length pred' = length anchors'
    /\ length scores' = length anchors'
    /\ combine (combine anchors' pred') scores'
       = filter (fun t => inside im_shape (fst (fst t)))
           (combine (combine all_anchors rpn_bbox_pred) all_scores).
Proof.
  intros Ep Es.
  set (mask := map (inside im_shape) all_anchors).
  exists (mask_select all_anchors mask), (mask_select rpn_bbox_pred mask),
    (mask_select all_scores mask).
  assert (Ef : mask_select all_anchors mask
               = filter (inside im_shape) all_anchors)
    by apply mask_select_map_filter.
  split; [now apply filter_outside_anchors_masks|].
  split.
  { rewrite Ef. apply Forall_forall. intros a I.
    apply filter_In in I as [_ I]. now apply inside_spec. }
  split.
  { exists mask. repeat split. apply length_map. }
  split; [exact Ef|].
  split; [now apply mask_select_length|].
  split; [now apply mask_select_length|].
  rewrite !mask_select_combine;
    [ | now rewrite length_combine, Ep, Nat.min_id | now symmetry ].
  unfold mask.
  rewrite (map_on_fst (inside im_shape) all_anchors rpn_bbox_pred)
    by now symmetry.
  rewrite (map_on_fst (fun p => inside im_shape (fst p))
             (combine all_anchors rpn_bbox_pred) all_scores)
    by (rewrite length_combine, Ep, Nat.min_id; now symmetry).
  apply mask_select_map_filter.
Qed.

Lemma filter_outside_anchors_witness :
  exists anchors' pred' scores',
    filter_outside_anchors (32%Z, 48%Z)
      [Row4 0.5 0.5 31.5 31.5; Row4 (-15.5) 0.5 15.5 31.5;
       Row4 16.5 0.5 47.5 31.5]
      [Row4 0 0 0 0; Row4 0 0 0 0; Row4 0 0 0 0] [0.9; 0.8; 0.7]
    = Some (anchors', pred', scores')
    /\ Forall (fun a => 0 <= c0 a /\ 0 <= c1 a
                        /\ c2 a < IZR (snd (32%Z, 48%Z))
                        /\ c3 a < IZR (fst (32%Z, 48%Z))) anchors'.
Proof.
  destruct (filter_outside_anchors_inside (32%Z, 48%Z)
              [Row4 0.5 0.5 31.5 31.5; Row4 (-15.5) 0.5 15.5 31.5;
               Row4 16.5 0.5 47.5 31.5]
              [Row4 0 0 0 0; Row4 0 0 0 0; Row4 0 0 0 0] [0.9; 0.8; 0.7]
              eq_refl eq_refl)
    as (a & p & s & H1 & H2 & _).
  exists a, p, s. split; assumption.
Defined.

(** ** Ranking *)

Lemma insert_desc_perm (v : vec) (i : nat) (l : list nat) :
  Permutation (TF.insert_desc v i l) (i :: l).
Proof.
  induction l as [|j l IH]; simpl; [reflexivity|].
  destruct (Rltb (nth i v 0) (nth j v 0)); [|reflexivity].
  rewrite IH. apply perm_swap.
Qed.

Lemma argsort_desc_perm (v : vec) :
  Permutation (TF.argsort_desc v) (seq 0 (length v)).
Proof.
  unfold TF.argsort_desc. induction (seq 0 (length v)) as [|i l IH]; simpl;
    [reflexivity|].
  rewrite insert_desc_perm. now constructor.
Qed.

Lemma argsort_desc_length (v : vec) :
  length (TF.argsort_desc v) = length v.
Proof.
  rewrite (Permutation_length (argsort_desc_perm v)). apply length_seq.
Qed.

Lemma argsort_desc_range (v : vec) (i : nat) :
  In i (TF.argsort_desc v) -> (i < length v)%nat.
Proof.
  intros I. apply (Permutation_in _ (argsort_desc_perm v)) in I.
  apply in_seq in I. lia.
Qed.

Lemma gather_total {A : Type} (t : list A) (idx : list nat) :
  (forall i, In i idx -> (i < length t)%nat) ->
  exists r, gather t idx = Some r.
Proof.
  unfold gather. induction idx as [|i idx IH]; intros H; simpl.
  - now exists [].
  - destruct IH as [r Hr]; [intros; apply H; now right|].
    destruct (nth_error t i) as [x|] eqn:Ex.
    + rewrite Hr. simpl. now exists (x :: r).
    + apply nth_error_None in Ex. specialize (H i (or_introl eq_refl)). lia.
Qed.

Lemma gather_nth {A : Type} (t : list A) (idx : list nat) (r : list A)
    (d : A) (a : nat) :
  gather t idx = Some r -> (a < length r)%nat ->
  nth a r d = nth (nth a idx 0%nat) t d.
Proof.
  unfold gather. revert r a; induction idx as [|i idx IH]; simpl; intros r a E L.
  - injection E as <-. simpl in L. lia.
  - destruct (nth_error t i) as [x|] eqn:Ex; [|discriminate]. simpl in E.
    destruct (sequence _) as [r'|] eqn:Er; [|discriminate]. simpl in E.
    injection E as <-. destruct a as [|a]; simpl.
    + symmetry. now apply nth_error_nth.
    + apply IH; [reflexivity|simpl in L; lia].
Qed.

Lemma In_firstn {A : Type} (n : nat) (l : list A) (x : A) :
  In x (firstn n l) -> In x l.
Proof.
  intros I. rewrite <- (firstn_skipn n l). apply in_or_app. now left.
Qed.

Lemma top_k_min (values : vec) (n : nat) :
  TF.top_k values (Nat.min n (length values))
  = Some (map (fun i => nth i values 0)
              (firstn (Nat.min n (length values)) (TF.argsort_desc values)),
          firstn (Nat.min n (length values)) (TF.argsort_desc values)).
Proof.
  unfold TF.top_k.
  destruct (Nat.leb_spec (Nat.min n (length values)) (length values));
    [reflexivity|lia].
Qed.

Lemma top_proposals_total (pre_nms_top_n : nat) (unsorted_scores : vec)
    (unsorted_proposals : mat4) :
  length unsorted_proposals = length unsorted_scores ->
  exists sorted_top_proposals sorted_top_scores,
    top_proposals pre_nms_top_n unsorted_scores unsorted_proposals
    = Some (sorted_top_proposals, sorted_top_scores)
    /\ length sorted_top_proposals
       = Nat.min pre_nms_top_n (length unsorted_scores)
    /\ length sorted_top_scores
       = Nat.min pre_nms_top_n (length unsorted_scores).
Proof.
  intros E. unfold top_proposals. rewrite top_k_min. simpl.
  set (k := Nat.min pre_nms_top_n (length unsorted_scores)).
  assert (Lk : length (firstn k (TF.argsort_desc unsorted_scores)) = k).
  { rewrite length_firstn, argsort_desc_length. subst k. lia. }
  destruct (gather_total unsorted_proposals
              (firstn k (TF.argsort_desc unsorted_scores))) as [r Hr].
  { intros i I. apply In_firstn in I. apply argsort_desc_range in I. lia. }
  rewrite Hr. simpl. eexists _, _. split; [reflexivity|].
  split.
  - apply gather_length in Hr. lia.
  - now rewrite length_map.
Qed.

(** ** The greedy sweep *)

Section Sweep.

Variable boxes : mat4.
Variable max_output_size : nat.
Variable iou_threshold : R.

Let sweep := TF.nms_sweep boxes max_output_size iou_threshold.

Lemma nms_sweep_length (candidates selected : list nat) :
  (length (sweep candidates selected)
   <= Nat.max (length selected) max_output_size)%nat.
Proof.
  subst sweep.
  revert selected; induction candidates as [|i rest IH]; intros selected;
    simpl; [lia|].
  destruct (Nat.leb_spec max_output_size (length selected)); [lia|].
  destruct (existsb _ selected).
  - apply IH.
  - specialize (IH (selected ++ [i])). rewrite length_app in IH.
    simpl in IH. lia.
Qed.

Lemma nms_sweep_length_candidates (candidates selected : list nat) :
  (length (sweep candidates selected)
   <= length selected + length candidates)%nat.
Proof.
  subst sweep.
  revert selected; induction candidates as [|i rest IH]; intros selected;
    simpl; [lia|].
  destruct (Nat.leb max_output_size (length selected)); [lia|].
  destruct (existsb _ selected).
  - specialize (IH selected). lia.
  - specialize (IH (selected ++ [i])). rewrite length_app in IH.
    simpl in IH. lia.
Qed.

Lemma nms_sweep_In (candidates selected : list nat) (i : nat) :
  In i (sweep candidates selected) -> In i selected \/ In i candidates.
Proof.
  subst sweep.
  revert selected; induction candidates as [|k rest IH]; intros selected;
    simpl; [now left|].
  destruct (Nat.leb max_output_size (length selected)); [now left|].
  destruct (existsb _ selected); intros I; apply IH in I.
  - tauto.
  - rewrite in_app_iff in I. simpl in I. tauto.
Qed.

Let sep := separated boxes iou_threshold.

Lemma ForallOrdPairs_snoc {A : Type} (P : A -> A -> Prop) (l : list A)
    (x : A) :
  ForallOrdPairs P l -> Forall (fun y => P y x) l ->
  ForallOrdPairs P (l ++ [x]).
Proof.
  induction 1 as [|y l Hy Hl IH]; intros F; simpl.
  - constructor; constructor.
  - inversion F; subst. constructor.
    + apply Forall_app. split; [assumption|]. now constructor.
    + now apply IH.
Qed.

Lemma nms_sweep_separated (candidates selected : list nat) :
  ForallOrdPairs sep selected ->
  ForallOrdPairs sep (sweep candidates selected).
Proof.
  subst sweep.
  revert selected; induction candidates as [|i rest IH]; intros selected H;
    simpl; [assumption|].
  destruct (Nat.leb max_output_size (length selected)); [assumption|].
  destruct (existsb _ selected) eqn:Ex; [now apply IH|].
  apply IH. apply ForallOrdPairs_snoc; [assumption|].
  apply Forall_forall. intros j Ij. subst sep. unfold separated.
  destruct (Rle_dec (TF.iou (nth i boxes (Row4 0 0 0 0))
                            (nth j boxes (Row4 0 0 0 0))) iou_threshold)
    as [Hle|Hgt]; [assumption|].
  assert (existsb
            (fun j => Rgtb (TF.iou (nth i boxes (Row4 0 0 0 0))
                                   (nth j boxes (Row4 0 0 0 0)))
                           iou_threshold) selected = true).
  { apply existsb_exists. exists j. split; [assumption|].
    apply Rgtb_true. lra. }
  congruence.
Qed.

End Sweep.

Lemma iou_sym (p q : row4) : TF.iou p q = TF.iou q p.
Proof.
  unfold TF.iou.
  set (ai := (Rmax (c0 p) (c2 p) - Rmin (c0 p) (c2 p))
             * (Rmax (c1 p) (c3 p) - Rmin (c1 p) (c3 p))).
  set (aj := (Rmax (c0 q) (c2 q) - Rmin (c0 q) (c2 q))
             * (Rmax (c1 q) (c3 q) - Rmin (c1 q) (c3 q))).
  destruct (Rle_dec ai 0), (Rle_dec aj 0); try reflexivity.
  rewrite (Rmax_comm (Rmin (c0 q) (c2 q))), (Rmax_comm (Rmin (c1 q) (c3 q))),
    (Rmin_comm (Rmax (c0 q) (c2 q))), (Rmin_comm (Rmax (c1 q) (c3 q))).
  f_equal. f_equal. ring.
Qed.

Lemma ForallOrdPairs_nth {A : Type} (P : A -> A -> Prop) (l : list A)
    (d : A) (a b : nat) :
  ForallOrdPairs P l -> (a < b)%nat -> (b < length l)%nat ->
  P (nth a l d) (nth b l d).
Proof.
  intros H. revert a b; induction H as [|x l Hx Hl IH]; intros a b Lab Lb;
    simpl in Lb; [lia|].
  destruct b as [|b]; [lia|]. destruct a as [|a]; simpl.
  - rewrite Forall_forall in Hx. apply Hx. apply nth_In. lia.
  - apply IH; lia.
Qed.

(** ** The stages of the selection *)

Lemma zero_area_filter_mask (all_proposals : mat4) :
  ew2 Rgtb
    (ew2 Rmax (Some (map c2 all_proposals) [-] Some (map c0 all_proposals))
              (sc 0)
     [*] ew2 Rmax (Some (map c3 all_proposals) [-] Some (map c1 all_proposals))
                  (sc 0))
    (sc 0)
  = Some (map positive_area all_proposals).
Proof. columns. reflexivity. Qed.

Lemma filter_proposals_masks (all_proposals : mat4) (all_scores : vec) :
  length all_scores = length all_proposals ->
  filter_proposals all_proposals all_scores
  = Some (mask_select all_scores (map positive_area all_proposals),
          mask_select all_proposals (map positive_area all_proposals)).
Proof.
  intros E. unfold filter_proposals, split4. rewrite zero_area_filter_mask.
  rewrite !boolean_mask_map by assumption || reflexivity.
  reflexivity.
Qed.

Lemma candidate_proposals_total (im_shape : Z * Z)
    (all_anchors rpn_bbox_pred : mat4) (all_scores : vec) :
  length rpn_bbox_pred = length all_anchors ->
  length all_scores = length all_anchors ->
  exists unsorted_scores unsorted_proposals,
    candidate_proposals im_shape all_anchors rpn_bbox_pred all_scores
    = Some (unsorted_scores, unsorted_proposals)
    /\ length unsorted_proposals = length unsorted_scores
    /\ (length unsorted_scores <= length all_anchors)%nat.
Proof.
  intros Ep Es. unfold candidate_proposals.
  rewrite filter_outside_anchors_masks by assumption. simpl.
  set (mask := map (inside im_shape) all_anchors).
  assert (Lp : length (mask_select all_anchors mask)
               = length (mask_select rpn_bbox_pred mask))
    by (apply mask_select_length; now symmetry).
  assert (Ls : length (mask_select all_anchors mask)
               = length (mask_select all_scores mask))
    by (apply mask_select_length; now symmetry).
  rewrite decode_rows by assumption. simpl.
  set (props := zip_with (decode_row (1, 1)) (mask_select all_anchors mask)
                  (mask_select rpn_bbox_pred mask)).
  assert (Lz : length props = length (mask_select all_anchors mask))
    by (apply zip_with_length; assumption).
  rewrite filter_proposals_masks by lia.
  eexists _, _. split; [reflexivity|]. split.
  - apply mask_select_length. lia.
  - etransitivity; [apply mask_select_length_le|].
    rewrite <- Ls. apply mask_select_length_le.
Qed.

Lemma nms_scope_total (post_nms_top_n : nat) (nms_threshold : R)
    (sorted_top_proposals : mat4) (sorted_top_scores : vec) :
  length sorted_top_proposals = length sorted_top_scores ->
  0 <= nms_threshold <= 1 ->
  exists selected_indices proposals scores,
    TF.non_max_suppression (change_order sorted_top_proposals)
      sorted_top_scores post_nms_top_n nms_threshold = Some selected_indices
    /\ nms_scope post_nms_top_n nms_threshold sorted_top_proposals
         sorted_top_scores = Some (proposals, scores)
    /\ gather sorted_top_proposals selected_indices = Some proposals
    /\ gather sorted_top_scores selected_indices = Some scores
    /\ (length selected_indices
        <= Nat.min post_nms_top_n (length sorted_top_scores))%nat
    /\ ForallOrdPairs
         (separated (change_order sorted_top_proposals) nms_threshold)
         selected_indices.
Proof.
  intros E T. rewrite nms_scope_gather. unfold TF.non_max_suppression.
  rewrite change_order_length, E, Nat.eqb_refl.
  rewrite (proj2 (threshold_check nms_threshold) T).
  set (sel := TF.nms_sweep _ _ _ _ _).
  assert (R : forall i, In i sel -> (i < length sorted_top_scores)%nat).
  { intros i I. apply nms_sweep_In in I as [[]|I].
    now apply argsort_desc_range. }
  destruct (gather_total sorted_top_proposals sel) as [p Hp];
    [intros i I; rewrite E; now apply R|].
  destruct (gather_total sorted_top_scores sel) as [s Hs]; [exact R|].
  exists sel, p, s. simpl. rewrite Hp, Hs. simpl.
  repeat split; try reflexivity.
  - apply Nat.min_glb.
    + apply (nms_sweep_length (change_order sorted_top_proposals)
               post_nms_top_n nms_threshold
               (TF.argsort_desc sorted_top_scores) []).
    + pose proof (nms_sweep_length_candidates
                    (change_order sorted_top_proposals) post_nms_top_n
                    nms_threshold (TF.argsort_desc sorted_top_scores) [])
        as H.
      rewrite argsort_desc_length in H. exact H.
  - apply nms_sweep_separated. constructor.
Qed.

(** ** The overlap of the proposals returned *)

Lemma generate_proposals_stages (pre_nms_top_n post_nms_top_n : nat)
    (nms_threshold : R) (im_shape : Z * Z) (all_anchors rpn_bbox_pred : mat4)
    (all_scores : vec) (proposals : mat4) (scores : vec) :
  generate_proposals pre_nms_top_n post_nms_top_n nms_threshold im_shape
    all_anchors rpn_bbox_pred all_scores = Some (proposals, scores) ->
  exists sorted_top_proposals sorted_top_scores,
    length sorted_top_proposals = length sorted_top_scores
    /\ nms_scope post_nms_top_n nms_threshold sorted_top_proposals
         sorted_top_scores = Some (proposals, scores).
Proof.
  unfold generate_proposals. intros H.
  destruct (candidate_proposals _ _ _ _) as [[us up]|]; [|discriminate].
  simpl in H.
  destruct (top_proposals pre_nms_top_n us up) as [[stp sts]|] eqn:Ht;
    [|discriminate].
  simpl in H. exists stp, sts. split; [|exact H].
  unfold top_proposals in Ht. rewrite top_k_min in Ht. simpl in Ht.
  destruct (gather up _) as [r|] eqn:G; [|discriminate]. simpl in Ht.
  injection Ht as <- <-. apply gather_length in G.
  now rewrite length_map.
Qed.

Lemma build_rpn_generate_proposals (im_shape : Z * Z)
    (feature_map_shape : nat * nat * nat * nat)
    (rpn_cls_prob : list (R * R)) (rpn_bbox_pred : mat4) :
  build_rpn im_shape feature_map_shape rpn_cls_prob rpn_bbox_pred
  = (all_anchors <- generate_anchors feature_map_shape ;;
     generate_proposals 12000 2000 0.7 im_shape (map row_of_int all_anchors)
       rpn_bbox_pred (map snd rpn_cls_prob)).
Proof. reflexivity. Qed.

(** C2, as amended. Any two proposals at different positions of the
    result overlap by at most [nms_threshold], where the overlap is the
    one the suppression measures: the area of the intersection over the
    area of the union, the extent of a box from [x_min] to [x_max] being
    [x_max - x_min]. *)
Theorem nms_overlap_bound (pre_nms_top_n post_nms_top_n : nat)
    (nms_threshold : R) (im_shape : Z * Z) (all_anchors rpn_bbox_pred : mat4)
    (all_scores : vec) (proposals : mat4) (scores : vec) (a b : nat) :
  generate_proposals pre_nms_top_n post_nms_top_n nms_threshold im_shape
    all_anchors rpn_bbox_pred all_scores = Some (proposals, scores) ->
  a <> b -> (a < length proposals)%nat -> (b < length proposals)%nat ->
  overlap (nth a proposals (Row4 0 0 0 0)) (nth b proposals (Row4 0 0 0 0))
  <= nms_threshold.
Proof.
  intros H Nab La Lb.
  apply generate_proposals_stages in H as (stp & sts & E & H).
  destruct (nms_scope_total post_nms_top_n nms_threshold stp sts E
              (nms_scope_threshold _ _ _ _ _ H))
    as (sel & p & s & _ & Hn & Gp & _ & _ & Sep).
  rewrite H in Hn. injection Hn as <- <-.
  assert (L : length proposals = length sel) by (eapply gather_length; eauto).
  assert (K : forall i j, (i < j)%nat -> (j < length proposals)%nat ->
              overlap (nth j proposals (Row4 0 0 0 0))
                      (nth i proposals (Row4 0 0 0 0)) <= nms_threshold).
  { intros i j Lij Lj.
    pose proof (ForallOrdPairs_nth _ sel 0%nat i j Sep Lij) as S.
    unfold separated in S. rewrite change_order_map in S.
    change (Row4 0 0 0 0) with (swap_xy (Row4 0 0 0 0)) in S.
    rewrite !map_nth in S. unfold overlap.
    rewrite !(gather_nth _ _ _ (Row4 0 0 0 0) _ Gp) by lia.
    apply S. lia. }
  destruct (Nat.lt_ge_cases a b) as [Lt|Ge].
  - unfold overlap. rewrite iou_sym. now apply K.
  - apply K; lia.
Qed.

(** ** Truncation *)

Lemma Int_part_bounds (x : R) : IZR (Int_part x) <= x < IZR (Int_part x) + 1.
Proof. destruct (base_Int_part x). lra. Qed.

Lemma astype_int_zero (x : R) : astype_int x = 0%Z <-> -1 < x < 1.
Proof.
  unfold astype_int. destruct (Rle_dec 0 x) as [P|N].
  - pose proof (Int_part_bounds x) as [L U]. split.
    + intros E. rewrite E in *. simpl in *. lra.
    + intros [_ H]. destruct (Z.eq_dec (Int_part x) 0) as [E|E]; [exact E|].
      exfalso.
      assert (C : (Int_part x <= -1 \/ 1 <= Int_part x)%Z) by lia.
      destruct C as [C|C]; apply IZR_le in C; lra.
  - pose proof (Int_part_bounds (- x)) as [L U]. split.
    + intros E. assert (E' : Int_part (- x) = 0%Z) by lia.
      rewrite E' in *. simpl in *. lra.
    + intros [H _].
      destruct (Z.eq_dec (Int_part (- x)) 0) as [E|E]; [lia|].
      exfalso.
      assert (C : (Int_part (- x) <= -1 \/ 1 <= Int_part (- x))%Z) by lia.
      destruct C as [C|C]; apply IZR_le in C; lra.
Qed.

Lemma astype_int_IZR (z : Z) : astype_int (IZR z) = z.
Proof.
  unfold astype_int. destruct (Rle_dec 0 (IZR z)) as [P|N].
  - symmetry. apply Int_part_spec. lra.
  - rewrite <- opp_IZR.
    rewrite <- (Int_part_spec (IZR (- z)) (- z)%Z) by lra. lia.
Qed.

(** ** The reference anchors, row by row *)

Lemma meshgrid_flat_x {A B : Type} (x : list A) (y : list B) :
  reshape_flat (fst (meshgrid x y)) = map snd (list_prod y x).
Proof.
  unfold reshape_flat, meshgrid; simpl.
  induction y as [|b y IH]; simpl; [reflexivity|].
  rewrite IH, map_app, map_map. simpl. now rewrite map_id.
Qed.

Lemma meshgrid_flat_y {A B : Type} (x : list A) (y : list B) :
  reshape_flat (snd (meshgrid x y)) = map fst (list_prod y x).
Proof.
  unfold reshape_flat, meshgrid; simpl.
  induction y as [|b y IH]; simpl; [reflexivity|].
  now rewrite IH, map_app, map_map.
Qed.

(** The row that [generate_anchors_reference] stacks for one pair. *)
Lemma reference_anchor_columns (base_size : Z) (ratio scale : R) :
  Row4 (0 - (scale / sqrt ratio * IZR base_size - 1) / 2)
       (0 - (scale * sqrt ratio * IZR base_size - 1) / 2)
       (0 + (scale / sqrt ratio * IZR base_size - 1) / 2)
       (0 + (scale * sqrt ratio * IZR base_size - 1) / 2)
  = reference_anchor base_size ratio scale.
Proof.
  unfold reference_anchor, reference_width, reference_height.
  f_equal; lra.
Qed.

Lemma existsb_eqb_map {I : Type} (g : I -> Z) (L : list I) :
  existsb (Z.eqb 0) (map g L) = true <-> exists p, In p L /\ g p = 0%Z.
Proof.
  rewrite existsb_exists. split.
  - intros (z & Iz & Ez). apply in_map_iff in Iz as (p & <- & Ip).
    exists p. split; [assumption|]. apply Z.eqb_eq in Ez. lia.
  - intros (p & Ip & Ep). exists (g p). split; [now apply in_map|].
    apply Z.eqb_eq. lia.
Qed.

Lemma generate_anchors_reference_rows (base_size : Z)
    (aspect_ratios scales : list R) :
  generate_anchors_reference base_size aspect_ratios scales
  = if existsb (Z.eqb 0)
         (map (fun p => astype_int
                          (c2 (reference_anchor base_size (fst p) (snd p))
                           - c0 (reference_anchor base_size (fst p) (snd p))))
              (list_prod aspect_ratios scales))
       || existsb (Z.eqb 0)
            (map (fun p => astype_int
                          (c3 (reference_anchor base_size (fst p) (snd p))
                           - c1 (reference_anchor base_size (fst p) (snd p))))
                 (list_prod aspect_ratios scales))
    then None
    else Some (reference_rows base_size aspect_ratios scales).
Proof.
  unfold generate_anchors_reference.
  pose proof (meshgrid_flat_x scales aspect_ratios) as Ex.
  pose proof (meshgrid_flat_y scales aspect_ratios) as Ey.
  destruct (meshgrid scales aspect_ratios) as [sg ag]. simpl in Ex, Ey.
  rewrite Ex, Ey. columns.
  rewrite (map_ext _ (fun p => reference_anchor base_size (fst p) (snd p)))
    by (intros p; apply reference_anchor_columns).
  cbn [bind]. rewrite !map_map. columns. cbn [bind]. reflexivity.
Qed.

Lemma reference_anchor_extent (base_size : Z) (ratio scale : R) :
  c2 (reference_anchor base_size ratio scale)
  - c0 (reference_anchor base_size ratio scale)
  = reference_width base_size ratio scale - 1
  /\ c3 (reference_anchor base_size ratio scale)
     - c1 (reference_anchor base_size ratio scale)
     = reference_height base_size ratio scale - 1.
Proof. unfold reference_anchor; simpl. split; lra. Qed.

Lemma too_small_iff (base_size : Z) (ratio scale : R) :
  too_small base_size ratio scale
  <-> 0 < reference_width base_size ratio scale < 2
      \/ 0 < reference_height base_size ratio scale < 2.
Proof.
  unfold too_small. rewrite !astype_int_zero. intuition lra.
Qed.

Lemma generate_anchors_reference_None (base_size : Z)
    (aspect_ratios scales : list R) :
  generate_anchors_reference base_size aspect_ratios scales = None
  <-> exists ratio scale,
        In ratio aspect_ratios /\ In scale scales
        /\ too_small base_size ratio scale.
Proof.
  rewrite generate_anchors_reference_rows.
  destruct (existsb _ _ || existsb _ _) eqn:E.
  - split; [intros _|reflexivity].
    apply orb_true_iff in E as [E|E];
      apply existsb_eqb_map in E as ([r s] & I & Z);
      apply in_prod_iff in I as [Ir Is]; exists r, s;
      (split; [assumption|split; [assumption|]]); cbn [fst snd] in Z.
    + left. now rewrite (proj1 (reference_anchor_extent base_size r s)) in Z.
    + right. now rewrite (proj2 (reference_anchor_extent base_size r s)) in Z.
  - split; [discriminate|]. intros (r & s & Ir & Is & T). exfalso.
    apply orb_false_iff in E as [E1 E2].
    assert (I : In (r, s) (list_prod aspect_ratios scales))
      by now apply in_prod.
    destruct T as [T|T].
    + assert (X : existsb (Z.eqb 0)
                    (map (fun p => astype_int
                       (c2 (reference_anchor base_size (fst p) (snd p))
                        - c0 (reference_anchor base_size (fst p) (snd p))))
                       (list_prod aspect_ratios scales)) = true).
      { apply existsb_eqb_map. exists (r, s). split; [assumption|].
        cbn [fst snd].
        now rewrite (proj1 (reference_anchor_extent base_size r s)). }
      congruence.
    + assert (X : existsb (Z.eqb 0)
                    (map (fun p => astype_int
                       (c3 (reference_anchor base_size (fst p) (snd p))
                        - c1 (reference_anchor base_size (fst p) (snd p))))
                       (list_prod aspect_ratios scales)) = true).
      { apply existsb_eqb_map. exists (r, s). split; [assumption|].
        cbn [fst snd].
        now rewrite (proj2 (reference_anchor_extent base_size r s)). }
      congruence.
Qed.

Lemma generate_anchors_reference_Some (base_size : Z)
    (aspect_ratios scales : list R) (anchors : mat4) :
  generate_anchors_reference base_size aspect_ratios scales = Some anchors ->
  anchors = reference_rows base_size aspect_ratios scales.
Proof.
  rewrite generate_anchors_reference_rows.
  destruct (existsb _ _ || existsb _ _); [discriminate|].
  now intros [= <-].
Qed.

Lemma generate_anchors_reference_large (base_size : Z)
    (aspect_ratios scales : list R) :
  (forall ratio scale, In ratio aspect_ratios -> In scale scales ->
     2 <= reference_width base_size ratio scale
     /\ 2 <= reference_height base_size ratio scale) ->
  generate_anchors_reference base_size aspect_ratios scales
  = Some (reference_rows base_size aspect_ratios scales).
Proof.
  intros H.
  destruct (generate_anchors_reference base_size aspect_ratios scales)
    as [anchors|] eqn:E.
  - f_equal. now apply generate_anchors_reference_Some.
  - apply generate_anchors_reference_None in E as (r & s & Ir & Is & T).
    apply too_small_iff in T. destruct (H r s Ir Is). lra.
Qed.

(** C5, as amended. [generate_anchors_reference] raises exactly when, for
    some ratio and some scale, the difference of the opposite corners of
    the box along x or along y, which is the width less one or the height
    less one, has the integer part zero: when a width or a height lies
    strictly between 0 and 2. Otherwise it returns the anchors. *)
Theorem generate_anchors_reference_raises (base_size : Z)
    (aspect_ratios scales : list R) :
  (generate_anchors_reference base_size aspect_ratios scales = None
   <-> exists ratio scale,
         In ratio aspect_ratios /\ In scale scales
         /\ too_small base_size ratio scale)
  /\ (generate_anchors_reference base_size aspect_ratios scales = None
      <-> exists ratio scale,
            In ratio aspect_ratios /\ In scale scales
            /\ (0 < reference_width base_size ratio scale < 2
                \/ 0 < reference_height base_size ratio scale < 2))
  /\ (generate_anchors_reference base_size aspect_ratios scales = None
      \/ generate_anchors_reference base_size aspect_ratios scales
         = Some (reference_rows base_size aspect_ratios scales)).
Proof.
  split; [apply generate_anchors_reference_None|]. split.
  - rewrite generate_anchors_reference_None.
    split; intros (r & s & Ir & Is & T); exists r, s;
      (split; [assumption|split; [assumption|]]); now apply too_small_iff.
  - destruct (generate_anchors_reference base_size aspect_ratios scales)
      as [anchors|] eqn:E; [right|now left].
    f_equal. now apply generate_anchors_reference_Some.
Qed.

(** C5 as stated fails: with [base_size = 1], the ratio 1 and the scale
    1 the width and the height are one pixel, which no cast to an
    integer makes zero, and [generate_anchors_reference] raises. *)
Lemma generate_anchors_reference_raises_one_pixel :
  generate_anchors_reference 1 [1] [1] = None
  /\ reference_width 1 1 1 = 1 /\ reference_height 1 1 1 = 1
  /\ ~ (exists ratio scale,
          In ratio [1] /\ In scale [1] /\ casts_to_zero 1 ratio scale).
Proof.
  assert (W : reference_width 1 1 1 = 1)
    by (unfold reference_width; rewrite sqrt_1; lra).
  assert (H : reference_height 1 1 1 = 1)
    by (unfold reference_height; rewrite sqrt_1; lra).
  split; [|split; [exact W|split; [exact H|]]].
  - apply generate_anchors_reference_None. exists 1, 1.
    split; [now left|split; [now left|]].
    apply too_small_iff. rewrite W. lra.
  - intros (r & s & [<-|[]] & [<-|[]] & [C|C]); rewrite ?W, ?H in C;
      rewrite (astype_int_IZR 1) in C; discriminate.
Qed.

(** ** Positions in a list of blocks *)

Lemma nth_flat_map_uniform {A B : Type} (f : A -> list B) (l : list A)
    (n : nat) (da : A) (db : B) (k : nat) :
  (forall a, length (f a) = n) -> (k < length l * n)%nat ->
  nth k (flat_map f l) db = nth (k mod n) (f (nth (k / n) l da)) db.
Proof.
  intros Hn. revert k; induction l as [|x l IH]; intros k Lk; simpl in *;
    [lia|].
  assert (Pn : (0 < n)%nat) by lia.
  destruct (Nat.lt_ge_cases k n) as [Lt|Ge].
  - rewrite app_nth1 by (now rewrite Hn).
    now rewrite Nat.div_small, Nat.mod_small.
  - rewrite app_nth2 by (now rewrite Hn). rewrite Hn.
    rewrite IH by lia.
    replace k with ((k - n) + 1 * n)%nat at 3 4 by lia.
    rewrite Nat.Div0.mod_add, Nat.div_add by lia.
    replace ((k - n) / n + 1)%nat with (S ((k - n) / n)) by lia.
    reflexivity.
Qed.

Lemma length_flat_map_uniform {A B : Type} (f : A -> list B) (l : list A)
    (n : nat) :
  (forall a, length (f a) = n) -> length (flat_map f l) = (length l * n)%nat.
Proof.
  intros Hn. induction l as [|x l IH]; simpl; [reflexivity|].
  rewrite length_app, Hn, IH. lia.
Qed.

Lemma list_prod_flat_map {A B : Type} (l : list A) (l' : list B) :
  list_prod l l' = flat_map (fun x => map (fun y => (x, y)) l') l.
Proof. induction l as [|x l IH]; simpl; [reflexivity|]. now rewrite IH. Qed.

Lemma nth_list_prod {A B : Type} (l : list A) (l' : list B) (da : A)
    (db : B) (k : nat) :
  (k < length l * length l')%nat ->
  nth k (list_prod l l') (da, db)
  = (nth (k / length l') l da, nth (k mod length l') l' db).
Proof.
  intros Lk. rewrite list_prod_flat_map.
  rewrite (nth_flat_map_uniform _ l (length l') da) by
    (intros; apply length_map) || assumption.
  assert (P : (0 < length l')%nat) by lia.
  rewrite (nth_indep _ (da, db) (nth (k / length l') l da, db))
    by (rewrite length_map; now apply Nat.mod_upper_bound, Nat.neq_0_lt_0).
  apply (map_nth (fun y => (nth (k / length l') l da, y))).
Qed.

(** ** The order and the geometry of the reference anchors *)

Lemma reference_rows_length (base_size : Z) (aspect_ratios scales : list R) :
  length (reference_rows base_size aspect_ratios scales)
  = (length aspect_ratios * length scales)%nat.
Proof. unfold reference_rows. now rewrite length_map, length_prod. Qed.

Lemma reference_rows_nth (base_size : Z) (aspect_ratios scales : list R)
    (k : nat) (d : row4) :
  (k < length aspect_ratios * length scales)%nat ->
  nth k (reference_rows base_size aspect_ratios scales) d
  = reference_anchor base_size (nth (k / length scales) aspect_ratios 0)
      (nth (k mod length scales) scales 0).
Proof.
  intros Lk. unfold reference_rows.
  rewrite (nth_indep _ d (reference_anchor base_size (fst (0, 0))
                            (snd (0, 0))))
    by now rewrite length_map, length_prod.
  rewrite (map_nth (fun p => reference_anchor base_size (fst p) (snd p))).
  now rewrite nth_list_prod.
Qed.

(** C4, as amended. The reference anchors are enumerated with the aspect
    ratio outside and the scale inside: of the
    [|ratios| * |scales|] rows, row [k] is the anchor of the ratio of
    index [k / |scales|] and of the scale of index [k mod |scales|], so
    that the index of the scale advances with every row and the index of
    the ratio once per round of scales. *)
Theorem generate_anchors_reference_order (base_size : Z)
    (aspect_ratios scales : list R) (anchors : mat4) :
  generate_anchors_reference base_size aspect_ratios scales = Some anchors ->
  length anchors = (length aspect_ratios * length scales)%nat
  /\ ratio_outer_order base_size aspect_ratios scales anchors.
Proof.
  intros H. apply generate_anchors_reference_Some in H. subst anchors.
  split; [apply reference_rows_length|].
  intros k Lk. now apply reference_rows_nth.
Qed.

Lemma sqrt_4 : sqrt 4 = 2.
Proof. replace 4 with (2 * 2) by lra. apply sqrt_square. lra. Qed.

Lemma generate_anchors_reference_two_by_two :
  generate_anchors_reference 4 [1; 4] [1; 2]
  = Some [Row4 (-1.5) (-1.5) 1.5 1.5; Row4 (-3.5) (-3.5) 3.5 3.5;
          Row4 (-0.5) (-3.5) 0.5 3.5; Row4 (-1.5) (-7.5) 1.5 7.5].
Proof.
  rewrite generate_anchors_reference_large.
  - unfold reference_rows, reference_anchor, reference_width,
      reference_height; simpl.
    rewrite sqrt_1, sqrt_4. repeat f_equal; lra.
  - unfold reference_width, reference_height.
    intros r s [<-|[<-|[]]] [<-|[<-|[]]]; rewrite ?sqrt_1, ?sqrt_4; lra.
Qed.

Lemma generate_anchors_reference_order_witness :
  length [Row4 (-1.5) (-1.5) 1.5 1.5; Row4 (-3.5) (-3.5) 3.5 3.5;
          Row4 (-0.5) (-3.5) 0.5 3.5; Row4 (-1.5) (-7.5) 1.5 7.5]
  = (length [1; 4] * length [1; 2])%nat
  /\ ratio_outer_order 4 [1; 4] [1; 2]
       [Row4 (-1.5) (-1.5) 1.5 1.5; Row4 (-3.5) (-3.5) 3.5 3.5;
        Row4 (-0.5) (-3.5) 0.5 3.5; Row4 (-1.5) (-7.5) 1.5 7.5].
Proof.
  exact (generate_anchors_reference_order 4 [1; 4] [1; 2] _
           generate_anchors_reference_two_by_two).
Defined.

(** C4 as stated fails: for the ratios [1, 4] and the scales [1, 2] the
    second row returned is the anchor of ratio 1 and scale 2, not the
    anchor of ratio 4 and scale 1 that an enumeration with the scale
    outside and the ratio inside puts there. *)
Lemma generate_anchors_reference_not_scale_outer :
  exists anchors,
    generate_anchors_reference 4 [1; 4] [1; 2] = Some anchors
    /\ ~ scale_outer_order 4 [1; 4] [1; 2] anchors.
Proof.
  eexists. split; [apply generate_anchors_reference_two_by_two|].
  intros O. specialize (O 1%nat). simpl in O.
  assert (L : (1 < 4)%nat) by lia. specialize (O L).
  unfold reference_anchor, reference_width, reference_height in O.
  rewrite sqrt_4 in O. injection O as E _ _ _. lra.
Qed.

(** C8. Every anchor that [generate_anchors_reference] returns belongs to
    a ratio and a scale of its arguments, every pair has its anchor, and
    the anchor of a pair, of height [scale * sqrt ratio * base_size] and
    width [scale / sqrt ratio * base_size], spans
    [(-(width - 1) / 2, -(height - 1) / 2, (width - 1) / 2,
    (height - 1) / 2)]. With [base_size = 256], the ratio 1 and the scale
    1 the one anchor is [(-127.5, -127.5, 127.5, 127.5)]. *)
Theorem reference_anchor_geometry (base_size : Z)
    (aspect_ratios scales : list R) (anchors : mat4) :
  generate_anchors_reference base_size aspect_ratios scales = Some anchors ->
  (forall ratio scale, In ratio aspect_ratios -> In scale scales ->
     In (Row4 (- (scale / sqrt ratio * IZR base_size - 1) / 2)
              (- (scale * sqrt ratio * IZR base_size - 1) / 2)
              ((scale / sqrt ratio * IZR base_size - 1) / 2)
              ((scale * sqrt ratio * IZR base_size - 1) / 2)) anchors)
  /\ (forall a, In a anchors ->
        exists ratio scale,
          In ratio aspect_ratios /\ In scale scales
          /\ a = Row4 (- (scale / sqrt ratio * IZR base_size - 1) / 2)
                      (- (scale * sqrt ratio * IZR base_size - 1) / 2)
                      ((scale / sqrt ratio * IZR base_size - 1) / 2)
                      ((scale * sqrt ratio * IZR base_size - 1) / 2))
  /\ generate_anchors_reference 256 [1] [1]
     = Some [Row4 (-127.5) (-127.5) 127.5 127.5].
Proof.
  intros H. apply generate_anchors_reference_Some in H. subst anchors.
  split; [|split].
  - intros r s Ir Is. unfold reference_rows.
    apply (in_map (fun p => reference_anchor base_size (fst p) (snd p))
             _ (r, s)).
    now apply in_prod.
  - intros a I. unfold reference_rows in I.
    apply in_map_iff in I as ([r s] & <- & I).
    apply in_prod_iff in I as [Ir Is]. exists r, s. now repeat split.
  - rewrite generate_anchors_reference_large.
    + unfold reference_rows, reference_anchor, reference_width,
        reference_height; simpl.
      rewrite sqrt_1. repeat f_equal; lra.
    + unfold reference_width, reference_height.
      intros r s [<-|[]] [<-|[]]; rewrite sqrt_1; lra.
Qed.

Lemma reference_anchor_geometry_witness :
  generate_anchors_reference 256 [1] [1]
  = Some [Row4 (-127.5) (-127.5) 127.5 127.5]
  /\ In (Row4 (- (1 / sqrt 1 * IZR 256 - 1) / 2)
              (- (1 * sqrt 1 * IZR 256 - 1) / 2)
              ((1 / sqrt 1 * IZR 256 - 1) / 2)
              ((1 * sqrt 1 * IZR 256 - 1) / 2))
        [Row4 (-127.5) (-127.5) 127.5 127.5].
Proof.
  assert (H : generate_anchors_reference 256 [1] [1]
              = Some [Row4 (-127.5) (-127.5) 127.5 127.5]).
  { rewrite generate_anchors_reference_large.
    - unfold reference_rows, reference_anchor, reference_width,
        reference_height; simpl.
      rewrite sqrt_1. repeat f_equal; lra.
    - unfold reference_width, reference_height.
      intros r s [<-|[]] [<-|[]]; rewrite sqrt_1; lra. }
  split; [exact H|].
  exact (proj1 (reference_anchor_geometry 256 [1] [1] _ H)
           1 1 (or_introl eq_refl) (or_introl eq_refl)).
Defined.

(** ** Integers of 32 bits *)

Lemma wrap32_small (z : Z) :
  (-2147483648 <= z <= 2147483647)%Z -> wrap32 z = z.
Proof. intros H. unfold wrap32. rewrite Z.mod_small by lia. lia. Qed.

Lemma wrap32_range (z : Z) : (-2147483648 <= wrap32 z <= 2147483647)%Z.
Proof.
  unfold wrap32.
  pose proof (Z.mod_pos_bound (z + 2147483648) 4294967296 eq_refl). lia.
Qed.

Lemma in_int32_spec (z : Z) :
  in_int32 z = true <-> (-2147483648 <= z <= 2147483647)%Z.
Proof. unfold in_int32. rewrite andb_true_iff, !Z.leb_le. tauto. Qed.

Lemma astype_int32_range (x : R) :
  (-2147483648 <= astype_int32 x <= 2147483647)%Z.
Proof.
  unfold astype_int32. destruct (in_int32 (astype_int x)) eqn:E; [|lia].
  now apply in_int32_spec.
Qed.

Lemma astype_int_opp (x : R) : astype_int (- x) = (- astype_int x)%Z.
Proof.
  unfold astype_int.
  destruct (Rle_dec 0 x) as [P|N], (Rle_dec 0 (- x)) as [P'|N'].
  - assert (E : x = 0) by lra. subst x. rewrite Ropp_0.
    rewrite <- (Int_part_spec 0 0) by (simpl; lra). reflexivity.
  - now rewrite Ropp_involutive.
  - lia.
  - lra.
Qed.

Lemma astype_int_floor (x : R) (n : Z) :
  (0 <= n)%Z -> IZR n <= x < IZR n + 1 -> astype_int x = n.
Proof.
  intros P [L U]. apply IZR_le in P. unfold astype_int.
  destruct (Rle_dec 0 x) as [_|N]; [|lra].
  symmetry. apply Int_part_spec. lra.
Qed.

(** Truncation toward zero of a number and of its opposite. *)
Lemma astype_int32_floor (x : R) (n : Z) :
  (0 <= n <= 2147483647)%Z -> IZR n <= x < IZR n + 1 ->
  astype_int32 x = n /\ astype_int32 (- x) = (- n)%Z.
Proof.
  intros [P B] H. unfold astype_int32.
  rewrite astype_int_opp, (astype_int_floor x n P H).
  rewrite (proj2 (in_int32_spec n)), (proj2 (in_int32_spec (- n))) by lia.
  now split.
Qed.

Lemma row_to_int32_symmetric (r : row4) (m n : Z) :
  (0 <= m <= 2147483647)%Z -> (0 <= n <= 2147483647)%Z ->
  c0 r = - c2 r -> c1 r = - c3 r ->
  IZR m <= c2 r < IZR m + 1 -> IZR n <= c3 r < IZR n + 1 ->
  row_to_int32 r = IRow4 (- m) (- n) m n.
Proof.
  intros Rm Rn E0 E1 Hm Hn. unfold row_to_int32. rewrite E0, E1.
  destruct (astype_int32_floor _ m Rm Hm) as [-> ->].
  destruct (astype_int32_floor _ n Rn Hn) as [-> ->].
  reflexivity.
Qed.

Lemma row_to_int32_reference (base_size : Z) (ratio scale : R) (m n : Z) :
  (0 <= m <= 2147483647)%Z -> (0 <= n <= 2147483647)%Z ->
  IZR m <= (reference_width base_size ratio scale - 1) / 2 < IZR m + 1 ->
  IZR n <= (reference_height base_size ratio scale - 1) / 2 < IZR n + 1 ->
  row_to_int32 (reference_anchor base_size ratio scale)
  = IRow4 (- m) (- n) m n.
Proof.
  intros Rm Rn Hm Hn.
  apply row_to_int32_symmetric; try assumption;
    unfold reference_anchor; cbn [c0 c1 c2 c3]; lra.
Qed.

Lemma inside_row_of_int (im_shape : Z * Z) (a : irow4) :
  inside im_shape (row_of_int a) = inside_int im_shape a.
Proof.
  unfold inside, inside_int, row_of_int. cbn [c0 c1 c2 c3].
  assert (G : forall z, Rgeb (IZR z) 0 = (0 <=? z)%Z).
  { intros z. destruct (Z.leb_spec 0 z) as [H|H].
    - apply Rgeb_true. apply IZR_le in H. lra.
    - apply Rgeb_false. apply IZR_lt in H. lra. }
  assert (L : forall z w, Rltb (IZR z) (IZR w) = (z <? w)%Z).
  { intros z w. destruct (Z.ltb_spec z w) as [H|H].
    - apply Rltb_true. now apply IZR_lt.
    - apply Rltb_false. apply IZR_le in H. lra. }
  now rewrite !G, !L.
Qed.

(** ** The tiling *)

Lemma sequence_map_Some_all {A B : Type} (g : A -> B) (l : list A) :
  sequence (map (fun x => Some (g x)) l) = Some (map g l).
Proof. induction l as [|x l IH]; simpl; [reflexivity|]. now rewrite IH. Qed.

Lemma stack4_map {I : Type} (a b c d : I -> Z) (L : list I) :
  stack4 (map a L) (map b L) (map c L) (map d L)
  = Some (map (fun p => IRow4 (a p) (b p) (c p) (d p)) L).
Proof.
  unfold stack4. rewrite !length_map, Nat.eqb_refl; simpl.
  apply f_equal. induction L as [|p L IH]; simpl; [reflexivity|].
  now rewrite IH.
Qed.

Lemma add3_expand (anchor_reference shifts : imat4) :
  add3 [anchor_reference] (map (fun s => [s]) shifts)
  = Some (map (fun s => map (fun a => irow4_add a s) anchor_reference) shifts).
Proof.
  unfold add3.
  change (broadcast2 (broadcast2 irow4_add) [anchor_reference]
            (map (fun s => [s]) shifts))
    with (ew2 (broadcast2 irow4_add) (sc anchor_reference)
            (Some (map (fun s : irow4 => [s]) shifts))).
  rewrite ew2_sc_map. cbn [bind].
  rewrite <- sequence_map_Some_all. f_equal. apply map_ext. intros s.
  change (broadcast2 irow4_add anchor_reference [s])
    with (ew2 irow4_add (Some anchor_reference) (sc s)).
  rewrite <- (map_id anchor_reference) at 1.
  exact (ew2_map_sc irow4_add (fun a => a) s anchor_reference).
Qed.

Lemma generate_anchors_scope_tiled (anchor_reference : mat4) (stride : Z)
    (batch height width depth : nat) :
  generate_anchors_scope anchor_reference stride
    (batch, height, width, depth)
  = Some (tiled (map row_to_int32 anchor_reference)
            (grid_shifts stride height width)).
Proof.
  unfold generate_anchors_scope.
  pose proof (meshgrid_flat_x (range_times width stride)
                (range_times height stride)) as Ex.
  pose proof (meshgrid_flat_y (range_times width stride)
                (range_times height stride)) as Ey.
  destruct (meshgrid _ _) as [gx gy]. simpl in Ex, Ey.
  rewrite Ex, Ey, (stack4_map snd fst snd fst). cbn [bind].
  rewrite add3_expand. cbn [bind]. unfold reshape_flat, tiled, grid_shifts.
  now rewrite flat_map_concat_map.
Qed.

Lemma range_times_length (n : nat) (stride : Z) :
  length (range_times n stride) = n.
Proof. unfold range_times. now rewrite length_map, length_seq. Qed.

Lemma range_times_nth (n : nat) (stride : Z) (i : nat) :
  (i < n)%nat ->
  nth i (range_times n stride) 0%Z = wrap32 (Z.of_nat i * stride).
Proof.
  intros L. unfold range_times.
  rewrite (nth_indep _ 0%Z ((fun i => wrap32 (Z.of_nat i * stride)) 0%nat))
    by now rewrite length_map, length_seq.
  rewrite (map_nth (fun i => wrap32 (Z.of_nat i * stride))).
  now rewrite seq_nth.
Qed.

Lemma grid_shifts_length (stride : Z) (height width : nat) :
  length (grid_shifts stride height width) = (height * width)%nat.
Proof.
  unfold grid_shifts.
  now rewrite length_map, length_prod, !range_times_length.
Qed.

Lemma grid_shifts_nth (stride : Z) (height width : nat) (j : nat)
    (d : irow4) :
  (j < height * width)%nat ->
  nth j (grid_shifts stride height width) d
  = shift_of stride (j / width) (j mod width).
Proof.
  intros L. unfold grid_shifts.
  assert (Pw : (0 < width)%nat) by lia.
  assert (Lh : (j / width < height)%nat)
    by (apply Nat.Div0.div_lt_upper_bound; lia).
  assert (Lw : (j mod width < width)%nat)
    by (apply Nat.mod_upper_bound; lia).
  rewrite (nth_indep _ d
             ((fun p => IRow4 (snd p) (fst p) (snd p) (fst p)) (0%Z, 0%Z)))
    by now rewrite length_map, length_prod, !range_times_length.
  rewrite (map_nth (fun p => IRow4 (snd p) (fst p) (snd p) (fst p))).
  rewrite nth_list_prod by now rewrite !range_times_length.
  rewrite !range_times_length. cbn [fst snd].
  now rewrite !range_times_nth by assumption.
Qed.

Lemma tiled_length (anchor_reference shifts : imat4) :
  length (tiled anchor_reference shifts)
  = (length shifts * length anchor_reference)%nat.
Proof.
  unfold tiled. apply length_flat_map_uniform. intros s. apply length_map.
Qed.

Lemma tiled_nth (anchor_reference shifts : imat4) (i : nat) (d : irow4) :
  (i < length shifts * length anchor_reference)%nat ->
  nth i (tiled anchor_reference shifts) d
  = irow4_add (nth (i mod length anchor_reference) anchor_reference d)
      (nth (i / length anchor_reference) shifts d).
Proof.
  intros L. unfold tiled.
  assert (P : (0 < length anchor_reference)%nat) by lia.
  rewrite (nth_flat_map_uniform _ shifts (length anchor_reference) d)
    by (intros; apply length_map) || assumption.
  set (s := nth (i / length anchor_reference) shifts d).
  rewrite (nth_indep _ d ((fun a => irow4_add a s) d))
    by (rewrite length_map; apply Nat.mod_upper_bound; lia).
  apply (map_nth (fun a => irow4_add a s)).
Qed.

Lemma irow4_add_shift_zero (stride : Z) (r : row4) :
  irow4_add (row_to_int32 r) (shift_of stride 0 0) = row_to_int32 r.
Proof.
  unfold irow4_add, shift_of, row_to_int32. cbn [i0 i1 i2 i3].
  change (wrap32 (Z.of_nat 0 * stride)) with 0%Z.
  rewrite !Z.add_0_r.
  now rewrite !wrap32_small by apply astype_int32_range.
Qed.

(** Where no product and no sum leaves the range of int32, the anchor of
    a cell is the truncated reference anchor moved by plain addition. *)
Lemma irow4_add_shift_plain (a : irow4) (stride : Z) (y x : nat) :
  (forall v, In v [Z.of_nat x * stride; Z.of_nat y * stride;
                   i0 a + Z.of_nat x * stride; i1 a + Z.of_nat y * stride;
                   i2 a + Z.of_nat x * stride; i3 a + Z.of_nat y * stride]%Z ->
             in_int32 v = true) ->
  irow4_add a (shift_of stride y x)
  = IRow4 (i0 a + Z.of_nat x * stride) (i1 a + Z.of_nat y * stride)
          (i2 a + Z.of_nat x * stride) (i3 a + Z.of_nat y * stride).
Proof.
  intros H. unfold irow4_add, shift_of. cbn [i0 i1 i2 i3].
  assert (W : forall v, In v [Z.of_nat x * stride; Z.of_nat y * stride;
                   i0 a + Z.of_nat x * stride; i1 a + Z.of_nat y * stride;
                   i2 a + Z.of_nat x * stride; i3 a + Z.of_nat y * stride]%Z ->
                wrap32 v = v).
  { intros v I. apply wrap32_small, in_int32_spec, H, I. }
  rewrite (W (Z.of_nat x * stride)%Z), (W (Z.of_nat y * stride)%Z)
    by (simpl; tauto).
  rewrite !W by (simpl; tauto). reflexivity.
Qed.

(** ** The square roots of the default ratios *)

Lemma sqrt_2_sqr : sqrt 2 * sqrt 2 = 2.
Proof. apply sqrt_sqrt. lra. Qed.

Lemma sqrt_2_bounds : 1.41421 < sqrt 2 < 1.41422.
Proof.
  pose proof sqrt_2_sqr as S. pose proof (sqrt_pos 2) as P.
  split; apply Rnot_le_lt; intros C; nra.
Qed.

Lemma inv_sqrt_2 : / sqrt 2 = sqrt 2 / 2.
Proof.
  pose proof sqrt_2_sqr as S. pose proof sqrt_2_bounds as B.
  apply (Rmult_eq_reg_l (sqrt 2)); [|lra].
  rewrite Rinv_r by lra. lra.
Qed.

Lemma sqrt_half : sqrt 0.5 = sqrt 2 / 2.
Proof.
  replace 0.5 with (/ 2) by lra.
  rewrite sqrt_inv. apply inv_sqrt_2.
Qed.

Lemma inv_sqrt_half : / sqrt 0.5 = sqrt 2.
Proof.
  rewrite sqrt_half. pose proof sqrt_2_sqr as S.
  pose proof sqrt_2_bounds as B.
  apply (Rmult_eq_reg_l (sqrt 2 / 2)); [|lra].
  rewrite Rinv_r by lra. lra.
Qed.

Lemma reference_extent_half (scale : R) :
  reference_width 256 0.5 scale = scale * 256 * sqrt 2
  /\ reference_height 256 0.5 scale = scale * 128 * sqrt 2.
Proof.
  unfold reference_width, reference_height, Rdiv.
  rewrite inv_sqrt_half, sqrt_half. split; lra.
Qed.

Lemma reference_extent_one (scale : R) :
  reference_width 256 1 scale = scale * 256
  /\ reference_height 256 1 scale = scale * 256.
Proof.
  unfold reference_width, reference_height. rewrite sqrt_1. split; lra.
Qed.

Lemma reference_extent_two (scale : R) :
  reference_width 256 2 scale = scale * 128 * sqrt 2
  /\ reference_height 256 2 scale = scale * 256 * sqrt 2.
Proof.
  unfold reference_width, reference_height, Rdiv.
  rewrite inv_sqrt_2. split; lra.
Qed.

Ltac default_extents :=
  rewrite ?(proj1 (reference_extent_half _)),
    ?(proj2 (reference_extent_half _)),
    ?(proj1 (reference_extent_one _)), ?(proj2 (reference_extent_one _)),
    ?(proj1 (reference_extent_two _)), ?(proj2 (reference_extent_two _)).

Lemma generate_anchors_reference_default :
  generate_anchors_reference anchor_base_size anchor_ratios anchor_scales
  = Some (reference_rows anchor_base_size anchor_ratios anchor_scales).
Proof.
  apply generate_anchors_reference_large.
  unfold anchor_base_size, anchor_ratios, anchor_scales.
  pose proof sqrt_2_bounds as B.
  intros r s [<-|[<-|[<-|[]]]] Is;
    [ destruct (reference_extent_half s) as [-> ->]
    | destruct (reference_extent_one s) as [-> ->]
    | destruct (reference_extent_two s) as [-> ->] ];
    destruct Is as [<-|[<-|[<-|[<-|[<-|[]]]]]]; lra.
Qed.

Ltac truncated m n :=
  apply (row_to_int32_reference 256 _ _ m n); [lia | lia | | ];
  default_extents; lra.

(** The reference anchors of [generate_anchors], truncated. *)
Lemma default_reference_truncated :
  map row_to_int32
    (reference_rows anchor_base_size anchor_ratios anchor_scales)
  = default_reference_int.
Proof.
  pose proof sqrt_2_bounds as B.
  unfold reference_rows, anchor_base_size, anchor_ratios, anchor_scales,
    default_reference_int.
  cbn [list_prod map app fst snd].
  apply f_equal2; [truncated 22%Z 10%Z|].
  apply f_equal2; [truncated 44%Z 22%Z|].
  apply f_equal2; [truncated 90%Z 44%Z|].
  apply f_equal2; [truncated 180%Z 90%Z|].
  apply f_equal2; [truncated 361%Z 180%Z|].
  apply f_equal2; [truncated 15%Z 15%Z|].
  apply f_equal2; [truncated 31%Z 31%Z|].
  apply f_equal2; [truncated 63%Z 63%Z|].
  apply f_equal2; [truncated 127%Z 127%Z|].
  apply f_equal2; [truncated 255%Z 255%Z|].
  apply f_equal2; [truncated 10%Z 22%Z|].
  apply f_equal2; [truncated 22%Z 44%Z|].
  apply f_equal2; [truncated 44%Z 90%Z|].
  apply f_equal2; [truncated 90%Z 180%Z|].
  apply f_equal2; [truncated 180%Z 361%Z|].
  reflexivity.
Qed.

Lemma generate_anchors_tiled (batch height width depth : nat) :
  generate_anchors (batch, height, width, depth)
  = Some (tiled default_reference_int
            (grid_shifts anchor_stride height width)).
Proof.
  unfold generate_anchors. rewrite generate_anchors_reference_default.
  cbn [bind]. rewrite generate_anchors_scope_tiled.
  now rewrite default_reference_truncated.
Qed.

(** C3, as amended. Over a feature map of [height] rows and [width]
    columns, the tiling of [R] reference anchors returns
    [height * width * R] anchors of integers, one block of [R] per cell,
    the cells row after row: anchor [i] is the reference anchor [i mod R],
    truncated toward zero to int32, translated by the shift of cell
    [i / R], which lies in row [(i / R) / width] and column
    [(i / R) mod width] and whose shift is the stride times the column
    along x and the stride times the row along y, in the arithmetic of
    int32; where no product and no sum leaves the range of int32 the
    translation is plain addition. On a feature map that is not empty the
    first [R] anchors are the truncated reference anchors.
    [generate_anchors] is this tiling, at the stride 16, of its 15
    reference anchors, whose truncations are [default_reference_int]. *)
Theorem generate_anchors_tiling (anchor_reference : mat4) (stride : Z)
    (batch height width depth : nat) :
  exists all_anchors,
    generate_anchors_scope anchor_reference stride
      (batch, height, width, depth) = Some all_anchors
    /\ length all_anchors = (height * width * length anchor_reference)%nat
    /\ (forall i, (i < height * width * length anchor_reference)%nat ->
          nth i all_anchors (IRow4 0 0 0 0)
          = irow4_add
              (row_to_int32
                 (nth (i mod length anchor_reference) anchor_reference
                    (Row4 0 0 0 0)))
              (shift_of stride (i / length anchor_reference / width)
                 ((i / length anchor_reference) mod width)))
    /\ (forall y x r,
          (y < height)%nat -> (x < width)%nat ->
          (r < length anchor_reference)%nat ->
          let a := row_to_int32 (nth r anchor_reference (Row4 0 0 0 0)) in
          nth ((y * width + x) * length anchor_reference + r) all_anchors
            (IRow4 0 0 0 0)
          = irow4_add a (shift_of stride y x)
          /\ ((forall v,
                 In v [Z.of_nat x * stride; Z.of_nat y * stride;
                       i0 a + Z.of_nat x * stride;
                       i1 a + Z.of_nat y * stride;
                       i2 a + Z.of_nat x * stride;
                       i3 a + Z.of_nat y * stride]%Z ->
                 in_int32 v = true) ->
              irow4_add a (shift_of stride y x)
              = IRow4 (i0 a + Z.of_nat x * stride)
                      (i1 a + Z.of_nat y * stride)
                      (i2 a + Z.of_nat x * stride)
                      (i3 a + Z.of_nat y * stride)))
    /\ ((0 < height * width)%nat ->
        firstn (length anchor_reference) all_anchors
        = map row_to_int32 anchor_reference)
    /\ (exists default_reference,
          generate_anchors_reference anchor_base_size anchor_ratios
            anchor_scales = Some default_reference
          /\ length default_reference = 15%nat
          /\ map row_to_int32 default_reference = default_reference_int
          /\ generate_anchors (batch, height, width, depth)
             = generate_anchors_scope default_reference anchor_stride
                 (batch, height, width, depth)).
Proof.
  exists (tiled (map row_to_int32 anchor_reference)
            (grid_shifts stride height width)).
  set (R := length anchor_reference).
  assert (N : forall i, (i < height * width * R)%nat ->
            nth i (tiled (map row_to_int32 anchor_reference)
                     (grid_shifts stride height width)) (IRow4 0 0 0 0)
            = irow4_add
                (row_to_int32 (nth (i mod R) anchor_reference (Row4 0 0 0 0)))
                (shift_of stride (i / R / width) ((i / R) mod width))).
  { intros i L. subst R.
    rewrite tiled_nth by now rewrite grid_shifts_length, length_map.
    rewrite length_map.
    rewrite grid_shifts_nth
      by (apply Nat.Div0.div_lt_upper_bound; lia).
    f_equal.
    rewrite (nth_indep _ (IRow4 0 0 0 0) (row_to_int32 (Row4 0 0 0 0)))
      by (rewrite length_map; apply Nat.mod_upper_bound; lia).
    apply map_nth. }
  split; [apply generate_anchors_scope_tiled|].
  split; [now rewrite tiled_length, grid_shifts_length, length_map|].
  split; [exact N|]. split; [|split].
  - intros y x r Ly Lx Lr a. split; [|apply irow4_add_shift_plain].
    assert (Lc : (y * width + x + 1 <= height * width)%nat) by nia.
    apply (Nat.mul_le_mono_r _ _ R) in Lc.
    assert (Li : ((y * width + x) * R + r < height * width * R)%nat) by lia.
    rewrite (N _ Li).
    rewrite Nat.div_add_l, (Nat.div_small r R), Nat.add_0_r by lia.
    replace (((y * width + x) * R + r) mod R) with r
      by (rewrite Nat.add_comm, Nat.Div0.mod_add;
          symmetry; now apply Nat.mod_small).
    rewrite Nat.div_add_l, (Nat.div_small x width), Nat.add_0_r by lia.
    replace ((y * width + x) mod width) with x
      by (rewrite Nat.add_comm, Nat.Div0.mod_add;
          symmetry; now apply Nat.mod_small).
    reflexivity.
  - intros P. unfold tiled, grid_shifts.
    destruct height as [|h]; [lia|]. destruct width as [|w]; [lia|].
    unfold range_times. cbn [seq map list_prod app flat_map fst snd].
    rewrite firstn_app, length_map, length_map. subst R.
    rewrite Nat.sub_diag, firstn_O, app_nil_r.
    rewrite firstn_all2 by now rewrite !length_map.
    rewrite map_map. apply map_ext. intros r.
    apply (irow4_add_shift_zero stride).
  - exists (reference_rows anchor_base_size anchor_ratios anchor_scales).
    split; [apply generate_anchors_reference_default|].
    split; [now rewrite reference_rows_length|].
    split; [apply default_reference_truncated|].
    rewrite generate_anchors_tiled, generate_anchors_scope_tiled.
    now rewrite default_reference_truncated.
Qed.

Lemma generate_anchors_tiling_witness :
  generate_anchors_scope [Row4 (-127.5) (-127.5) 127.5 127.5] 16
    (1, 1, 1, 1024)%nat
  = Some [IRow4 (-127) (-127) 127 127].
Proof.
  destruct (generate_anchors_tiling [Row4 (-127.5) (-127.5) 127.5 127.5] 16
              1 1 1 1024) as (all & H & L & _ & _ & F & _).
  rewrite H. apply f_equal.
  destruct all as [|a [|b all]]; try discriminate L.
  assert (P : (0 < 1 * 1)%nat) by (simpl; lia).
  specialize (F P). cbn [length firstn map] in F. rewrite F.
  apply f_equal2; [|reflexivity].
  apply (row_to_int32_symmetric _ 127 127); cbn [c0 c1 c2 c3]; lra || lia.
Defined.

(** C3 as stated fails: the anchors are integers. The single reference
    anchor of the base size 256, the ratio 1 and the scale 1 is
    [(-127.5, -127.5, 127.5, 127.5)], and its tiling over one cell is the
    anchor [(-127, -127, 127, 127)]; of the 15 anchors that
    [generate_anchors] returns for one cell the first is
    [(-22, -10, 22, 10)], while the first reference anchor is wider than 45
    and higher than 22. *)
Lemma generate_anchors_truncates :
  (exists anchor_reference all_anchors,
     generate_anchors_reference 256 [1] [1] = Some anchor_reference
     /\ generate_anchors_scope anchor_reference 16 (1, 1, 1, 1024)%nat
        = Some all_anchors
     /\ anchor_reference = [Row4 (-127.5) (-127.5) 127.5 127.5]
     /\ all_anchors = [IRow4 (-127) (-127) 127 127]
     /\ map row_of_int (firstn (length anchor_reference) all_anchors)
        <> anchor_reference)
  /\ (exists default_reference all_anchors,
        generate_anchors_reference anchor_base_size anchor_ratios
          anchor_scales = Some default_reference
        /\ generate_anchors (1, 1, 1, 1024)%nat = Some all_anchors
        /\ all_anchors = default_reference_int
        /\ map row_of_int (firstn (length default_reference) all_anchors)
           <> default_reference).
Proof.
  split.
  - exists [Row4 (-127.5) (-127.5) 127.5 127.5],
      [IRow4 (-127) (-127) 127 127].
    assert (G : generate_anchors_reference 256 [1] [1]
                = Some [Row4 (-127.5) (-127.5) 127.5 127.5]).
    { rewrite generate_anchors_reference_large.
      - unfold reference_rows, reference_anchor, reference_width,
          reference_height; simpl.
        rewrite sqrt_1. repeat f_equal; lra.
      - unfold reference_width, reference_height.
        intros r s [<-|[]] [<-|[]]; rewrite sqrt_1; lra. }
    split; [exact G|].
    split.
    { rewrite generate_anchors_scope_tiled. apply f_equal.
      cbn [map]. 
      rewrite (row_to_int32_symmetric _ 127 127);
        cbn [c0 c1 c2 c3]; try lra; try lia.
      reflexivity. }
    split; [reflexivity|]. split; [reflexivity|].
    cbn [length firstn map]. unfold row_of_int. cbn [i0 i1 i2 i3].
    intros E. injection E as E _. lra.
  - exists (reference_rows anchor_base_size anchor_ratios anchor_scales),
      default_reference_int.
    split; [apply generate_anchors_reference_default|].
    split.
    { rewrite generate_anchors_tiled. reflexivity. }
    split; [reflexivity|].
    rewrite reference_rows_length.
    unfold reference_rows, anchor_base_size, anchor_ratios, anchor_scales,
      default_reference_int.
    cbn [length Nat.mul Nat.add firstn list_prod map app fst snd].
    unfold row_of_int at 1. cbn [i0 i1 i2 i3].
    unfold reference_anchor.
    intros E. injection E as E _. revert E. default_extents.
    pose proof sqrt_2_bounds as B. lra.
Qed.

(** ** The selection on an image of 32 by 48 pixels *)

Ltac decide_comparisons :=
  repeat match goal with
    | |- context [Rgeb ?a ?b] =>
        first [ rewrite (proj2 (Rgeb_true a b)) by lra
              | rewrite (proj2 (Rgeb_false a b)) by lra ]
    | |- context [Rltb ?a ?b] =>
        first [ rewrite (proj2 (Rltb_true a b)) by lra
              | rewrite (proj2 (Rltb_false a b)) by lra ]
    | |- context [Rgtb ?a ?b] =>
        first [ rewrite (proj2 (Rgtb_true a b)) by lra
              | rewrite (proj2 (Rgtb_false a b)) by lra ]
    end.

Ltac decide_extrema :=
  repeat match goal with
    | |- context [Rmax ?a ?b] =>
        first [ rewrite (Rmax_left a b) by lra
              | rewrite (Rmax_right a b) by lra ]
    | |- context [Rmin ?a ?b] =>
        first [ rewrite (Rmin_left a b) by lra
              | rewrite (Rmin_right a b) by lra ]
    end.

Lemma mask_select_map {A B : Type} (f : A -> B) (t : list A)
    (m : list bool) :
  mask_select (map f t) m = map f (mask_select t m).
Proof.
  revert m; induction t as [|x t IH]; intros [|b m]; simpl; try reflexivity.
  destruct b; simpl; now rewrite IH.
Qed.

Lemma small_anchors :
  generate_anchors small_feature_map_shape
  = Some (tiled default_reference_int (grid_shifts anchor_stride 2 3)).
Proof. apply generate_anchors_tiled. Qed.

Lemma small_anchors_mask :
  map (inside small_im_shape) small_all_anchors = small_mask.
Proof.
  unfold small_all_anchors. rewrite map_map.
  rewrite (map_ext _ _ (inside_row_of_int small_im_shape)).
  vm_compute. reflexivity.
Qed.

Lemma small_inside_anchors :
  mask_select small_all_anchors small_mask
  = [small_first; small_second_anchor].
Proof.
  unfold small_all_anchors. rewrite mask_select_map.
  replace (mask_select (tiled default_reference_int
                          (grid_shifts anchor_stride 2 3)) small_mask)
    with [IRow4 1 1 31 31; IRow4 17 1 47 31] by (vm_compute; reflexivity).
  reflexivity.
Qed.

Lemma small_filter_outside :
  filter_outside_anchors small_im_shape small_all_anchors small_bbox_pred
    (map snd small_cls_prob)
  = Some ([small_first; small_second_anchor],
          [Row4 0 0 0 0; Row4 (-0.34375) 0 0 0], [0.9; 0.8]).
Proof.
  rewrite filter_outside_anchors_masks by reflexivity.
  rewrite small_anchors_mask, small_inside_anchors.
  unfold small_mask, small_bbox_pred, small_cls_prob.
  cbn [map app fst snd repeat mask_select]. reflexivity.
Qed.

Lemma small_decode :
  decode [small_first; small_second_anchor]
    [Row4 0 0 0 0; Row4 (-0.34375) 0 0 0] None
  = Some [small_first; small_second].
Proof.
  rewrite decode_rows by reflexivity.
  unfold zip_with. cbn [combine map fst snd default_variances].
  rewrite decode_row_zero.
  unfold decode_row, small_second_anchor, small_second, width_of, height_of.
  cbn [c0 c1 c2 c3 fst snd]. rewrite Rmult_0_l, exp_0.
  repeat f_equal; lra.
Qed.

Lemma small_positive_area :
  map positive_area [small_first; small_second] = [true; true].
Proof.
  unfold positive_area, small_first, small_second.
  cbn [map c0 c1 c2 c3]. decide_extrema. decide_comparisons. reflexivity.
Qed.

Lemma small_candidates :
  candidate_proposals small_im_shape small_all_anchors small_bbox_pred
    (map snd small_cls_prob)
  = Some ([0.9; 0.8], [small_first; small_second]).
Proof.
  unfold candidate_proposals. rewrite small_filter_outside. cbn [bind].
  rewrite small_decode. cbn [bind].
  rewrite filter_proposals_masks by reflexivity.
  rewrite small_positive_area. reflexivity.
Qed.

Lemma small_argsort : TF.argsort_desc [0.9; 0.8] = [0; 1]%nat.
Proof.
  unfold TF.argsort_desc.
  cbn [length seq fold_right TF.insert_desc nth].
  decide_comparisons. reflexivity.
Qed.

Lemma small_top (pre_nms_top_n : nat) (p q : row4) :
  (2 <= pre_nms_top_n)%nat ->
  top_proposals pre_nms_top_n [0.9; 0.8] [p; q] = Some ([p; q], [0.9; 0.8]).
Proof.
  intros L. unfold top_proposals. rewrite top_k_min.
  cbn [length]. rewrite Nat.min_r by assumption.
  rewrite small_argsort. reflexivity.
Qed.

Lemma quotient_eq (a b c d : R) :
  b <> 0 -> d <> 0 -> a * d = c * b -> a / b = c / d.
Proof.
  intros Nb Nd E. apply (Rmult_eq_reg_r (b * d)).
  - replace (a / b * (b * d)) with (a * d) by (field; assumption).
    replace (c / d * (b * d)) with (c * b) by (field; assumption).
    exact E.
  - now apply Rmult_integral_contrapositive.
Qed.

(** The two boxes overlap by 24.65625 / 35.34375 as the suppression
    measures it, which is below 0.7, and by 25.65625 / 36.34375 under the
    inclusive convention, which is above 0.7. *)
Lemma small_overlap :
  TF.iou (swap_xy small_second) (swap_xy small_first)
  = 24.65625 / 35.34375.
Proof.
  unfold TF.iou, swap_xy, small_first, small_second. cbn [c0 c1 c2 c3].
  decide_extrema.
  destruct (Rle_dec _ 0) as [C|_]; [lra|].
  destruct (Rle_dec _ 0) as [C|_]; [lra|].
  decide_extrema. apply quotient_eq; lra.
Qed.

Lemma small_iou_inclusive :
  iou_inclusive small_first small_second = 25.65625 / 36.34375.
Proof.
  unfold iou_inclusive, intersection_inclusive, width_of, height_of,
    small_first, small_second.
  cbn [c0 c1 c2 c3]. decide_extrema. apply quotient_eq; lra.
Qed.

(** The suppression of two ranked boxes whose overlap is known. *)
Lemma nms_scope_pair (post_nms_top_n : nat) (nms_threshold : R)
    (p q : row4) :
  (2 <= post_nms_top_n)%nat -> 0 <= nms_threshold <= 1 ->
  nms_scope post_nms_top_n nms_threshold [p; q] [0.9; 0.8]
  = Some (if Rgtb (TF.iou (swap_xy q) (swap_xy p)) nms_threshold
          then ([p], [0.9]) else ([p; q], [0.9; 0.8])).
Proof.
  intros L T. rewrite nms_scope_gather. unfold TF.non_max_suppression.
  rewrite change_order_map. cbn [map length Nat.eqb].
  rewrite (proj2 (threshold_check nms_threshold) T).
  rewrite small_argsort. cbn [bind].
  destruct post_nms_top_n as [|[|n]]; try lia.
  cbn [TF.nms_sweep length Nat.leb existsb app nth orb].
  destruct (Rgtb _ nms_threshold); reflexivity.
Qed.

Lemma small_nms (post_nms_top_n : nat) (nms_threshold : R) :
  (2 <= post_nms_top_n)%nat -> 24.65625 / 35.34375 <= nms_threshold <= 1 ->
  nms_scope post_nms_top_n nms_threshold [small_first; small_second]
    [0.9; 0.8]
  = Some ([small_first; small_second], [0.9; 0.8]).
Proof.
  intros L T. rewrite nms_scope_pair by (assumption || lra).
  rewrite small_overlap.
  now rewrite (proj2 (Rgtb_false _ _) (proj1 T)).
Qed.

Lemma small_proposals (pre_nms_top_n post_nms_top_n : nat)
    (nms_threshold : R) :
  (2 <= pre_nms_top_n)%nat -> (2 <= post_nms_top_n)%nat ->
  24.65625 / 35.34375 <= nms_threshold <= 1 ->
  generate_proposals pre_nms_top_n post_nms_top_n nms_threshold
    small_im_shape small_all_anchors small_bbox_pred
    (map snd small_cls_prob)
  = Some ([small_first; small_second], [0.9; 0.8]).
Proof.
  intros Lpre Lpost T. unfold generate_proposals.
  rewrite small_candidates. cbn [bind].
  rewrite small_top by assumption. cbn [bind].
  now apply small_nms.
Qed.

Lemma small_generate_proposals :
  generate_proposals 12000 2000 0.7 small_im_shape small_all_anchors
    small_bbox_pred (map snd small_cls_prob)
  = Some ([small_first; small_second], [0.9; 0.8]).
Proof.
  apply small_proposals; [| |lra].
  - apply (Nat.leb_le 2 12000). reflexivity.
  - apply (Nat.leb_le 2 2000). reflexivity.
Qed.

Lemma small_build_rpn :
  build_rpn small_im_shape small_feature_map_shape small_cls_prob
    small_bbox_pred
  = Some ([small_first; small_second], [0.9; 0.8]).
Proof.
  rewrite build_rpn_generate_proposals, small_anchors. cbn [bind].
  exact small_generate_proposals.
Qed.

Lemma nms_overlap_bound_witness :
  overlap small_first small_second <= 0.7.
Proof.
  apply (nms_overlap_bound 12000 2000 0.7 small_im_shape small_all_anchors
           small_bbox_pred (map snd small_cls_prob)
           [small_first; small_second] [0.9; 0.8] 0 1).
  - exact small_generate_proposals.
  - discriminate.
  - simpl; lia.
  - simpl; lia.
Defined.

(** Two boxes, ten wide and seventeen high, of which the second lies
    three below the first: the suppression measures their overlap as
    140 / 200, which is the threshold 0.7. *)
Lemma level_overlap :
  TF.iou (swap_xy (Row4 0 3 10 20)) (swap_xy (Row4 0 0 10 17)) = 0.7.
Proof.
  unfold TF.iou, swap_xy. cbn [c0 c1 c2 c3].
  decide_extrema.
  destruct (Rle_dec _ 0) as [C|_]; [lra|].
  destruct (Rle_dec _ 0) as [C|_]; [lra|].
  decide_extrema. lra.
Qed.

(** C2 as stated fails, on both counts. On the image of 32 by 48 pixels
    [build_rpn] returns the two proposals [(1, 1, 31, 31)] and
    [(6.34375, 1, 36.34375, 31)], whose intersection over union under
    the inclusive convention is [25.65625 / 36.34375], above the
    threshold 0.7: the suppression measures [24.65625 / 35.34375] and
    keeps both. And the suppression block of [build_rpn], with its
    threshold 0.7, returns both of two boxes whose overlap, as the
    suppression measures it, is the threshold itself: a box is dropped
    only when its overlap exceeds the threshold. *)
Lemma build_rpn_inclusive_overlap :
  (exists p q scores,
     build_rpn small_im_shape small_feature_map_shape small_cls_prob
       small_bbox_pred = Some ([p; q], scores)
     /\ p = Row4 1 1 31 31
     /\ q = Row4 6.34375 1 36.34375 31
     /\ p <> q
     /\ overlap p q <= 0.7
     /\ ~ iou_inclusive p q < 0.7)
  /\ (exists p q scores,
        nms_scope 2000 0.7 [p; q] scores = Some ([p; q], scores)
        /\ p = Row4 0 0 10 17
        /\ q = Row4 0 3 10 20
        /\ p <> q
        /\ ~ overlap p q < 0.7).
Proof.
  split.
  - exists small_first, small_second, [0.9; 0.8].
    split; [exact small_build_rpn|].
    split; [reflexivity|]. split; [reflexivity|]. split; [|split].
    + unfold small_first, small_second. intros E. injection E as E1 E2. lra.
    + unfold overlap. rewrite iou_sym, small_overlap. lra.
    + rewrite small_iou_inclusive. lra.
  - exists (Row4 0 0 10 17), (Row4 0 3 10 20), [0.9; 0.8].
    split; [|split; [reflexivity|split; [reflexivity|split]]].
    + rewrite nms_scope_pair;
        [|apply (Nat.leb_le 2 2000); reflexivity|lra].
      rewrite level_overlap.
      rewrite (proj2 (Rgtb_false 0.7 0.7)) by lra. reflexivity.
    + intros E. injection E as E1 E2. lra.
    + unfold overlap. rewrite iou_sym, level_overlap. lra.
Qed.

(** * Further properties of the code *)

(** ** The codec in the other direction *)

Lemma decode_row_extent (v : R * R) (a d : row4) :
  width_of (decode_row v a d) = exp (c2 d * snd v) * width_of a
  /\ height_of (decode_row v a d) = exp (c3 d * snd v) * height_of a.
Proof.
  unfold decode_row, width_of, height_of; simpl. split; lra.
Qed.

Lemma decode_row_positive (v : R * R) (a d : row4) :
  positive_size a -> positive_size (decode_row v a d).
Proof.
  intros [W H]. unfold positive_size.
  destruct (decode_row_extent v a d) as [-> ->].
  split; apply Rmult_lt_0_compat; try assumption; apply exp_pos.
Qed.

Lemma encode_decode_row (v0 v1 : R) (a d : row4) :
  positive_size a -> v0 <> 0 -> v1 <> 0 ->
  encode_row (v0, v1) a (decode_row (v0, v1) a d) = d.
Proof.
  intros [W H] V0 V1.
  destruct (decode_row_extent (v0, v1) a d) as [Ew Eh].
  unfold encode_row. rewrite Ew, Eh. cbn [fst snd].
  destruct a as [x1 y1 x2 y2], d as [dx dy dw dh].
  unfold decode_row, width_of, height_of in *. cbn [c0 c1 c2 c3 fst snd] in *.
  set (aw := x2 - x1 + 1) in *. set (ah := y2 - y1 + 1) in *.
  assert (Lw : ln (exp (dw * v1) * aw / aw) / v1 = dw).
  { replace (exp (dw * v1) * aw / aw) with (exp (dw * v1)) by (field; lra).
    rewrite ln_exp. field; assumption. }
  assert (Lh : ln (exp (dh * v1) * ah / ah) / v1 = dh).
  { replace (exp (dh * v1) * ah / ah) with (exp (dh * v1)) by (field; lra).
    rewrite ln_exp. field; assumption. }
  rewrite Lw, Lh. f_equal; field; lra.
Qed.

(** X1. Encoding what [decode] returned gives back the offsets: for
    anchors [A] of positive inclusive width and height, offsets [D] with
    as many rows and variances different from zero, [decode] returns
    boxes [B] of positive inclusive width and height, and
    [encode (A, B)] is [D]. *)
Theorem encode_decode (A D : mat4) (variances : option (R * R)) :
  length A = length D ->
  Forall positive_size A ->
  fst (default_variances variances) <> 0 ->
  snd (default_variances variances) <> 0 ->
  exists B,
    decode A D variances = Some B
    /\ Forall positive_size B
    /\ encode A B variances = Some D.
Proof.
  intros E PA V0 V1. rewrite Forall_forall in PA.
  exists (zip_with (decode_row (default_variances variances)) A D).
  split; [now apply decode_rows|]. split.
  - apply Forall_forall. intros b I. unfold zip_with in I.
    apply in_map_iff in I as ([a d] & <- & I).
    apply decode_row_positive, PA. eapply in_combine_l; eauto.
  - rewrite encode_rows by (now rewrite zip_with_length).
    apply f_equal. rewrite zip_with_zip_with_left.
    rewrite <- (zip_with_snd A D E) at 2.
    apply zip_with_ext_in. intros a d I.
    destruct (default_variances variances) as [v0 v1]; simpl in *.
    apply encode_decode_row; try assumption.
    apply PA. eapply in_combine_l; eauto.
Qed.

Lemma encode_decode_witness :
  exists B,
    decode [Row4 0 0 9 9] [Row4 0.5 (-0.5) 1 2] (Some (0.1, 0.2)) = Some B
    /\ Forall positive_size B
    /\ encode [Row4 0 0 9 9] B (Some (0.1, 0.2))
       = Some [Row4 0.5 (-0.5) 1 2].
Proof.
  apply (encode_decode [Row4 0 0 9 9] [Row4 0.5 (-0.5) 1 2]
           (Some (0.1, 0.2))); try reflexivity;
    try (repeat constructor; unfold width_of, height_of; simpl; lra);
    simpl; lra.
Defined.

Lemma encode_row_same (v0 v1 : R) (a : row4) :
  positive_size a -> v0 <> 0 -> v1 <> 0 ->
  encode_row (v0, v1) a a = Row4 0 0 0 0.
Proof.
  intros [W H] V0 V1. unfold encode_row. cbn [fst snd].
  replace (width_of a / width_of a) with 1 by (field; lra).
  replace (height_of a / height_of a) with 1 by (field; lra).
  rewrite ln_1. f_equal; field; lra.
Qed.

(** X2. The offsets of boxes against themselves are zero: for boxes [A]
    of positive inclusive width and height and variances different from
    zero, [encode (A, A)] is the array of zero rows. *)
Theorem encode_same (A : mat4) (variances : option (R * R)) :
  Forall positive_size A ->
  fst (default_variances variances) <> 0 ->
  snd (default_variances variances) <> 0 ->
  encode A A variances = Some (map (fun _ => Row4 0 0 0 0) A).
Proof.
  intros PA V0 V1. rewrite encode_rows by reflexivity. apply f_equal.
  destruct (default_variances variances) as [v0 v1]; simpl in *.
  unfold zip_with. induction PA as [|a A Pa PA IH]; simpl; [reflexivity|].
  now rewrite encode_row_same, IH.
Qed.

Lemma encode_same_witness :
  encode [Row4 0 0 9 9; Row4 1 2 3 4] [Row4 0 0 9 9; Row4 1 2 3 4] None
  = Some [Row4 0 0 0 0; Row4 0 0 0 0].
Proof.
  apply (encode_same [Row4 0 0 9 9; Row4 1 2 3 4] None);
    try (repeat constructor; unfold width_of, height_of; simpl; lra);
    simpl; lra.
Defined.

(** ** Arrays whose row counts differ *)

Lemma Some_singleton {A : Type} (x : A) : Some [x] = sc x.
Proof. reflexivity. Qed.

Lemma ew2_sc_sc {A B C : Type} (f : A -> B -> C) (a : A) (b : B) :
  ew2 f (sc a) (sc b) = sc (f a b).
Proof. reflexivity. Qed.

Lemma ew1_sc {A B : Type} (f : A -> B) (a : A) : ew1 f (sc a) = sc (f a).
Proof. reflexivity. Qed.

Lemma broadcast2_mismatch {A B C : Type} (f : A -> B -> C)
    (a : list A) (b : list B) :
  length a <> length b -> length a <> 1%nat -> length b <> 1%nat ->
  broadcast2 f a b = None.
Proof.
  intros N Na Nb. unfold broadcast2.
  destruct (Nat.eqb_spec (length a) (length b)); [contradiction|].
  destruct a as [|x [|x' a]], b as [|y [|y' b]]; simpl in *;
    try reflexivity; congruence.
Qed.

Lemma ew2_mismatch {I J A B C : Type} (f : A -> B -> C) (g : I -> A)
    (h : J -> B) (L : list I) (M : list J) :
  length L <> length M -> length L <> 1%nat -> length M <> 1%nat ->
  ew2 f (Some (map g L)) (Some (map h M)) = None.
Proof.
  intros N NL NM. unfold ew2. cbn [bind].
  apply broadcast2_mismatch; now rewrite ?length_map.
Qed.

Ltac columns_sc :=
  repeat first
    [ rewrite ew2_map_map | rewrite ew2_map_sc | rewrite ew2_sc_map
    | rewrite ew2_sc_sc | rewrite ew1_sc
    | rewrite ew1_map | rewrite concat4_map ].

(** X3. [decode] on arrays whose row counts differ: it raises exactly
    when the counts differ and neither is one; one anchor is decoded
    against every row of offsets, and one row of offsets against every
    anchor. *)
Theorem decode_shapes (roi deltas : mat4) (variances : option (R * R)) :
  (decode roi deltas variances = None
   <-> length roi <> length deltas /\ length roi <> 1%nat
       /\ length deltas <> 1%nat)
  /\ (forall a,
        decode [a] deltas variances
        = Some (map (decode_row (default_variances variances) a) deltas))
  /\ (forall d,
        decode roi [d] variances
        = Some (map (fun a => decode_row (default_variances variances) a d)
                  roi)).
Proof.
  assert (One : forall a,
            decode [a] deltas variances
            = Some (map (decode_row (default_variances variances) a) deltas)).
  { intros a. unfold decode, get_width_upright, split4. cbn [map].
    rewrite !Some_singleton. cbv zeta. columns_sc. reflexivity. }
  assert (Row : forall d,
            decode roi [d] variances
            = Some (map (fun a => decode_row (default_variances variances) a d)
                      roi)).
  { intros d. unfold decode, get_width_upright, split4. cbn [map].
    rewrite !Some_singleton. cbv zeta. columns_sc. reflexivity. }
  split; [|split; assumption].
  destruct (Nat.eq_dec (length roi) (length deltas)) as [E|N].
  { rewrite decode_rows by assumption. split; [discriminate|tauto]. }
  destruct (Nat.eq_dec (length roi) 1) as [E1|N1].
  { destruct roi as [|a [|b roi]]; try discriminate.
    rewrite One. split; [discriminate|tauto]. }
  destruct (Nat.eq_dec (length deltas) 1) as [E2|N2].
  { destruct deltas as [|d [|e deltas]]; try discriminate.
    rewrite Row. split; [discriminate|tauto]. }
  split; [tauto|intros _].
  unfold decode, get_width_upright, split4. cbv zeta. columns.
  rewrite (ew2_mismatch Rmult c0 _ deltas roi) by congruence.
  reflexivity.
Qed.

(** X4. [encode] on arrays whose row counts differ: it raises exactly
    when the counts differ and neither is one; every box is encoded
    against a single anchor, and a single box against every anchor. *)
Theorem encode_shapes (bboxes gt_boxes : mat4) (variances : option (R * R)) :
  (encode bboxes gt_boxes variances = None
   <-> length bboxes <> length gt_boxes /\ length bboxes <> 1%nat
       /\ length gt_boxes <> 1%nat)
  /\ (forall a,
        encode [a] gt_boxes variances
        = Some (map (encode_row (default_variances variances) a) gt_boxes))
  /\ (forall g,
        encode bboxes [g] variances
        = Some (map (fun a => encode_row (default_variances variances) a g)
                  bboxes)).
Proof.
  assert (One : forall a,
            encode [a] gt_boxes variances
            = Some (map (encode_row (default_variances variances) a)
                      gt_boxes)).
  { intros a. unfold encode, get_width_upright, split4. cbn [map].
    rewrite !Some_singleton. cbv zeta. columns_sc. reflexivity. }
  assert (Row : forall g,
            encode bboxes [g] variances
            = Some (map (fun a => encode_row (default_variances variances) a g)
                      bboxes)).
  { intros g. unfold encode, get_width_upright, split4. cbn [map].
    rewrite !Some_singleton. cbv zeta. columns_sc. reflexivity. }
  split; [|split; assumption].
  destruct (Nat.eq_dec (length bboxes) (length gt_boxes)) as [E|N].
  { rewrite encode_rows by assumption. split; [discriminate|tauto]. }
  destruct (Nat.eq_dec (length bboxes) 1) as [E1|N1].
  { destruct bboxes as [|a [|b bboxes]]; try discriminate.
    rewrite One. split; [discriminate|tauto]. }
  destruct (Nat.eq_dec (length gt_boxes) 1) as [E2|N2].
  { destruct gt_boxes as [|d [|e gt_boxes]]; try discriminate.
    rewrite Row. split; [discriminate|tauto]. }
  split; [tauto|intros _].
  unfold encode, get_width_upright, split4. cbv zeta. columns.
  rewrite (ew2_mismatch Rminus _ _ gt_boxes bboxes) by congruence.
  reflexivity.
Qed.

(** ** The overlap measure *)

Lemma extent_overlap_bounds (lo1 hi1 lo2 hi2 : R) :
  lo1 <= hi1 -> lo2 <= hi2 ->
  0 <= Rmax (Rmin hi1 hi2 - Rmax lo1 lo2) 0
  /\ Rmax (Rmin hi1 hi2 - Rmax lo1 lo2) 0 <= hi1 - lo1
  /\ Rmax (Rmin hi1 hi2 - Rmax lo1 lo2) 0 <= hi2 - lo2.
Proof.
  intros H1 H2.
  pose proof (Rmin_l hi1 hi2). pose proof (Rmin_r hi1 hi2).
  pose proof (Rmax_l lo1 lo2). pose proof (Rmax_r lo1 lo2).
  repeat split.
  - apply Rmax_r.
  - apply Rmax_lub; lra.
  - apply Rmax_lub; lra.
Qed.

Lemma Rmin_le_Rmax (a b : R) : Rmin a b <= Rmax a b.
Proof.
  pose proof (Rmin_l a b). pose proof (Rmax_l a b). lra.
Qed.

Lemma iou_bounds (p q : row4) : 0 <= TF.iou p q <= 1.
Proof.
  unfold TF.iou.
  pose proof (Rmin_le_Rmax (c0 p) (c2 p)) as Hy1.
  pose proof (Rmin_le_Rmax (c1 p) (c3 p)) as Hx1.
  pose proof (Rmin_le_Rmax (c0 q) (c2 q)) as Hy2.
  pose proof (Rmin_le_Rmax (c1 q) (c3 q)) as Hx2.
  set (ylo1 := Rmin (c0 p) (c2 p)) in *. set (yhi1 := Rmax (c0 p) (c2 p)) in *.
  set (xlo1 := Rmin (c1 p) (c3 p)) in *. set (xhi1 := Rmax (c1 p) (c3 p)) in *.
  set (ylo2 := Rmin (c0 q) (c2 q)) in *. set (yhi2 := Rmax (c0 q) (c2 q)) in *.
  set (xlo2 := Rmin (c1 q) (c3 q)) in *. set (xhi2 := Rmax (c1 q) (c3 q)) in *.
  destruct (Rle_dec ((yhi1 - ylo1) * (xhi1 - xlo1)) 0) as [|A1]; [lra|].
  destruct (Rle_dec ((yhi2 - ylo2) * (xhi2 - xlo2)) 0) as [|A2]; [lra|].
  destruct (extent_overlap_bounds ylo1 yhi1 ylo2 yhi2 Hy1 Hy2)
    as (Y0 & Y1 & Y2).
  destruct (extent_overlap_bounds xlo1 xhi1 xlo2 xhi2 Hx1 Hx2)
    as (X0 & X1 & X2).
  set (iy := Rmax (Rmin yhi1 yhi2 - Rmax ylo1 ylo2) 0) in *.
  set (ix := Rmax (Rmin xhi1 xhi2 - Rmax xlo1 xlo2) 0) in *.
  assert (I0 : 0 <= iy * ix) by nra.
  assert (I1 : iy * ix <= (yhi1 - ylo1) * (xhi1 - xlo1)) by nra.
  assert (I2 : iy * ix <= (yhi2 - ylo2) * (xhi2 - xlo2)) by nra.
  set (den := (yhi1 - ylo1) * (xhi1 - xlo1) + (yhi2 - ylo2) * (xhi2 - xlo2)
              - iy * ix).
  assert (D : 0 < den) by (subst den; lra).
  split.
  - apply Rmult_le_pos; [assumption|]. left. now apply Rinv_0_lt_compat.
  - apply (Rmult_le_reg_r den); [assumption|].
    unfold Rdiv. rewrite Rmult_assoc, Rinv_l by lra. subst den. lra.
Qed.

Lemma iou_self (p : row4) : 0 < corner_area p -> TF.iou p p = 1.
Proof.
  intros A. apply Rlt_not_le in A.
  unfold corner_area in A. unfold TF.iou.
  pose proof (Rmin_le_Rmax (c0 p) (c2 p)) as Hy.
  pose proof (Rmin_le_Rmax (c1 p) (c3 p)) as Hx.
  set (ylo := Rmin (c0 p) (c2 p)) in *. set (yhi := Rmax (c0 p) (c2 p)) in *.
  set (xlo := Rmin (c1 p) (c3 p)) in *. set (xhi := Rmax (c1 p) (c3 p)) in *.
  destruct (Rle_dec ((yhi - ylo) * (xhi - xlo)) 0) as [|_]; [contradiction|].
  rewrite (Rmin_left yhi yhi), (Rmin_left xhi xhi), (Rmax_left ylo ylo),
    (Rmax_left xlo xlo) by lra.
  rewrite (Rmax_left (yhi - ylo) 0), (Rmax_left (xhi - xlo) 0) by lra.
  replace ((yhi - ylo) * (xhi - xlo) + (yhi - ylo) * (xhi - xlo)
           - (yhi - ylo) * (xhi - xlo))
    with ((yhi - ylo) * (xhi - xlo)) by ring.
  unfold Rdiv. apply Rinv_r. lra.
Qed.

Lemma iou_swap_xy (p q : row4) :
  TF.iou (swap_xy p) (swap_xy q) = TF.iou p q.
Proof.
  unfold TF.iou, swap_xy. cbn [c0 c1 c2 c3].
  rewrite (Rmult_comm (Rmax (c1 p) (c3 p) - Rmin (c1 p) (c3 p))),
    (Rmult_comm (Rmax (c1 q) (c3 q) - Rmin (c1 q) (c3 q))).
  destruct (Rle_dec _ 0); [reflexivity|].
  destruct (Rle_dec _ 0); [reflexivity|].
  f_equal; [apply Rmult_comm|]. f_equal. apply Rmult_comm.
Qed.

Lemma nms_sweep_change_order (boxes : mat4) (max_output_size : nat)
    (iou_threshold : R) (candidates selected : list nat) :
  TF.nms_sweep (change_order boxes) max_output_size iou_threshold
    candidates selected
  = TF.nms_sweep boxes max_output_size iou_threshold candidates selected.
Proof.
  rewrite change_order_map.
  revert selected; induction candidates as [|i rest IH]; intros selected;
    simpl; [reflexivity|].
  destruct (Nat.leb max_output_size (length selected)); [reflexivity|].
  assert (E : existsb
                (fun j => Rgtb (TF.iou (nth i (map swap_xy boxes) (Row4 0 0 0 0))
                                       (nth j (map swap_xy boxes) (Row4 0 0 0 0)))
                               iou_threshold) selected
              = existsb
                  (fun j => Rgtb (TF.iou (nth i boxes (Row4 0 0 0 0))
                                         (nth j boxes (Row4 0 0 0 0)))
                                 iou_threshold) selected).
  { clear IH. induction selected as [|j sel IHs]; simpl; [reflexivity|].
    rewrite IHs. f_equal. f_equal.
    change (Row4 0 0 0 0) with (swap_xy (Row4 0 0 0 0)).
    rewrite !map_nth. apply iou_swap_xy. }
  rewrite E. clear E. destruct (existsb _ selected); apply IH.
Qed.

(** X5. The order of the coordinates does not matter to the
    suppression: on the boxes in the order [(y_min, x_min, y_max, x_max)]
    that [change_order] produces it selects the indices that it selects
    on the boxes as they are. *)
Theorem non_max_suppression_change_order (boxes : mat4) (scores : vec)
    (max_output_size : nat) (iou_threshold : R) :
  TF.non_max_suppression (change_order boxes) scores max_output_size
    iou_threshold
  = TF.non_max_suppression boxes scores max_output_size iou_threshold.
Proof.
  unfold TF.non_max_suppression.
  rewrite change_order_length, nms_sweep_change_order. reflexivity.
Qed.

(** ** The ranking is a sort *)

Lemma StronglySorted_app_inv {A : Type} (P : A -> A -> Prop)
    (l1 l2 : list A) :
  StronglySorted P (l1 ++ l2) ->
  StronglySorted P l1 /\ StronglySorted P l2
  /\ (forall a b, In a l1 -> In b l2 -> P a b).
Proof.
  induction l1 as [|x l1 IH]; simpl; intros H.
  - repeat split; [constructor|assumption|intros a b []].
  - inversion H as [|? ? Hs Hf]; subst.
    destruct (IH Hs) as (S1 & S2 & C). rewrite Forall_app in Hf.
    destruct Hf as [F1 F2]. repeat split.
    + now constructor.
    + assumption.
    + intros a b [<-|Ia] Ib; [|now apply C].
      rewrite Forall_forall in F2. now apply F2.
Qed.

Lemma StronglySorted_app {A : Type} (P : A -> A -> Prop) (l1 l2 : list A) :
  StronglySorted P l1 -> StronglySorted P l2 ->
  (forall a b, In a l1 -> In b l2 -> P a b) ->
  StronglySorted P (l1 ++ l2).
Proof.
  induction 1 as [|x l1 Hs IH Hf]; simpl; intros S2 C; [assumption|].
  constructor.
  - apply IH; [assumption|]. intros a b Ia Ib. apply C; [now right|assumption].
  - apply Forall_app. split; [assumption|].
    apply Forall_forall. intros b Ib. apply C; [now left|assumption].
Qed.

Lemma StronglySorted_remove {A : Type} (P : A -> A -> Prop) (l1 l2 : list A)
    (x : A) :
  StronglySorted P (l1 ++ x :: l2) -> StronglySorted P (l1 ++ l2).
Proof.
  intros H. apply StronglySorted_app_inv in H as (S1 & S2 & C).
  inversion S2; subst. apply StronglySorted_app; try assumption.
  intros a b Ia Ib. apply C; [assumption|now right].
Qed.

Lemma StronglySorted_map {A B : Type} (P : B -> B -> Prop) (f : A -> B)
    (l : list A) :
  StronglySorted (fun a b => P (f a) (f b)) l -> StronglySorted P (map f l).
Proof.
  induction 1 as [|x l Hs IH Hf]; simpl; constructor; [assumption|].
  apply Forall_map. exact Hf.
Qed.

Lemma insert_desc_sorted (v : vec) (i : nat) (l : list nat) :
  StronglySorted (by_score v) l ->
  StronglySorted (by_score v) (TF.insert_desc v i l).
Proof.
  induction 1 as [|j l Hs IH Hf]; simpl.
  - constructor; constructor.
  - destruct (Rltb (nth i v 0) (nth j v 0)) eqn:C.
    + apply Rltb_true in C. constructor; [assumption|].
      apply Forall_forall. intros k Ik.
      apply (Permutation_in _ (insert_desc_perm v i l)) in Ik.
      destruct Ik as [<-|Ik].
      * unfold by_score. lra.
      * rewrite Forall_forall in Hf. now apply Hf.
    + apply Rltb_false in C. constructor; [now constructor|].
      constructor; [exact C|].
      apply Forall_forall. intros k Ik. rewrite Forall_forall in Hf.
      specialize (Hf k Ik). unfold by_score in *. lra.
Qed.

Lemma argsort_desc_sorted (v : vec) :
  StronglySorted (by_score v) (TF.argsort_desc v).
Proof.
  unfold TF.argsort_desc. induction (seq 0 (length v)) as [|i l IH]; simpl.
  - constructor.
  - now apply insert_desc_sorted.
Qed.

Lemma gather_map_nth {A : Type} (t : list A) (idx : list nat) (r : list A)
    (d : A) :
  gather t idx = Some r -> r = map (fun i => nth i t d) idx.
Proof.
  unfold gather. revert r; induction idx as [|i idx IH]; simpl; intros r E.
  - now injection E as <-.
  - destruct (nth_error t i) as [x|] eqn:Ex; [|discriminate]. simpl in E.
    destruct (sequence _) as [r'|]; [|discriminate]. simpl in E.
    injection E as <-. f_equal; [|now apply IH].
    symmetry. now apply nth_error_nth.
Qed.

(** X6. The ranking keeps the best candidates: of the [n] candidates it
    keeps [min (pre_nms_top_n, n)], each with its own score, in the order
    of decreasing score, and no candidate left out has a higher score
    than one that is kept. *)
Theorem top_proposals_best (pre_nms_top_n : nat) (unsorted_scores : vec)
    (unsorted_proposals sorted_top_proposals : mat4)
    (sorted_top_scores : vec) :
  top_proposals pre_nms_top_n unsorted_scores unsorted_proposals
  = Some (sorted_top_proposals, sorted_top_scores) ->
  exists kept dropped,
    Permutation (kept ++ dropped) (seq 0 (length unsorted_scores))
    /\ length kept = Nat.min pre_nms_top_n (length unsorted_scores)
    /\ sorted_top_scores = map (fun i => nth i unsorted_scores 0) kept
    /\ sorted_top_proposals
       = map (fun i => nth i unsorted_proposals (Row4 0 0 0 0)) kept
    /\ StronglySorted Rge sorted_top_scores
    /\ (forall i j, In i kept -> In j dropped ->
          nth i unsorted_scores 0 >= nth j unsorted_scores 0).
Proof.
  unfold top_proposals. rewrite top_k_min. cbn [bind].
  set (k := Nat.min pre_nms_top_n (length unsorted_scores)).
  destruct (gather unsorted_proposals _) as [r|] eqn:G; [|discriminate].
  cbn [bind]. intros [= <- <-].
  exists (firstn k (TF.argsort_desc unsorted_scores)),
    (skipn k (TF.argsort_desc unsorted_scores)).
  pose proof (argsort_desc_sorted unsorted_scores) as S.
  rewrite <- (firstn_skipn k (TF.argsort_desc unsorted_scores)) in S.
  apply StronglySorted_app_inv in S as (S1 & _ & C).
  repeat split.
  - rewrite firstn_skipn. apply argsort_desc_perm.
  - rewrite length_firstn, argsort_desc_length. subst k. lia.
  - now apply gather_map_nth.
  - apply (StronglySorted_map Rge (fun i => nth i unsorted_scores 0)).
    exact S1.
  - exact C.
Qed.

Lemma top_proposals_best_witness :
  exists kept dropped,
    Permutation (kept ++ dropped) (seq 0 2)
    /\ [0.9; 0.8] = map (fun i => nth i [0.9; 0.8] 0) kept
    /\ StronglySorted Rge [0.9; 0.8].
Proof.
  destruct (top_proposals_best 12000 [0.9; 0.8] [small_first; small_second]
              [small_first; small_second] [0.9; 0.8]
              (small_top 12000 small_first small_second
                 (proj1 (Nat.leb_le 2 12000) eq_refl)))
    as (kept & dropped & P & _ & E & _ & S & _).
  exists kept, dropped. repeat split; assumption.
Defined.

(** ** What the sweep selects *)

Section SweepOrder.

Variable boxes : mat4.
Variable max_output_size : nat.
Variable iou_threshold : R.

Let sweep := TF.nms_sweep boxes max_output_size iou_threshold.

Lemma nms_sweep_prefix (candidates selected : list nat) :
  exists more, sweep candidates selected = selected ++ more.
Proof.
  subst sweep.
  revert selected; induction candidates as [|i rest IH]; intros selected;
    simpl.
  - exists []. now rewrite app_nil_r.
  - destruct (Nat.leb max_output_size (length selected)).
    + exists []. now rewrite app_nil_r.
    + destruct (existsb _ selected); [apply IH|].
      destruct (IH (selected ++ [i])) as [more E].
      exists (i :: more). rewrite E, <- app_assoc. reflexivity.
Qed.

Lemma nms_sweep_sorted (P : nat -> nat -> Prop)
    (candidates selected : list nat) :
  StronglySorted P (selected ++ candidates) ->
  StronglySorted P (sweep candidates selected).
Proof.
  subst sweep.
  revert selected; induction candidates as [|i rest IH]; intros selected H;
    simpl.
  - now rewrite app_nil_r in H.
  - destruct (Nat.leb max_output_size (length selected)).
    + now apply StronglySorted_app_inv in H.
    + destruct (existsb _ selected).
      * apply IH. eapply StronglySorted_remove; eauto.
      * apply IH. now rewrite <- app_assoc.
Qed.

(** Below the bound on the number of selections, a candidate is selected
    or overlaps a selected box by more than the threshold. *)
Lemma nms_sweep_maximal (candidates selected : list nat) (i : nat) :
  (length (sweep candidates selected) < max_output_size)%nat ->
  In i candidates ->
  In i (sweep candidates selected)
  \/ exists j, In j (sweep candidates selected)
               /\ TF.iou (nth i boxes (Row4 0 0 0 0))
                         (nth j boxes (Row4 0 0 0 0)) > iou_threshold.
Proof.
  unfold sweep.
  revert selected; induction candidates as [|k rest IH]; intros selected L I;
    simpl in *; [destruct I|].
  destruct (Nat.leb_spec max_output_size (length selected)); [lia|].
  destruct (existsb _ selected) eqn:Ex.
  - destruct I as [<-|I]; [|now apply IH].
    right. apply existsb_exists in Ex as (j & Ij & G).
    apply Rgtb_true in G. exists j. split; [|exact G].
    destruct (nms_sweep_prefix rest selected) as [more E].
    unfold sweep in E. rewrite E. apply in_or_app. now left.
  - destruct I as [<-|I]; [|now apply IH].
    left. destruct (nms_sweep_prefix rest (selected ++ [k])) as [more E].
    unfold sweep in E. rewrite E, <- app_assoc. apply in_or_app. right. now left.
Qed.

End SweepOrder.

(** ** The stages of a selection that returned *)

Lemma boolean_mask_Some {A : Type} (t : list A) (m : list bool)
    (r : list A) :
  boolean_mask t (Some m) = Some r ->
  length t = length m /\ r = mask_select t m.
Proof.
  unfold boolean_mask. cbn [bind].
  destruct (Nat.eqb_spec (length t) (length m)); [|discriminate].
  intros [= <-]. now split.
Qed.

Lemma filter_map_filter {A B : Type} (p : A -> bool) (q : B -> bool)
    (g : A -> B) (l : list A) :
  filter q (map g (filter p l))
  = map g (filter (fun t => p t && q (g t)) l).
Proof.
  induction l as [|t l IH]; simpl; [reflexivity|].
  destruct (p t); simpl; [|exact IH].
  destruct (q (g t)); simpl; now rewrite IH.
Qed.

Lemma filter_outside_anchors_Some (im_shape : Z * Z)
    (all_anchors rpn_bbox_pred : mat4) (all_scores : vec)
    (r : mat4 * mat4 * vec) :
  filter_outside_anchors im_shape all_anchors rpn_bbox_pred all_scores
  = Some r ->
  length rpn_bbox_pred = length all_anchors
  /\ length all_scores = length all_anchors.
Proof.
  unfold filter_outside_anchors, split4. rewrite anchor_filter_mask.
  destruct (boolean_mask all_anchors _) as [a|]; [|discriminate]. cbn [bind].
  destruct (boolean_mask rpn_bbox_pred _) as [p|] eqn:Ep;
    [|discriminate]. cbn [bind].
  destruct (boolean_mask all_scores _) as [s|] eqn:Es;
    [|discriminate]. intros _.
  apply boolean_mask_Some in Ep as [Lp _], Es as [Ls _].
  rewrite length_map in Lp, Ls. now split.
Qed.

Lemma candidate_proposals_Some (im_shape : Z * Z)
    (all_anchors rpn_bbox_pred : mat4) (all_scores : vec)
    (unsorted_scores : vec) (unsorted_proposals : mat4) :
  candidate_proposals im_shape all_anchors rpn_bbox_pred all_scores
  = Some (unsorted_scores, unsorted_proposals) ->
  length rpn_bbox_pred = length all_anchors
  /\ length all_scores = length all_anchors
  /\ length unsorted_proposals = length unsorted_scores
  /\ combine unsorted_proposals unsorted_scores
     = map (fun t => (decode_row (1, 1) (fst (fst t)) (snd (fst t)), snd t))
         (filter (fun t =>
                    inside im_shape (fst (fst t))
                    && positive_area
                         (decode_row (1, 1) (fst (fst t)) (snd (fst t))))
            (combine (combine all_anchors rpn_bbox_pred) all_scores)).
Proof.
  unfold candidate_proposals. intros H.
  destruct (filter_outside_anchors _ _ _ _) as [[[a p] s]|] eqn:F;
    [|discriminate].
  destruct (filter_outside_anchors_Some _ _ _ _ _ F) as [Lp Ls].
  rewrite filter_outside_anchors_masks in F by assumption.
  injection F as <- <- <-. cbn [bind] in H.
  set (mask := map (inside im_shape) all_anchors) in *.
  assert (La : length (mask_select all_anchors mask)
               = length (mask_select rpn_bbox_pred mask))
    by (apply mask_select_length; now symmetry).
  assert (Lb : length (mask_select all_anchors mask)
               = length (mask_select all_scores mask))
    by (apply mask_select_length; now symmetry).
  rewrite decode_rows in H by assumption. cbn [bind default_variances] in H.
  set (props := zip_with (decode_row (1, 1)) (mask_select all_anchors mask)
                  (mask_select rpn_bbox_pred mask)) in *.
  assert (Lz : length props = length (mask_select all_anchors mask))
    by (apply zip_with_length; assumption).
  rewrite filter_proposals_masks in H by lia.
  injection H as <- <-.
  split; [assumption|]. split; [assumption|].
  split; [apply mask_select_length; lia|].
  rewrite mask_select_combine by lia.
  set (T := combine (combine all_anchors rpn_bbox_pred) all_scores).
  assert (ET : combine (combine (mask_select all_anchors mask)
                          (mask_select rpn_bbox_pred mask))
                 (mask_select all_scores mask)
               = filter (fun t => inside im_shape (fst (fst t))) T).
  { rewrite !mask_select_combine;
      [ | now rewrite length_combine, Lp, Nat.min_id | now symmetry ].
    unfold mask.
    rewrite (map_on_fst (inside im_shape) all_anchors rpn_bbox_pred)
      by now symmetry.
    rewrite (map_on_fst (fun p => inside im_shape (fst p))
               (combine all_anchors rpn_bbox_pred) all_scores)
      by (rewrite length_combine, Lp, Nat.min_id; now symmetry).
    apply mask_select_map_filter. }
  assert (EP : combine props (mask_select all_scores mask)
               = map (fun t => (decode_row (1, 1) (fst (fst t)) (snd (fst t)),
                                snd t))
                   (filter (fun t => inside im_shape (fst (fst t))) T)).
  { rewrite <- ET. unfold props, zip_with.
    generalize (combine (mask_select all_anchors mask)
                  (mask_select rpn_bbox_pred mask)).
    intros L. generalize (mask_select all_scores mask). intros M.
    revert M; induction L as [|x L IH]; intros [|y M]; simpl;
      try reflexivity.
    now rewrite IH. }
  rewrite (map_on_fst positive_area props (mask_select all_scores mask))
    by lia.
  rewrite mask_select_map_filter, EP.
  apply (filter_map_filter
           (fun t : row4 * row4 * R => inside im_shape (fst (fst t)))
           (fun p : row4 * R => positive_area (fst p))).
Qed.

Lemma combine_map_same {I A B : Type} (f : I -> A) (g : I -> B)
    (l : list I) :
  combine (map f l) (map g l) = map (fun i => (f i, g i)) l.
Proof. induction l as [|i l IH]; simpl; [reflexivity|]. now rewrite IH. Qed.

Lemma In_combine_nth_error {A B : Type} (a : list A) (b : list B) (x : A)
    (y : B) :
  In (x, y) (combine a b) ->
  exists i, nth_error a i = Some x /\ nth_error b i = Some y.
Proof.
  revert b; induction a as [|u a IH]; intros [|w b] I; simpl in I;
    try contradiction.
  destruct I as [[= <- <-]|I].
  - now exists 0%nat.
  - destruct (IH b I) as (i & Ha & Hb). now exists (S i).
Qed.

Lemma nth_In_combine {A B : Type} (a : list A) (b : list B) (da : A)
    (db : B) (i : nat) :
  length a = length b -> (i < length a)%nat ->
  In (nth i a da, nth i b db) (combine a b).
Proof.
  intros E L. rewrite <- combine_nth by assumption.
  apply nth_In. rewrite length_combine. lia.
Qed.

Lemma In_combine_left {A B : Type} (a : list A) (b : list B) (x : A) :
  length a = length b -> In x a -> exists y, In (x, y) (combine a b).
Proof.
  revert b; induction a as [|u a IH]; intros [|w b] E I; simpl in *;
    try contradiction; try discriminate.
  destruct I as [<-|I]; [exists w; now left|].
  destruct (IH b) as [y Hy]; [lia|assumption|]. exists y. now right.
Qed.

Lemma top_proposals_Some (pre_nms_top_n : nat) (unsorted_scores : vec)
    (unsorted_proposals sorted_top_proposals : mat4)
    (sorted_top_scores : vec) :
  top_proposals pre_nms_top_n unsorted_scores unsorted_proposals
  = Some (sorted_top_proposals, sorted_top_scores) ->
  exists kept,
    kept = firstn (Nat.min pre_nms_top_n (length unsorted_scores))
             (TF.argsort_desc unsorted_scores)
    /\ sorted_top_scores = map (fun i => nth i unsorted_scores 0) kept
    /\ sorted_top_proposals
       = map (fun i => nth i unsorted_proposals (Row4 0 0 0 0)) kept.
Proof.
  unfold top_proposals. rewrite top_k_min. cbn [bind].
  destruct (gather unsorted_proposals _) as [r|] eqn:G; [|discriminate].
  cbn [bind]. intros [= <- <-]. eexists. split; [reflexivity|].
  split; [reflexivity|]. now apply gather_map_nth.
Qed.

Lemma nms_scope_Some (post_nms_top_n : nat) (nms_threshold : R)
    (sorted_top_proposals : mat4) (sorted_top_scores : vec)
    (proposals : mat4) (scores : vec) :
  nms_scope post_nms_top_n nms_threshold sorted_top_proposals
    sorted_top_scores = Some (proposals, scores) ->
  exists selected,
    selected = TF.nms_sweep (change_order sorted_top_proposals)
                 post_nms_top_n nms_threshold
                 (TF.argsort_desc sorted_top_scores) []
    /\ length sorted_top_proposals = length sorted_top_scores
    /\ proposals = map (fun i => nth i sorted_top_proposals (Row4 0 0 0 0))
                     selected
    /\ scores = map (fun i => nth i sorted_top_scores 0) selected
    /\ (forall i, In i selected -> (i < length sorted_top_scores)%nat).
Proof.
  rewrite nms_scope_gather. unfold TF.non_max_suppression.
  rewrite change_order_length.
  destruct (Nat.eqb_spec (length sorted_top_proposals)
              (length sorted_top_scores)) as [E|]; [|discriminate].
  destruct (Rgeb nms_threshold 0 && Rgeb 1 nms_threshold); [|discriminate].
  cbn [bind].
  destruct (gather sorted_top_proposals _) as [p|] eqn:Gp; [|discriminate].
  cbn [bind].
  destruct (gather sorted_top_scores _) as [s|] eqn:Gs; [|discriminate].
  cbn [bind]. intros [= <- <-]. eexists. split; [reflexivity|].
  split; [assumption|]. split; [now apply gather_map_nth|].
  split; [now apply gather_map_nth|].
  intros i I. apply nms_sweep_In in I as [[]|I].
  now apply argsort_desc_range.
Qed.

Lemma generate_proposals_Some (pre_nms_top_n post_nms_top_n : nat)
    (nms_threshold : R) (im_shape : Z * Z) (all_anchors rpn_bbox_pred : mat4)
    (all_scores : vec) (proposals : mat4) (scores : vec) :
  generate_proposals pre_nms_top_n post_nms_top_n nms_threshold im_shape
    all_anchors rpn_bbox_pred all_scores = Some (proposals, scores) ->
  exists unsorted_scores unsorted_proposals sorted_top_proposals
         sorted_top_scores,
    candidate_proposals im_shape all_anchors rpn_bbox_pred all_scores
    = Some (unsorted_scores, unsorted_proposals)
    /\ top_proposals pre_nms_top_n unsorted_scores unsorted_proposals
       = Some (sorted_top_proposals, sorted_top_scores)
    /\ nms_scope post_nms_top_n nms_threshold sorted_top_proposals
         sorted_top_scores = Some (proposals, scores).
Proof.
  unfold generate_proposals. intros H.
  destruct (candidate_proposals _ _ _ _) as [[us up]|]; [|discriminate].
  cbn [bind] in H.
  destruct (top_proposals pre_nms_top_n us up) as [[stp sts]|] eqn:Ht;
    [|discriminate].
  cbn [bind] in H. now exists us, up, stp, sts.
Qed.

Lemma positive_area_spec (q : row4) :
  positive_area q = true <-> c0 q < c2 q /\ c1 q < c3 q.
Proof.
  unfold positive_area. rewrite Rgtb_true. unfold Rmax.
  destruct (Rle_dec (c2 q - c0 q) 0), (Rle_dec (c3 q - c1 q) 0);
    split; intros H; try nra.
Qed.

(** Where a proposal returned and its score come from. *)
Lemma proposals_provenance (pre_nms_top_n post_nms_top_n : nat)
    (nms_threshold : R) (im_shape : Z * Z) (all_anchors rpn_bbox_pred : mat4)
    (all_scores : vec) (proposals : mat4) (scores : vec) :
  generate_proposals pre_nms_top_n post_nms_top_n nms_threshold im_shape
    all_anchors rpn_bbox_pred all_scores = Some (proposals, scores) ->
  length scores = length proposals
  /\ (forall q x, In (q, x) (combine proposals scores) ->
        exists a d,
          In (a, d, x) (combine (combine all_anchors rpn_bbox_pred) all_scores)
          /\ inside im_shape a = true
          /\ q = decode_row (1, 1) a d
          /\ positive_area q = true).
Proof.
  intros H.
  apply generate_proposals_Some in H as (us & up & stp & sts & Hc & Ht & Hn).
  apply candidate_proposals_Some in Hc as (_ & _ & Lu & Ec).
  apply top_proposals_Some in Ht as (kept & Ek & -> & ->).
  apply nms_scope_Some in Hn as (sel & _ & Ls & -> & -> & Rs).
  rewrite !length_map in *. split; [reflexivity|].
  intros q x I. rewrite combine_map_same in I.
  apply in_map_iff in I as (j & [= <- <-] & Ij).
  specialize (Rs j Ij).
  rewrite (nth_indep _ (Row4 0 0 0 0)
             ((fun i => nth i up (Row4 0 0 0 0)) 0%nat))
    by (rewrite length_map; exact Rs).
  rewrite (nth_indep _ 0 ((fun i => nth i us 0) 0%nat))
    by (rewrite length_map; exact Rs).
  rewrite (map_nth (fun i => nth i up (Row4 0 0 0 0))),
    (map_nth (fun i => nth i us 0)).
  assert (Ik : In (nth j kept 0%nat) kept) by (apply nth_In; exact Rs).
  rewrite Ek in Ik at 2. apply In_firstn, argsort_desc_range in Ik.
  pose proof (nth_In_combine up us (Row4 0 0 0 0) 0 (nth j kept 0%nat) Lu)
    as I. rewrite Lu in I. specialize (I Ik). rewrite Ec in I.
  apply in_map_iff in I as ([[a d] y] & E & I). cbn [fst snd] in E.
  injection E as E1 E2. apply filter_In in I as [I C].
  apply andb_true_iff in C as [C1 C2]. cbn [fst snd] in C1, C2.
  exists a, d. rewrite <- E1, <- E2. now repeat split.
Qed.

(** X7. The rows returned stay paired: the proposals are as many as the
    scores, and every proposal is returned with the score that entered
    at the index of its anchor; the proposal is that anchor, which lies
    inside the image, decoded with the offsets of the same index. *)
Theorem proposals_paired (pre_nms_top_n post_nms_top_n : nat)
    (nms_threshold : R) (im_shape : Z * Z) (all_anchors rpn_bbox_pred : mat4)
    (all_scores : vec) (proposals : mat4) (scores : vec) :
  generate_proposals pre_nms_top_n post_nms_top_n nms_threshold im_shape
    all_anchors rpn_bbox_pred all_scores = Some (proposals, scores) ->
  length scores = length proposals
  /\ (forall q x, In (q, x) (combine proposals scores) ->
        exists i a d,
          nth_error all_anchors i = Some a
          /\ nth_error rpn_bbox_pred i = Some d
          /\ nth_error all_scores i = Some x
          /\ inside im_shape a = true
          /\ q = decode_row (1, 1) a d).
Proof.
  intros H. apply proposals_provenance in H as [L P].
  split; [exact L|]. intros q x I.
  destruct (P q x I) as (a & d & T & Ia & Eq & _).
  apply In_combine_nth_error in T as (i & T & Hs).
  exists i, a, d.
  assert (Ha : nth_error all_anchors i = Some a
               /\ nth_error rpn_bbox_pred i = Some d).
  { clear - T. revert i T. generalize rpn_bbox_pred.
    induction all_anchors as [|u A IH]; intros [|w B] i T; simpl in T;
      try (destruct i; discriminate).
    destruct i as [|i]; simpl in *; [injection T as <- <-; now split|].
    now apply IH. }
  destruct Ha as [Ha Hd]. now repeat split.
Qed.

(** X8. No proposal returned is degenerate: each has [x_min < x_max] and
    [y_min < y_max]. *)
Theorem proposals_positive_extent (pre_nms_top_n post_nms_top_n : nat)
    (nms_threshold : R) (im_shape : Z * Z) (all_anchors rpn_bbox_pred : mat4)
    (all_scores : vec) (proposals : mat4) (scores : vec) :
  generate_proposals pre_nms_top_n post_nms_top_n nms_threshold im_shape
    all_anchors rpn_bbox_pred all_scores = Some (proposals, scores) ->
  Forall (fun q => c0 q < c2 q /\ c1 q < c3 q) proposals.
Proof.
  intros H. apply proposals_provenance in H as [L P].
  apply Forall_forall. intros q I.
  destruct (In_combine_left proposals scores q (eq_sym L) I) as [x Ix].
  destruct (P q x Ix) as (_ & _ & _ & _ & _ & A).
  now apply positive_area_spec.
Qed.

Lemma proposals_paired_witness :
  length [0.9; 0.8] = length [small_first; small_second]
  /\ exists i a d,
       nth_error small_bbox_pred i = Some d
       /\ nth_error (map snd small_cls_prob) i = Some 0.8
       /\ inside small_im_shape a = true
       /\ small_second = decode_row (1, 1) a d.
Proof.
  destruct (proposals_paired _ _ _ _ _ _ _ _ _ small_generate_proposals)
    as [L P].
  split; [exact L|].
  destruct (P small_second 0.8) as (i & a & d & _ & Hd & Hs & Ia & E).
  { right. now left. }
  now exists i, a, d.
Defined.

Lemma proposals_positive_extent_witness :
  Forall (fun q => c0 q < c2 q /\ c1 q < c3 q) [small_first; small_second].
Proof.
  exact (proposals_positive_extent _ _ _ _ _ _ _ _ _
           small_generate_proposals).
Defined.

(** X9. The scores are returned in decreasing order: no score in the
    result is higher than one in front of it. *)
Theorem scores_decreasing (pre_nms_top_n post_nms_top_n : nat)
    (nms_threshold : R) (im_shape : Z * Z) (all_anchors rpn_bbox_pred : mat4)
    (all_scores : vec) (proposals : mat4) (scores : vec) :
  generate_proposals pre_nms_top_n post_nms_top_n nms_threshold im_shape
    all_anchors rpn_bbox_pred all_scores = Some (proposals, scores) ->
  StronglySorted Rge scores.
Proof.
  intros H.
  apply generate_proposals_Some in H as (us & up & stp & sts & _ & _ & Hn).
  apply nms_scope_Some in Hn as (sel & Es & _ & _ & -> & _).
  apply (StronglySorted_map Rge (fun i => nth i sts 0)).
  rewrite Es. apply (nms_sweep_sorted _ _ _ (by_score sts)).
  apply argsort_desc_sorted.
Qed.

Lemma scores_decreasing_witness : StronglySorted Rge [0.9; 0.8].
Proof.
  exact (scores_decreasing _ _ _ _ _ _ _ _ _ small_generate_proposals).
Defined.

Lemma argsort_desc_head (v : vec) :
  v <> [] ->
  exists i rest,
    TF.argsort_desc v = i :: rest
    /\ (i < length v)%nat
    /\ (forall x, In x v -> nth i v 0 >= x).
Proof.
  intros N.
  destruct (TF.argsort_desc v) as [|i rest] eqn:E.
  - apply (f_equal (@length nat)) in E. rewrite argsort_desc_length in E.
    destruct v; [contradiction|discriminate].
  - exists i, rest. split; [reflexivity|].
    assert (Ii : In i (TF.argsort_desc v)) by (rewrite E; now left).
    split; [now apply argsort_desc_range|].
    intros x Ix. apply (In_nth _ _ 0) in Ix as (j & Lj & <-).
    assert (Ij : In j (TF.argsort_desc v)).
    { apply (Permutation_in _ (Permutation_sym (argsort_desc_perm v))).
      apply in_seq. lia. }
    pose proof (argsort_desc_sorted v) as S. rewrite E in S, Ij.
    inversion S as [|? ? _ F]; subst. destruct Ij as [<-|Ij].
    + lra.
    + rewrite Forall_forall in F. now apply F.
Qed.

(** X10. The best candidate is returned first: when the two filters
    leave a candidate and both bounds are positive, the result is not
    empty and its first score is at least the score of every
    candidate. *)
Theorem best_candidate_first (pre_nms_top_n post_nms_top_n : nat)
    (nms_threshold : R) (im_shape : Z * Z) (all_anchors rpn_bbox_pred : mat4)
    (all_scores : vec) (proposals : mat4) (scores : vec)
    (unsorted_scores : vec) (unsorted_proposals : mat4) :
  generate_proposals pre_nms_top_n post_nms_top_n nms_threshold im_shape
    all_anchors rpn_bbox_pred all_scores = Some (proposals, scores) ->
  candidate_proposals im_shape all_anchors rpn_bbox_pred all_scores
  = Some (unsorted_scores, unsorted_proposals) ->
  unsorted_scores <> [] ->
  (0 < pre_nms_top_n)%nat -> (0 < post_nms_top_n)%nat ->
  exists q more_proposals x more_scores,
    proposals = q :: more_proposals
    /\ scores = x :: more_scores
    /\ (forall y, In y unsorted_scores -> x >= y).
Proof.
  intros H Hc N Ppre Ppost.
  apply generate_proposals_Some in H as (us & up & stp & sts & Hc' & Ht & Hn).
  rewrite Hc in Hc'. injection Hc' as <- <-.
  apply top_proposals_Some in Ht as (kept & Ek & Es & Ep).
  destruct (argsort_desc_head unsorted_scores N) as (i0 & rest0 & E0 & _ & M0).
  assert (Kept : exists kept', kept = i0 :: kept').
  { rewrite Ek, E0.
    destruct (Nat.min pre_nms_top_n (length unsorted_scores)) as [|k] eqn:Ek';
      [|now eexists].
    destruct unsorted_scores; [contradiction|]. simpl in Ek'. lia. }
  destruct Kept as [kept' ->]. simpl in Es.
  assert (Ns : sts <> []) by (rewrite Es; discriminate).
  destruct (argsort_desc_head sts Ns) as (j0 & rest & Ej & Lj & Mj).
  apply nms_scope_Some in Hn as (sel & Esel & _ & -> & -> & _).
  rewrite Ej in Esel. simpl in Esel.
  destruct post_nms_top_n as [|post]; [lia|]. simpl in Esel.
  destruct (nms_sweep_prefix (change_order stp) (S post) nms_threshold
              rest [j0]) as [more Em].
  rewrite Em in Esel. subst sel. simpl.
  eexists _, _, _, _. split; [reflexivity|]. split; [reflexivity|].
  intros y Iy.
  assert (B : nth j0 sts 0 >= nth i0 unsorted_scores 0).
  { apply Mj. rewrite Es. now left. }
  specialize (M0 y Iy). lra.
Qed.

Lemma best_candidate_first_witness :
  exists q more_proposals x more_scores,
    [small_first; small_second] = q :: more_proposals
    /\ [0.9; 0.8] = x :: more_scores
    /\ (forall y, In y [0.9; 0.8] -> x >= y).
Proof.
  apply (best_candidate_first _ _ _ _ _ _ _ _ _ _ _
           small_generate_proposals small_candidates).
  - discriminate.
  - apply (Nat.ltb_lt 0 12000). reflexivity.
  - apply (Nat.ltb_lt 0 2000). reflexivity.
Defined.

(** ** The number of proposals *)

Lemma nms_scope_first (post_nms_top_n : nat) (nms_threshold : R)
    (sorted_top_proposals : mat4) (sorted_top_scores : vec)
    (proposals : mat4) (scores : vec) :
  nms_scope post_nms_top_n nms_threshold sorted_top_proposals
    sorted_top_scores = Some (proposals, scores) ->
  (0 < post_nms_top_n)%nat -> sorted_top_scores <> [] ->
  (0 < length proposals)%nat.
Proof.
  intros Hn Ppost Ns.
  destruct (argsort_desc_head sorted_top_scores Ns)
    as (j0 & rest & Ej & _ & _).
  apply nms_scope_Some in Hn as (sel & Esel & _ & -> & _ & _).
  rewrite Ej in Esel.
  destruct post_nms_top_n as [|post]; [lia|]. simpl in Esel.
  destruct (nms_sweep_prefix (change_order sorted_top_proposals) (S post)
              nms_threshold rest [j0]) as [more Em].
  rewrite Em in Esel. subst sel. simpl. lia.
Qed.

(** C7. When the offsets and the scores have one row per anchor and the
    threshold of the suppression lies in [0, 1], as 0.7 does, the
    selection returns proposals (it does not raise). With [n] candidates
    left by the two filters, the ranking calls [top_k] with
    [k = min (pre_nms_top_n, n)], which never exceeds [n], and keeps
    exactly [k] proposals with their scores; the suppression of these
    returns the proposals of the selection, each with its score, at most
    [min (post_nms_top_n, pre_nms_top_n, n)] of them. With no candidate
    left they are none; with a candidate left and both bounds positive
    there is at least one. *)
Theorem proposal_count_bound (pre_nms_top_n post_nms_top_n : nat)
    (nms_threshold : R) (im_shape : Z * Z) (all_anchors rpn_bbox_pred : mat4)
    (all_scores : vec) :
  length rpn_bbox_pred = length all_anchors ->
  length all_scores = length all_anchors ->
  0 <= nms_threshold <= 1 ->
  exists unsorted_scores unsorted_proposals sorted_top_proposals
         sorted_top_scores proposals scores,
    candidate_proposals im_shape all_anchors rpn_bbox_pred all_scores
    = Some (unsorted_scores, unsorted_proposals)
    /\ length unsorted_proposals = length unsorted_scores
    /\ top_proposals pre_nms_top_n unsorted_scores unsorted_proposals
       = Some (sorted_top_proposals, sorted_top_scores)
    /\ (exists indices,
          TF.top_k unsorted_scores
            (Nat.min pre_nms_top_n (length unsorted_scores))
          = Some (sorted_top_scores, indices)
          /\ gather unsorted_proposals indices = Some sorted_top_proposals)
    /\ length sorted_top_proposals
       = Nat.min pre_nms_top_n (length unsorted_scores)
    /\ length sorted_top_scores
       = Nat.min pre_nms_top_n (length unsorted_scores)
    /\ nms_scope post_nms_top_n nms_threshold sorted_top_proposals
         sorted_top_scores = Some (proposals, scores)
    /\ generate_proposals pre_nms_top_n post_nms_top_n nms_threshold im_shape
         all_anchors rpn_bbox_pred all_scores = Some (proposals, scores)
    /\ (length proposals
        <= Nat.min post_nms_top_n
             (Nat.min pre_nms_top_n (length unsorted_scores)))%nat
    /\ length scores = length proposals
    /\ (length unsorted_scores = 0%nat -> proposals = [] /\ scores = [])
    /\ ((0 < length unsorted_scores)%nat -> (0 < pre_nms_top_n)%nat ->
        (0 < post_nms_top_n)%nat -> (0 < length proposals)%nat).
Proof.
  intros Ep Es T.
  destruct (candidate_proposals_total im_shape all_anchors rpn_bbox_pred
              all_scores Ep Es) as (us & up & Hc & Lu & _).
  destruct (top_proposals_total pre_nms_top_n us up Lu)
    as (stp & sts & Ht & Lp & Lt).
  destruct (nms_scope_total post_nms_top_n nms_threshold stp sts)
    as (sel & p & s & _ & Hn & Gp & Gs & Lsel & _); [lia|exact T|].
  exists us, up, stp, sts, p, s.
  apply gather_length in Gp, Gs.
  assert (B : (length p
               <= Nat.min post_nms_top_n
                    (Nat.min pre_nms_top_n (length us)))%nat) by lia.
  split; [exact Hc|]. split; [exact Lu|]. split; [exact Ht|].
  split.
  { pose proof Ht as K. unfold top_proposals in K.
    rewrite top_k_min in K |- *. simpl in K.
    destruct (gather up _) as [g|] eqn:G; [|discriminate]. simpl in K.
    injection K as <- <-. eexists. split; [reflexivity|exact G]. }
  split; [exact Lp|]. split; [exact Lt|]. split; [exact Hn|].
  split; [unfold generate_proposals; rewrite Hc; simpl; rewrite Ht; exact Hn|].
  split; [exact B|]. split; [lia|]. split.
  - intros Z. rewrite Z in B.
    assert (length p = 0%nat) by lia. assert (length s = 0%nat) by lia.
    split; now apply length_zero_iff_nil.
  - intros Pn Ppre Ppost.
    apply (nms_scope_first _ _ _ _ _ _ Hn Ppost).
    intros E. rewrite E in Lt. simpl in Lt. lia.
Qed.

Lemma proposal_count_bound_witness :
  exists proposals scores,
    generate_proposals 1 2000 0.7 small_im_shape small_all_anchors
      small_bbox_pred (map snd small_cls_prob) = Some (proposals, scores)
    /\ length proposals = 1%nat.
Proof.
  assert (T : 0 <= 0.7 <= 1) by lra.
  destruct (proposal_count_bound 1 2000 0.7 small_im_shape small_all_anchors
              small_bbox_pred (map snd small_cls_prob) eq_refl eq_refl T)
    as (us & up & stp & sts & p & s & Hc & _ & _ & _ & _ & _ & _ & Hg & B
        & _ & _ & N).
  exists p, s. split; [exact Hg|].
  rewrite small_candidates in Hc. injection Hc as <- <-.
  cbn [length] in B, N.
  assert (P : (0 < length p)%nat).
  { apply N; [lia|lia|]. apply (Nat.ltb_lt 0 2000). reflexivity. }
  assert (M : Nat.min 2000 (Nat.min 1 2) = 1%nat) by reflexivity.
  rewrite M in B. lia.
Defined.


(** ** What the suppression leaves out *)

(** X11. The suppression leaves out only what it has to: when it returns
    fewer than [post_nms_top_n] proposals, every ranked candidate is
    returned or overlaps a proposal returned by more than the
    threshold. *)
Theorem suppressed_by_selected (post_nms_top_n : nat) (nms_threshold : R)
    (sorted_top_proposals : mat4) (sorted_top_scores : vec)
    (proposals : mat4) (scores : vec) (c : row4) :
  nms_scope post_nms_top_n nms_threshold sorted_top_proposals
    sorted_top_scores = Some (proposals, scores) ->
  (length proposals < post_nms_top_n)%nat ->
  In c sorted_top_proposals ->
  In c proposals
  \/ exists q, In q proposals /\ overlap c q > nms_threshold.
Proof.
  intros H L I.
  apply nms_scope_Some in H as (sel & Es & El & -> & _ & _).
  rewrite length_map in L.
  apply (In_nth _ _ (Row4 0 0 0 0)) in I as (i & Li & <-).
  assert (Ii : In i (TF.argsort_desc sorted_top_scores)).
  { apply (Permutation_in _
             (Permutation_sym (argsort_desc_perm sorted_top_scores))).
    apply in_seq. lia. }
  rewrite Es in L.
  destruct (nms_sweep_maximal _ _ _ _ [] i L Ii) as [S|(j & S & G)];
    rewrite <- Es in S.
  - left. now apply (in_map (fun i => nth i sorted_top_proposals
                                        (Row4 0 0 0 0))).
  - right. exists (nth j sorted_top_proposals (Row4 0 0 0 0)). split.
    + now apply (in_map (fun i => nth i sorted_top_proposals
                                    (Row4 0 0 0 0))).
    + rewrite change_order_map in G.
      change (Row4 0 0 0 0) with (swap_xy (Row4 0 0 0 0)) in G.
      rewrite !map_nth in G. exact G.
Qed.

Lemma small_nms_suppressed :
  nms_scope 2000 0.5 [small_first; small_second] [0.9; 0.8]
  = Some ([small_first], [0.9]).
Proof.
  rewrite nms_scope_pair; [|apply (Nat.leb_le 2 2000); reflexivity|lra].
  rewrite small_overlap.
  assert (G : 24.65625 / 35.34375 > 0.5) by lra.
  now rewrite (proj2 (Rgtb_true _ _) G).
Qed.

Lemma suppressed_by_selected_witness :
  In small_second [small_first]
  \/ exists q, In q [small_first] /\ overlap small_second q > 0.5.
Proof.
  apply (suppressed_by_selected 2000 0.5 [small_first; small_second]
           [0.9; 0.8] [small_first] [0.9] small_second small_nms_suppressed).
  - apply (Nat.ltb_lt 1 2000). reflexivity.
  - right. now left.
Defined.

Lemma positive_extent_corner_area (q : row4) :
  c0 q < c2 q -> c1 q < c3 q -> 0 < corner_area (swap_xy q).
Proof.
  intros X Y. unfold corner_area, swap_xy. cbn [c0 c1 c2 c3].
  rewrite (Rmax_right (c1 q) (c3 q)), (Rmin_left (c1 q) (c3 q)),
    (Rmax_right (c0 q) (c2 q)), (Rmin_left (c0 q) (c2 q)) by lra.
  nra.
Qed.

(** X12. With a threshold below 1 no box is returned twice: the
    proposals of the result are pairwise different. *)
Theorem proposals_distinct (pre_nms_top_n post_nms_top_n : nat)
    (nms_threshold : R) (im_shape : Z * Z) (all_anchors rpn_bbox_pred : mat4)
    (all_scores : vec) (proposals : mat4) (scores : vec) :
  generate_proposals pre_nms_top_n post_nms_top_n nms_threshold im_shape
    all_anchors rpn_bbox_pred all_scores = Some (proposals, scores) ->
  nms_threshold < 1 ->
  NoDup proposals.
Proof.
  intros H T.
  destruct (proposals_provenance _ _ _ _ _ _ _ _ _ H) as [L P].
  apply generate_proposals_stages in H as (stp & sts & E & H).
  destruct (nms_scope_total post_nms_top_n nms_threshold stp sts E
              (nms_scope_threshold _ _ _ _ _ H))
    as (sel & p & s & _ & Hn & Gp & _ & _ & Sep).
  rewrite H in Hn. injection Hn as <- <-.
  assert (Ls : length proposals = length sel) by (eapply gather_length; eauto).
  assert (K : forall i j, (i < j)%nat -> (j < length proposals)%nat ->
              nth i proposals (Row4 0 0 0 0) <> nth j proposals (Row4 0 0 0 0)).
  { intros i j Lij Lj Eq.
    pose proof (ForallOrdPairs_nth _ sel 0%nat i j Sep Lij) as S.
    unfold separated in S. rewrite change_order_map in S.
    change (Row4 0 0 0 0) with (swap_xy (Row4 0 0 0 0)) in S.
    rewrite !map_nth in S.
    rewrite <- !(gather_nth _ _ _ (Row4 0 0 0 0) _ Gp) in S by lia.
    rewrite <- Eq in S.
    assert (Ii : In (nth i proposals (Row4 0 0 0 0)) proposals)
      by (apply nth_In; lia).
    destruct (In_combine_left proposals scores _ (eq_sym L) Ii) as [x Ix].
    destruct (P _ x Ix) as (_ & _ & _ & _ & _ & A).
    apply positive_area_spec in A as [X Y].
    rewrite iou_self in S by now apply positive_extent_corner_area.
    specialize (S ltac:(lia)). lra. }
  apply (NoDup_nth proposals (Row4 0 0 0 0)). intros i j Li Lj Eq.
  destruct (Nat.lt_trichotomy i j) as [Lt|[Eqij|Gt]]; [|assumption|].
  - exfalso. now apply (K i j).
  - exfalso. apply (K j i); [assumption|assumption|now symmetry].
Qed.

Lemma proposals_distinct_witness : NoDup [small_first; small_second].
Proof.
  apply (proposals_distinct _ _ _ _ _ _ _ _ _ small_generate_proposals).
  lra.
Defined.

(** ** Images too small for an anchor *)

Lemma mask_select_none {A : Type} (f : A -> bool) {B : Type} (t : list B)
    (a : list A) :
  (forall x, In x a -> f x = false) -> mask_select t (map f a) = [].
Proof.
  revert t; induction a as [|x a IH]; intros [|y t] H; simpl;
    try reflexivity.
  rewrite (H x) by now left. apply IH. intros z Iz. apply H. now right.
Qed.

Lemma generate_proposals_none_inside (pre_nms_top_n post_nms_top_n : nat)
    (nms_threshold : R) (im_shape : Z * Z) (all_anchors rpn_bbox_pred : mat4)
    (all_scores : vec) :
  length rpn_bbox_pred = length all_anchors ->
  length all_scores = length all_anchors ->
  0 <= nms_threshold <= 1 ->
  (forall a, In a all_anchors -> inside im_shape a = false) ->
  generate_proposals pre_nms_top_n post_nms_top_n nms_threshold im_shape
    all_anchors rpn_bbox_pred all_scores = Some ([], []).
Proof.
  intros Ep Es T N. unfold generate_proposals, candidate_proposals.
  rewrite filter_outside_anchors_masks by assumption.
  rewrite !mask_select_none by assumption. cbn [bind].
  rewrite decode_rows by reflexivity. cbn [bind].
  rewrite filter_proposals_masks by reflexivity. cbn [bind].
  unfold top_proposals. rewrite top_k_min. cbn [length].
  rewrite Nat.min_0_r. cbn [firstn map gather sequence bind].
  unfold nms_scope, TF.non_max_suppression.
  cbn [change_order map combine length Nat.eqb].
  rewrite (proj2 (threshold_check nms_threshold) T). reflexivity.
Qed.

(** The truncated reference anchors are centred, and none reaches less
    than 10 or more than 361 from its centre. *)
Lemma default_reference_int_bounds (r : irow4) :
  In r default_reference_int ->
  (i2 r = - i0 r /\ i3 r = - i1 r
   /\ 10 <= i2 r <= 361 /\ 10 <= i3 r <= 361)%Z.
Proof.
  unfold default_reference_int. intros I.
  repeat (destruct I as [<-|I]; [cbn [i0 i1 i2 i3]; lia|]).
  destruct I.
Qed.

(** On a feature map of at most [2 ^ 26] rows and columns no shift and no
    anchor leaves the range of int32. *)
Lemma default_anchor_plain (r : irow4) (y x : nat) :
  In r default_reference_int ->
  (Z.of_nat y <= 67108864)%Z -> (Z.of_nat x <= 67108864)%Z ->
  irow4_add r (shift_of anchor_stride y x)
  = IRow4 (i0 r + 16 * Z.of_nat x) (i1 r + 16 * Z.of_nat y)
          (i2 r + 16 * Z.of_nat x) (i3 r + 16 * Z.of_nat y).
Proof.
  intros I Ly Lx. apply default_reference_int_bounds in I.
  rewrite irow4_add_shift_plain.
  - unfold anchor_stride. f_equal; lia.
  - unfold anchor_stride. intros v Iv. apply in_int32_spec.
    simpl in Iv. repeat (destruct Iv as [<-|Iv]; [lia|]). destruct Iv.
Qed.

Lemma default_anchors_nth (height width : nat) (i : nat) :
  (Z.of_nat height <= 67108864)%Z -> (Z.of_nat width <= 67108864)%Z ->
  (i < height * width * 15)%nat ->
  let t := nth (i mod 15) default_reference_int (IRow4 0 0 0 0) in
  let column := Z.of_nat ((i / 15) mod width) in
  let row := Z.of_nat (i / 15 / width) in
  In t default_reference_int
  /\ nth i (tiled default_reference_int
              (grid_shifts anchor_stride height width)) (IRow4 0 0 0 0)
     = IRow4 (i0 t + 16 * column) (i1 t + 16 * row)
             (i2 t + 16 * column) (i3 t + 16 * row).
Proof.
  intros Lh Lw L t column row.
  assert (Lr : length default_reference_int = 15%nat) by reflexivity.
  assert (Lm : (i mod 15 < 15)%nat) by (apply Nat.mod_upper_bound; lia).
  assert (Lc : (i / 15 < height * width)%nat)
    by (apply Nat.Div0.div_lt_upper_bound; lia).
  assert (Pw : (0 < width)%nat) by lia.
  assert (Ly : (i / 15 / width < height)%nat)
    by (apply Nat.Div0.div_lt_upper_bound; lia).
  assert (Lx : ((i / 15) mod width < width)%nat)
    by (apply Nat.mod_upper_bound; lia).
  assert (It : In t default_reference_int)
    by (apply nth_In; rewrite Lr; exact Lm).
  split; [exact It|].
  rewrite tiled_nth by (rewrite grid_shifts_length, Lr; exact L).
  rewrite Lr, grid_shifts_nth by exact Lc.
  apply default_anchor_plain; [exact It| |]; lia.
Qed.

(** X13. An image at most 26 pixels wide or at most 26 pixels high has
    no anchor inside: the anchors lie around the points of a grid of
    step 16 and reach at least 10 from them on either side. Given one row
    of class probabilities and one row of offsets per anchor, [build_rpn]
    returns no proposal, for every feature map of at most [2 ^ 26] rows
    and columns. *)
Theorem build_rpn_small_image (im_shape : Z * Z)
    (batch height width depth : nat) (rpn_cls_prob : list (R * R))
    (rpn_bbox_pred : mat4) :
  (fst im_shape <= 26)%Z \/ (snd im_shape <= 26)%Z ->
  (Z.of_nat height <= 67108864)%Z -> (Z.of_nat width <= 67108864)%Z ->
  length rpn_bbox_pred = (height * width * 15)%nat ->
  length rpn_cls_prob = (height * width * 15)%nat ->
  build_rpn im_shape (batch, height, width, depth) rpn_cls_prob
    rpn_bbox_pred = Some ([], []).
Proof.
  intros Small Lh Lw Lp Lc.
  rewrite build_rpn_generate_proposals, generate_anchors_tiled. cbn [bind].
  assert (La : length (tiled default_reference_int
                         (grid_shifts anchor_stride height width))
               = (height * width * 15)%nat)
    by now rewrite tiled_length, grid_shifts_length.
  apply generate_proposals_none_inside.
  - now rewrite length_map, La.
  - now rewrite !length_map, La.
  - lra.
  - intros a I. apply in_map_iff in I as (t & <- & I).
    rewrite inside_row_of_int.
    apply (In_nth _ _ (IRow4 0 0 0 0)) in I as (i & Li & <-).
    rewrite La in Li.
    destruct (default_anchors_nth height width i Lh Lw Li) as [It ->].
    apply default_reference_int_bounds in It.
    apply not_true_iff_false. unfold inside_int. cbn [i0 i1 i2 i3].
    rewrite !andb_true_iff, !Z.leb_le, !Z.ltb_lt. lia.
Qed.

Lemma build_rpn_small_image_witness :
  build_rpn (26%Z, 640%Z) (1, 2, 40, 1024)%nat (repeat (0.5, 0.5) 1200)
    (repeat (Row4 0 0 0 0) 1200) = Some ([], []).
Proof.
  apply (build_rpn_small_image (26%Z, 640%Z) 1 2 40 1024
           (repeat (0.5, 0.5) 1200) (repeat (Row4 0 0 0 0) 1200)).
  - left. simpl. lia.
  - lia.
  - lia.
  - apply repeat_length.
  - apply repeat_length.
Defined.

(** ** The shape of the reference anchors *)

Lemma reference_anchor_shape_row (base_size : Z) (ratio scale : R) :
  0 < ratio ->
  let a := reference_anchor base_size ratio scale in
  c0 a = - c2 a /\ c1 a = - c3 a
  /\ width_of a = reference_width base_size ratio scale
  /\ height_of a = reference_height base_size ratio scale
  /\ height_of a = ratio * width_of a
  /\ width_of a * height_of a = (scale * IZR base_size) * (scale * IZR base_size).
Proof.
  intros P a. subst a.
  pose proof (sqrt_lt_R0 ratio P) as S.
  pose proof (sqrt_sqrt ratio (Rlt_le _ _ P)) as Q.
  unfold reference_anchor, width_of, height_of. cbn [c0 c1 c2 c3].
  set (w := reference_width base_size ratio scale).
  set (h := reference_height base_size ratio scale).
  assert (Ew : (w - 1) / 2 - - (w - 1) / 2 + 1 = w) by lra.
  assert (Eh : (h - 1) / 2 - - (h - 1) / 2 + 1 = h) by lra.
  rewrite Ew, Eh. subst w h. unfold reference_width, reference_height.
  repeat split; try lra.
  - rewrite <- Q at 2. field. lra.
  - field. lra.
Qed.

(** X14. The reference anchors are what the documentation of
    [generate_anchors_reference] says: for positive aspect ratios, every
    anchor returned is centred at the origin, its inclusive height is the
    ratio times its inclusive width, and its inclusive area is the square
    of [scale * base_size], whatever the ratio. *)
Theorem reference_anchor_shape (base_size : Z) (aspect_ratios scales : list R)
    (anchors : mat4) :
  generate_anchors_reference base_size aspect_ratios scales = Some anchors ->
  Forall (fun ratio => 0 < ratio) aspect_ratios ->
  forall a, In a anchors ->
    exists ratio scale,
      In ratio aspect_ratios /\ In scale scales
      /\ c0 a = - c2 a /\ c1 a = - c3 a
      /\ height_of a = ratio * width_of a
      /\ width_of a * height_of a
         = (scale * IZR base_size) * (scale * IZR base_size).
Proof.
  intros H P a I. apply generate_anchors_reference_Some in H. subst anchors.
  unfold reference_rows in I. apply in_map_iff in I as ([r s] & <- & I).
  apply in_prod_iff in I as [Ir Is]. cbn [fst snd].
  rewrite Forall_forall in P.
  destruct (reference_anchor_shape_row base_size r s (P r Ir))
    as (E0 & E1 & _ & _ & Er & Ea).
  exists r, s. now repeat split.
Qed.

Lemma reference_anchor_shape_witness :
  exists ratio scale,
    In ratio [1; 4] /\ In scale [1; 2]
    /\ height_of (Row4 (-0.5) (-3.5) 0.5 3.5)
       = ratio * width_of (Row4 (-0.5) (-3.5) 0.5 3.5).
Proof.
  destruct (reference_anchor_shape 4 [1; 4] [1; 2] _
              generate_anchors_reference_two_by_two)
    with (a := Row4 (-0.5) (-3.5) 0.5 3.5)
    as (r & s & Ir & Is & _ & _ & E & _).
  - repeat constructor; lra.
  - right. right. now left.
  - now exists r, s.
Defined.

(** X15. A base size that is large enough stays large enough: for
    positive ratios and scales, when [generate_anchors_reference]
    returns for a positive base size it returns for every larger one. *)
Theorem generate_anchors_reference_larger_base (base_size larger : Z)
    (aspect_ratios scales : list R) :
  Forall (fun ratio => 0 < ratio) aspect_ratios ->
  Forall (fun scale => 0 < scale) scales ->
  (0 < base_size <= larger)%Z ->
  generate_anchors_reference base_size aspect_ratios scales <> None ->
  generate_anchors_reference larger aspect_ratios scales
  = Some (reference_rows larger aspect_ratios scales).
Proof.
  intros Pr Ps [Pb Le] N.
  rewrite Forall_forall in Pr, Ps.
  destruct (generate_anchors_reference larger aspect_ratios scales)
    as [anchors|] eqn:E.
  { f_equal. now apply generate_anchors_reference_Some. }
  exfalso. apply N.
  apply generate_anchors_reference_None in E as (r & s & Ir & Is & T).
  apply generate_anchors_reference_None. exists r, s.
  split; [assumption|]. split; [assumption|].
  apply too_small_iff in T. apply too_small_iff.
  pose proof (sqrt_lt_R0 r (Pr r Ir)) as S.
  specialize (Ps s Is).
  apply IZR_lt in Pb. apply IZR_le in Le.
  assert (Cw : 0 < s / sqrt r) by (apply Rdiv_lt_0_compat; assumption).
  assert (Ch : 0 < s * sqrt r) by (apply Rmult_lt_0_compat; assumption).
  unfold reference_width, reference_height in *.
  destruct T as [T|T]; [left|right]; nra.
Qed.

Lemma generate_anchors_reference_larger_base_witness :
  generate_anchors_reference 256 [1; 4] [1; 2]
  = Some (reference_rows 256 [1; 4] [1; 2]).
Proof.
  apply (generate_anchors_reference_larger_base 4 256 [1; 4] [1; 2]).
  - repeat constructor; lra.
  - repeat constructor; lra.
  - lia.
  - rewrite generate_anchors_reference_two_by_two. discriminate.
Defined.

(** The truncated reference anchors against the reference anchors: the
    inclusive width and height fall short by less than 2. *)
Lemma default_reference_int_extent (k : nat) :
  (k < 15)%nat ->
  let t := nth k default_reference_int (IRow4 0 0 0 0) in
  let r := nth k (reference_rows anchor_base_size anchor_ratios
                    anchor_scales) (Row4 0 0 0 0) in
  width_of r - 2 < IZR (i2 t) - IZR (i0 t) + 1 <= width_of r
  /\ height_of r - 2 < IZR (i3 t) - IZR (i1 t) + 1 <= height_of r.
Proof.
  intros L. pose proof sqrt_2_bounds as B.
  unfold reference_rows, anchor_base_size, anchor_ratios, anchor_scales,
    default_reference_int, width_of, height_of, reference_anchor.
  do 15 (destruct k as [|k];
         [cbn [list_prod map app fst snd nth i0 i1 i2 i3 c0 c1 c2 c3];
          default_extents; lra|]).
  lia.
Qed.

(** X16. The anchors of [generate_anchors] sit on the grid. On a feature
    map of at most [2 ^ 26] rows and columns, anchor [i] is the truncated
    reference anchor [i mod 15] moved by 16 times the column and 16 times
    the row of its cell [i / 15]; it is centred at that point of the
    grid, and its inclusive width and height fall short of those of the
    reference anchor [i mod 15] by less than 2. *)
Theorem generate_anchors_centred (batch height width depth : nat) (i : nat) :
  (Z.of_nat height <= 67108864)%Z -> (Z.of_nat width <= 67108864)%Z ->
  (i < height * width * 15)%nat ->
  exists all_anchors reference,
    generate_anchors (batch, height, width, depth) = Some all_anchors
    /\ generate_anchors_reference anchor_base_size anchor_ratios
         anchor_scales = Some reference
    /\ let a := nth i all_anchors (IRow4 0 0 0 0) in
       let t := nth (i mod 15) default_reference_int (IRow4 0 0 0 0) in
       let r := nth (i mod 15) reference (Row4 0 0 0 0) in
       let column := Z.of_nat ((i / 15) mod width) in
       let row := Z.of_nat (i / 15 / width) in
       a = IRow4 (i0 t + 16 * column) (i1 t + 16 * row)
                 (i2 t + 16 * column) (i3 t + 16 * row)
       /\ (i0 a + i2 a = 2 * (16 * column))%Z
       /\ (i1 a + i3 a = 2 * (16 * row))%Z
       /\ width_of r - 2 < width_of (row_of_int a) <= width_of r
       /\ height_of r - 2 < height_of (row_of_int a) <= height_of r.
Proof.
  intros Lh Lw L.
  exists (tiled default_reference_int
            (grid_shifts anchor_stride height width)),
    (reference_rows anchor_base_size anchor_ratios anchor_scales).
  split; [apply generate_anchors_tiled|].
  split; [apply generate_anchors_reference_default|].
  cbv zeta.
  destruct (default_anchors_nth height width i Lh Lw L) as [It ->].
  apply default_reference_int_bounds in It.
  assert (Lm : (i mod 15 < 15)%nat) by (apply Nat.mod_upper_bound; lia).
  destruct (default_reference_int_extent (i mod 15) Lm) as [W H].
  cbv zeta in W, H.
  split; [reflexivity|]. cbn [i0 i1 i2 i3].
  split; [lia|]. split; [lia|].
  unfold width_of, height_of, row_of_int in *.
  cbn [i0 i1 i2 i3 c0 c1 c2 c3]. rewrite !plus_IZR. split; lra.
Qed.

Lemma generate_anchors_centred_witness :
  exists all_anchors,
    generate_anchors small_feature_map_shape = Some all_anchors
    /\ nth 80 all_anchors (IRow4 0 0 0 0) = IRow4 17 1 47 31.
Proof.
  destruct (generate_anchors_centred 1 2 3 1024 80)
    as (all & ref & Ha & _ & Ex & _).
  - lia.
  - lia.
  - simpl. lia.
  - exists all. split; [exact Ha|]. cbv zeta in Ex. rewrite Ex.
    reflexivity.
Defined.

(** ** The names under which the variables are restored *)

Lemma str_eqb_eq (a b : str) : str_eqb a b = true <-> a = b.
Proof.
  revert b; induction a as [|x a IH]; intros [|y b]; simpl;
    try (split; [discriminate|discriminate]); [tauto|].
  rewrite andb_true_iff, Ascii.eqb_eq, IH.
  split; [intros [-> ->]; reflexivity|intros [= -> ->]; now split].
Qed.

Lemma rsplit_slash_None (s : str) :
  rsplit_slash s = None <-> ~ In "/"%char s.
Proof.
  induction s as [|c s IH]; simpl; [tauto|].
  destruct (rsplit_slash s) as [[a b]|].
  - split; [discriminate|]. intros N. exfalso.
    assert (H : ~ In "/"%char s) by tauto.
    apply IH in H. discriminate.
  - destruct (Ascii.eqb_spec c "/"%char) as [->|Nc].
    + split; [discriminate|]. intros N. exfalso. apply N. now left.
    + split; [|reflexivity]. intros _ [E|I]; [congruence|].
      now apply (proj1 IH).
Qed.

Lemma rsplit_slash_Some (s a b : str) :
  rsplit_slash s = Some (a, b) ->
  s = a ++ "/"%char :: b /\ ~ In "/"%char b.
Proof.
  revert a; induction s as [|c s IH]; intros a; simpl; [discriminate|].
  destruct (rsplit_slash s) as [[a' b']|] eqn:E.
  - intros [= <- <-]. destruct (IH a' eq_refl) as [-> N]. now split.
  - destruct (Ascii.eqb_spec c "/"%char) as [->|Nc]; [|discriminate].
    intros [= <- <-]. split; [reflexivity|]. now apply rsplit_slash_None.
Qed.

Lemma dict_set_fresh (k v : str) (d : dict) :
  (forall e, In e d -> fst e <> k) -> dict_set k v d = d ++ [(k, v)].
Proof.
  intros F. unfold dict_set.
  destruct (existsb _ d) eqn:E; [|reflexivity].
  apply existsb_exists in E as (e & Ie & Ee).
  apply str_eqb_eq in Ee. now apply F in Ie.
Qed.

Lemma restore_pretrained_entries (to_restore : dict) (names : list str) :
  NoDup names ->
  (forall e n, In e to_restore -> In n names ->
     fst e <> lit "truncated_base_network/" ++ n) ->
  restore_pretrained to_restore names
  = to_restore
    ++ map (fun n => (lit "truncated_base_network/" ++ n, n)) names.
Proof.
  unfold restore_pretrained.
  revert to_restore; induction names as [|n names IH]; intros d D F;
    cbn [fold_left map].
  - now rewrite app_nil_r.
  - inversion D as [|? ? Nn D']; subst.
    rewrite dict_set_fresh by (intros e Ie; apply F; [assumption|now left]).
    rewrite IH; [now rewrite <- app_assoc|assumption|].
    intros e m Ie Im. apply in_app_or in Ie as [Ie|[<-|[]]].
    + apply F; [assumption|now right].
    + cbn [fst]. intros E. apply app_inv_head in E. congruence.
Qed.

Lemma rpn_entry_key (n : str) (e : str * str) :
  In e (rpn_entry n) ->
  snd e = n
  /\ exists var_name,
       (n = var_name ++ lit "/bias"
        /\ fst e = lit "fasterrcnn/" ++ var_name ++ lit "/b")
       \/ (n = var_name ++ lit "/kernel"
           /\ fst e = lit "fasterrcnn/" ++ var_name ++ lit "/w").
Proof.
  unfold rpn_entry.
  destruct (rsplit_slash n) as [[a w]|] eqn:E; [|intros []].
  apply rsplit_slash_Some in E as [-> _].
  destruct (str_eqb w (lit "bias")) eqn:Eb.
  { apply str_eqb_eq in Eb as ->. intros [<-|[]]. split; [reflexivity|].
    exists a. now left. }
  destruct (str_eqb w (lit "kernel")) eqn:Ek; [|intros []].
  apply str_eqb_eq in Ek as ->. intros [<-|[]]. split; [reflexivity|].
  exists a. now right.
Qed.

Lemma rpn_entry_injective (n n' : str) (e e' : str * str) :
  In e (rpn_entry n) -> In e' (rpn_entry n') -> fst e = fst e' -> n = n'.
Proof.
  intros I I' E.
  apply rpn_entry_key in I as (_ & a & K), I' as (_ & a' & K').
  destruct K as [[-> Ee]|[-> Ee]], K' as [[-> Ee']|[-> Ee']];
    rewrite Ee, Ee' in E; apply app_inv_head in E;
    change (lit "/b") with (["/"%char] ++ ["b"%char]) in E;
    change (lit "/w") with (["/"%char] ++ ["w"%char]) in E;
    rewrite !app_assoc in E; apply app_inj_tail in E as [E C];
    try discriminate;
    apply app_inj_tail in E as [-> _]; reflexivity.
Qed.

Lemma rpn_entry_not_pretrained (n m : str) (e : str * str) :
  In e (rpn_entry n) -> fst e <> lit "truncated_base_network/" ++ m.
Proof.
  intros I E. apply rpn_entry_key in I as (_ & a & [[_ K]|[_ K]]);
    rewrite K in E; discriminate.
Qed.

Lemma restore_rpn_var_entry (to_restore : dict) (name : str) :
  In "/"%char name ->
  (forall e e', In e to_restore -> In e' (rpn_entry name) ->
     fst e <> fst e') ->
  restore_rpn_var to_restore name = Some (to_restore ++ rpn_entry name).
Proof.
  intros S F. unfold restore_rpn_var, rpn_entry in *.
  destruct (rsplit_slash name) as [[a w]|] eqn:E.
  - cbn [bind].
    destruct (str_eqb w (lit "bias")).
    { rewrite dict_set_fresh; [reflexivity|]. intros e Ie.
      exact (F e (lit "fasterrcnn/" ++ a ++ lit "/b", name) Ie
               (or_introl eq_refl)). }
    destruct (str_eqb w (lit "kernel")).
    { rewrite dict_set_fresh; [reflexivity|]. intros e Ie.
      exact (F e (lit "fasterrcnn/" ++ a ++ lit "/w", name) Ie
               (or_introl eq_refl)). }
    now rewrite app_nil_r.
  - apply rsplit_slash_None in E. contradiction.
Qed.

Lemma restore_rpn_entries (to_restore : dict) (names : list str) :
  NoDup names ->
  (forall n, In n names -> In "/"%char n) ->
  (forall e e' n, In e to_restore -> In n names -> In e' (rpn_entry n) ->
     fst e <> fst e') ->
  restore_rpn to_restore names
  = Some (to_restore ++ flat_map rpn_entry names).
Proof.
  revert to_restore; induction names as [|n names IH]; intros d D S F; simpl.
  - now rewrite app_nil_r.
  - inversion D as [|? ? Nn D']; subst.
    rewrite restore_rpn_var_entry;
      [ | apply S; now left
        | intros e e' Ie Ie'; apply (F e e' n Ie); [now left|assumption] ].
    cbn [bind]. rewrite IH; [now rewrite <- app_assoc|assumption| |].
    + intros m Im. apply S. now right.
    + intros e e' m Ie Im Ie'. apply in_app_or in Ie as [Ie|Ie].
      * apply (F e e' m Ie); [now right|assumption].
      * intros E. apply (rpn_entry_injective n m e e' Ie Ie') in E.
        congruence.
Qed.

Lemma restore_rpn_None (to_restore : dict) (names : list str) :
  restore_rpn to_restore names = None
  <-> exists n, In n names /\ ~ In "/"%char n.
Proof.
  revert to_restore; induction names as [|n names IH]; intros d; simpl.
  - split; [discriminate|intros (n & [] & _)].
  - unfold restore_rpn_var at 1.
    destruct (rsplit_slash n) as [[a w]|] eqn:E; cbn [bind].
    + assert (S : In "/"%char n).
      { apply rsplit_slash_Some in E as [-> _]. apply in_or_app.
        right. now left. }
      assert (K : forall d',
                restore_rpn d' names = None
                <-> exists m, (n = m \/ In m names) /\ ~ In "/"%char m).
      { intros d'. rewrite IH. split.
        - intros (m & Im & Nm). exists m. tauto.
        - intros (m & [<-|Im] & Nm); [contradiction|]. now exists m. }
      destruct (str_eqb w (lit "bias")); [apply K|].
      destruct (str_eqb w (lit "kernel")); apply K.
    + apply rsplit_slash_None in E. split; [intros _|reflexivity].
      exists n. split; [now left|assumption].
Qed.

Lemma NoDup_map_injective {A B : Type} (f : A -> B) (l : list A) :
  (forall x y, f x = f y -> x = y) -> NoDup l -> NoDup (map f l).
Proof.
  intros Inj. induction 1 as [|x l Nx D IH]; simpl; constructor;
    [|assumption].
  intros I. apply in_map_iff in I as (y & E & Iy).
  apply Inj in E. congruence.
Qed.

(** X17. Building the dictionary of [main] raises exactly when a
    variable of the scope [rpn] has a name without ['/']. *)
Theorem restore_mapping_raises (pretrained_vars rpn_vars : list str) :
  restore_mapping pretrained_vars rpn_vars = None
  <-> exists name, In name rpn_vars /\ ~ In "/"%char name.
Proof. apply restore_rpn_None. Qed.

(** X18. No two variables are restored under one name: when the names of
    the variables are pairwise different and those of the scope [rpn]
    contain a ['/'], the dictionary has one entry for every pretrained
    variable, under its name behind [truncated_base_network/], and one
    for every bias and every kernel of the scope [rpn], under
    [fasterrcnn/.../b] and [fasterrcnn/.../w]; its keys are pairwise
    different, and the other variables of the scope have no entry. *)
Theorem restore_mapping_entries (pretrained_vars rpn_vars : list str) :
  NoDup pretrained_vars -> NoDup rpn_vars ->
  (forall name, In name rpn_vars -> In "/"%char name) ->
  exists to_restore,
    restore_mapping pretrained_vars rpn_vars = Some to_restore
    /\ to_restore
       = map (fun n => (lit "truncated_base_network/" ++ n, n))
           pretrained_vars
         ++ flat_map rpn_entry rpn_vars
    /\ NoDup (map fst to_restore).
Proof.
  intros Dp Dr S. unfold restore_mapping.
  rewrite restore_pretrained_entries by (assumption || intros e n []).
  cbn [app].
  rewrite restore_rpn_entries; try assumption.
  2:{ intros e e' n Ie _ Ie'. apply in_map_iff in Ie as (m & <- & _).
      cbn [fst]. intros E. symmetry in E.
      exact (rpn_entry_not_pretrained n m e' Ie' E). }
  eexists. split; [reflexivity|]. split; [reflexivity|].
  assert (Keys : forall names, NoDup names ->
            NoDup (map fst (flat_map rpn_entry names))).
  { induction 1 as [|n names Nn D IH]; cbn [flat_map]; [constructor|].
    rewrite map_app.
    assert (One : (length (rpn_entry n) <= 1)%nat).
    { unfold rpn_entry. destruct (rsplit_slash n) as [[a w]|]; [|simpl; lia].
      destruct (str_eqb w (lit "bias")); [simpl; lia|].
      destruct (str_eqb w (lit "kernel")); simpl; lia. }
    apply NoDup_app; try assumption.
    - destruct (rpn_entry n) as [|e [|e' l]]; simpl in One; try lia;
        cbn [map]; repeat constructor. intros [].
    - intros k Ik Ik'. apply in_map_iff in Ik as (e & <- & Ie).
      apply in_map_iff in Ik' as (e' & E & Ie').
      apply in_flat_map in Ie' as (m & Im & Ie').
      symmetry in E. apply (rpn_entry_injective n m e e' Ie Ie') in E.
      congruence. }
  rewrite map_app, map_map. cbn [fst].
  apply NoDup_app; [| now apply Keys |].
  - apply NoDup_map_injective; [|assumption].
    intros x y E. now apply app_inv_head in E.
  - intros k Ik Ik'. apply in_map_iff in Ik as (m & <- & _).
    apply in_map_iff in Ik' as (e & E & Ie).
    apply in_flat_map in Ie as (n & _ & Ie).
    exact (rpn_entry_not_pretrained n m e Ie E).
Qed.

Lemma restore_mapping_entries_witness :
  restore_mapping [lit "resnet_v1_101/conv1/weights"]
    [lit "rpn/conv/kernel"; lit "rpn/conv/bias"; lit "rpn/conv/moving_mean"]
  = Some [(lit "truncated_base_network/resnet_v1_101/conv1/weights",
           lit "resnet_v1_101/conv1/weights");
          (lit "fasterrcnn/rpn/conv/w", lit "rpn/conv/kernel");
          (lit "fasterrcnn/rpn/conv/b", lit "rpn/conv/bias")].
Proof.
  destruct (restore_mapping_entries [lit "resnet_v1_101/conv1/weights"]
              [lit "rpn/conv/kernel"; lit "rpn/conv/bias";
               lit "rpn/conv/moving_mean"])
    as (d & H & E & _).
  - repeat constructor. intros [].
  - repeat constructor; simpl; intuition discriminate.
  - intros name [<-|[<-|[<-|[]]]]; cbv; tauto.
  - rewrite H, E. reflexivity.
Defined.

(** ** The size and the centre of a decoded box *)

(** X19. What [get_width_upright] measures on the boxes that [decode]
    returns is what [decode] predicted: the inclusive width and height of
    a decoded box are the anchor's, scaled by the exponentials of the
    third and fourth offsets times the second variance, and its centre
    is the anchor's, moved by the first and second offsets times the
    anchor's width and height and the first variance. *)
Theorem get_width_upright_decode (roi deltas : mat4)
    (variances : option (R * R)) :
  length roi = length deltas ->
  exists bboxes,
    decode roi deltas variances = Some bboxes
    /\ get_width_upright bboxes
       = (Some (zip_with (fun a d =>
                    exp (c2 d * snd (default_variances variances))
                    * width_of a) roi deltas),
          Some (zip_with (fun a d =>
                    exp (c3 d * snd (default_variances variances))
                    * height_of a) roi deltas),
          Some (zip_with (fun a d =>
                    c0 d * width_of a * fst (default_variances variances)
                    + (c0 a + 0.5 * width_of a)) roi deltas),
          Some (zip_with (fun a d =>
                    c1 d * height_of a * fst (default_variances variances)
                    + (c1 a + 0.5 * height_of a)) roi deltas)).
Proof.
  intros E. eexists. split; [now apply decode_rows|].
  unfold get_width_upright, split4, zip_with. rewrite !map_map.
  cbv zeta. columns.
  repeat (apply (f_equal2 pair)); apply f_equal; apply map_ext;
    intros [a d]; unfold decode_row, width_of, height_of;
    cbn [c0 c1 c2 c3 fst snd]; lra.
Qed.

Lemma get_width_upright_decode_witness :
  exists bboxes,
    decode [Row4 0 0 9 9] [Row4 0.5 (-0.5) 0 0] None = Some bboxes
    /\ get_width_upright bboxes
       = (Some [exp (0 * 1) * width_of (Row4 0 0 9 9)],
          Some [exp (0 * 1) * height_of (Row4 0 0 9 9)],
          Some [0.5 * width_of (Row4 0 0 9 9) * 1
                + (0 + 0.5 * width_of (Row4 0 0 9 9))],
          Some [-0.5 * height_of (Row4 0 0 9 9) * 1
                + (0 + 0.5 * height_of (Row4 0 0 9 9))]).
Proof.
  exact (get_width_upright_decode [Row4 0 0 9 9] [Row4 0.5 (-0.5) 0 0] None
           eq_refl).
Defined.
